(** * SingleLinkedList: a shallow embedding of [src/main.cpp]

    The C++ container is a chain of heap nodes hanging off a sentinel
    [head_] that lives inside the list object.  The embedding keeps that
    shape: a memory holds the heap-allocated nodes, the list objects (each
    with its sentinel and its [size_]) and whatever state the element
    type's copy constructor can observe.  Member functions are programs of
    a small state-and-failure monad, written statement by statement after
    the source. *)

From stdpp Require Import gmap list.
From Stdlib Require Import ZArith Lia.

Local Open Scope Z_scope.

(** ** Pointers

    A [Node*] is null, the address of the sentinel of a list object
    ([&this->head_]) or the address of a node obtained from [new]. *)

Inductive ptr : Type :=
| nullptr
| head_of (l : positive)
| node_at (a : Z).

#[global] Instance ptr_eq_dec : EqDecision ptr.
Proof. solve_decision. Defined.

(** [size_t] is taken to be 64 bits wide, and so are object addresses. *)
Definition SIZE_MOD : Z := 2 ^ 64.

Definition size_incr (s : Z) : Z := (s + 1) mod SIZE_MOD.
Definition size_decr (s : Z) : Z := (s - 1) mod SIZE_MOD.

(** [BasicIterator]: a wrapper around a node pointer.  The mutable and the
    immutable variant have the same representation. *)
Record BasicIterator : Type := Iterator { node_ : ptr }.

(** [BasicIterator::operator==] and [operator!=] compare the pointers. *)
Definition iter_eq (a b : BasicIterator) : bool :=
  bool_decide (node_ a = node_ b).
Definition iter_ne (a b : BasicIterator) : bool :=
  negb (bool_decide (node_ a = node_ b)).

(** ** Nodes, list objects and the memory *)

Record Node (T : Type) : Type := mkNode { value : T; next_node : ptr }.
Arguments mkNode {T} value next_node.
Arguments value {T} n.
Arguments next_node {T} n.

Record SingleLinkedList (T : Type) : Type :=
  mkList { head_ : Node T; size_ : Z }.
Arguments mkList {T} head_ size_.
Arguments head_ {T} s.
Arguments size_ {T} s.

(** The memory: the nodes obtained from [new], the list objects that are
    alive, and the state [W] that the element type's copy constructor can
    see and change. *)
Record Mem (T W : Type) : Type := mkMem {
  heap : gmap Z (Node T);
  objs : gmap positive (SingleLinkedList T);
  world : W
}.
Arguments mkMem {T W} heap objs world.
Arguments heap {T W} m.
Arguments objs {T W} m.
Arguments world {T W} m.

(** ** Outcomes of a member function *)

Inductive outcome (T W A : Type) : Type :=
| Ret (a : A) (m : Mem T W)   (* normal completion *)
| Throw (m : Mem T W)         (* an exception leaves the function *)
| Abort                       (* a failed assert *)
| UB                          (* null or dangling pointer use *)
| OutOfFuel.                  (* the loop bound of the model was reached *)
Arguments Ret {T W A} a m.
Arguments Throw {T W A} m.
Arguments Abort {T W A}.
Arguments UB {T W A}.
Arguments OutOfFuel {T W A}.

(** ** Concrete parameters used to run the model

    Lists of [int] with a copy constructor that never throws, or one that
    throws once a countdown reaches zero (the [ThrowOnCopy] of the
    self-test); a [new] that hands out the least address above every live
    node and fails when the address space is used up, and a [new] that
    hands out the least address not in use. *)

Module IntList.

Definition nothrow (w : unit) (v : Z) : unit * option Z := (w, Some v).

Definition countdown (w : nat) (v : Z) : nat * option Z :=
  match w with
  | O => (O, None)
  | S w' => (w', Some v)
  end.

Definition bump_new {T W} (m : Mem T W) : option Z :=
  let a := map_fold (λ k _ r, Z.max (1 + k) r) 1 (heap m) in
  if a <? SIZE_MOD then Some a else None.

Definition first_fit {T W} (m : Mem T W) : option Z :=
  find (λ a, match heap m !! a with
             | None => a <? SIZE_MOD
             | Some _ => false
             end)
       (Z.of_nat <$> seq 1 (S (size (heap m)))).

Definition bump_obj {T W} (m : Mem T W) : positive :=
  map_fold (λ k _ r, Pos.max (Pos.succ k) r) 1%positive (objs m).

(** Object 1 is the empty list. *)
Definition mem_empty {W} (w : W) : Mem Z W :=
  mkMem ∅ {[ 1%positive := mkList (mkNode 0 nullptr) 0 ]} w.

(** Object 1 is the list {1, 2, 3, 4} and object 2 the list {7, 8}. *)
Definition mem_1234 {W} (w : W) : Mem Z W :=
  mkMem
    (list_to_map
       [ (16, mkNode 1 (node_at 32)); (32, mkNode 2 (node_at 48));
         (48, mkNode 3 (node_at 64)); (64, mkNode 4 nullptr);
         (80, mkNode 7 (node_at 96)); (96, mkNode 8 nullptr) ])
    (list_to_map
       [ (1%positive, mkList (mkNode 0 (node_at 16)) 4);
         (2%positive, mkList (mkNode 0 (node_at 80)) 2) ])
    w.

(** Object 1 is the empty list and object 2 the list {1}. *)
Definition mem_nil_one : Mem Z unit :=
  mkMem
    {[ 16 := mkNode 1 nullptr ]}
    (list_to_map
       [ (1%positive, mkList (mkNode 0 nullptr) 0);
         (2%positive, mkList (mkNode 0 (node_at 16)) 1) ])
    tt.

End IntList.

Section SingleLinkedList.

(** The element type, its default value, the state its copy constructor
    can see and change, and its operators. *)
Context {T W : Type}.
Variable T_default : T.
Variable copy_ctor : W → T → W * option T.
Variable eqT : T → T → bool.
Variable ltT : T → T → bool.

(** [true] when assertions are compiled out. *)
Variable NDEBUG : bool.

(** The allocator behind [new] and the storage of automatic objects. *)
Variable operator_new : Mem T W → option Z.
Variable fresh_obj : Mem T W → positive.

(** ** Outcomes and the monad of member functions *)

Definition M (A : Type) : Type := Mem T W → outcome T W A.

Definition ret {A} (a : A) : M A := λ m, Ret a m.

Definition bind {A B} (c : M A) (k : A → M B) : M B := λ m,
  match c m with
  | Ret a m' => k a m'
  | Throw m' => Throw m'
  | Abort => Abort
  | UB => UB
  | OutOfFuel => OutOfFuel
  end.

Notation "x <- c ;; k" := (bind c (λ x, k))
  (at level 100, c at next level, right associativity).
Notation "c ;;; k" := (bind c (λ _, k))
  (at level 100, right associativity).

Definition assert (c : bool) : M unit := λ m,
  if NDEBUG || c then Ret tt m else Abort.

(** Code run when control leaves a scope, normally or by an exception
    (destructors of automatic objects). *)
Definition finally {A} (c : M A) (d : M unit) : M A := λ m,
  match c m with
  | Ret a m' =>
      match d m' with
      | Ret _ m'' => Ret a m''
      | Throw _ => Abort
      | Abort => Abort
      | UB => UB
      | OutOfFuel => OutOfFuel
      end
  | Throw m' =>
      match d m' with
      | Ret _ m'' => Throw m''
      | Throw _ => Abort
      | Abort => Abort
      | UB => UB
      | OutOfFuel => OutOfFuel
      end
  | Abort => Abort
  | UB => UB
  | OutOfFuel => OutOfFuel
  end.

(** Code run only when an exception leaves [c] (a constructor that
    fails gives its storage back). *)
Definition on_throw {A} (c : M A) (d : Mem T W → Mem T W) : M A := λ m,
  match c m with
  | Throw m' => Throw (d m')
  | o => o
  end.

(** ** Memory accesses *)

(** [*p] for a node pointer. *)
Definition load (p : ptr) : M (Node T) := λ m,
  match p with
  | nullptr => UB
  | head_of l =>
      match objs m !! l with Some s => Ret (head_ s) m | None => UB end
  | node_at a =>
      match heap m !! a with Some n => Ret n m | None => UB end
  end.

(** [p->next_node = q]. *)
Definition store_next (p q : ptr) : M unit := λ m,
  match p with
  | nullptr => UB
  | head_of l =>
      match objs m !! l with
      | Some s =>
          let s' := mkList (mkNode (value (head_ s)) q) (size_ s) in
          Ret tt (mkMem (heap m) (<[l := s']> (objs m)) (world m))
      | None => UB
      end
  | node_at a =>
      match heap m !! a with
      | Some n =>
          let n' := mkNode (value n) q in
          Ret tt (mkMem (<[a := n']> (heap m)) (objs m) (world m))
      | None => UB
      end
  end.

(** [this->size_] read and written. *)
Definition get_size (this : positive) : M Z := λ m,
  match objs m !! this with Some s => Ret (size_ s) m | None => UB end.

Definition set_size (this : positive) (z : Z) : M unit := λ m,
  match objs m !! this with
  | Some s =>
      let s' := mkList (head_ s) z in
      Ret tt (mkMem (heap m) (<[this := s']> (objs m)) (world m))
  | None => UB
  end.

(** [new Node(val, next)]: storage is obtained first; then the argument
    [next] of the constructor is evaluated, and [val] is copied into the
    storage; when the copy throws the storage is given back and the
    exception goes on. *)
Definition new_Node (val : T) (next : M ptr) : M ptr := λ m,
  match operator_new m with
  | None => Throw m
  | Some a =>
      match next m with
      | Ret nx m1 =>
          match copy_ctor (world m1) val with
          | (w, None) => Throw (mkMem (heap m1) (objs m1) w)
          | (w, Some v) =>
              Ret (node_at a)
                  (mkMem (<[a := mkNode v nx]> (heap m1)) (objs m1) w)
          end
      | Throw m1 => Throw m1
      | Abort => Abort
      | UB => UB
      | OutOfFuel => OutOfFuel
      end
  end.

(** [delete p].  The destructor of the value runs first; it does not touch
    the links and is not modelled. *)
Definition delete_Node (p : ptr) : M unit := λ m,
  match p with
  | nullptr => Ret tt m
  | head_of _ => UB
  | node_at a =>
      match heap m !! a with
      | Some _ => Ret tt (mkMem (delete a (heap m)) (objs m) (world m))
      | None => UB
      end
  end.

(** ** Iterators *)

(** [BasicIterator::operator++]. *)
Definition operator_incr (it : BasicIterator) : M BasicIterator :=
  n <- load (node_ it) ;; ret (Iterator (next_node n)).

(** [BasicIterator::operator++(int)]: the value of the expression is the
    iterator as it was, the iterator itself has moved on.  The result is
    the pair of the two. *)
Definition operator_incr_post (it : BasicIterator)
  : M (BasicIterator * BasicIterator) :=
  let tmp := it in
  it' <- operator_incr it ;;
  ret (tmp, it').

(** [BasicIterator::operator*]. *)
Definition operator_deref (it : BasicIterator) : M T :=
  n <- load (node_ it) ;; ret (value n).

Definition begin (this : positive) : M BasicIterator :=
  h <- load (head_of this) ;; ret (Iterator (next_node h)).

Definition end_ (this : positive) : M BasicIterator :=
  ret (Iterator nullptr).

Definition before_begin (this : positive) : M BasicIterator :=
  ret (Iterator (head_of this)).

(** The immutable variants return the same pointers. *)
Definition cbegin (this : positive) : M BasicIterator :=
  h <- load (head_of this) ;; ret (Iterator (next_node h)).

Definition cend (this : positive) : M BasicIterator :=
  ret (Iterator nullptr).

Definition cbefore_begin (this : positive) : M BasicIterator :=
  ret (Iterator (head_of this)).

(** ** Member functions *)

Definition GetSize (this : positive) : M Z := get_size this.

Definition IsEmpty (this : positive) : M bool :=
  s <- get_size this ;; ret (s =? 0).

Definition PushFront (this : positive) (val : T) : M unit :=
  p <- new_Node val (h <- load (head_of this) ;; ret (next_node h)) ;;
  store_next (head_of this) p ;;;
  s <- get_size this ;;
  set_size this (size_incr s).

Definition InsertAfter (this : positive) (pos : BasicIterator) (val : T)
  : M BasicIterator :=
  assert (negb (bool_decide (node_ pos = nullptr))) ;;;
  let before := node_ pos in
  p <- new_Node val (b <- load before ;; ret (next_node b)) ;;
  store_next before p ;;;
  s <- get_size this ;;
  set_size this (size_incr s) ;;;
  b' <- load before ;;
  ret (Iterator (next_node b')).

Definition PopFront (this : positive) : M unit :=
  s <- get_size this ;;
  assert (negb (s =? 0)) ;;;
  h <- load (head_of this) ;;
  assert (negb (bool_decide (next_node h = nullptr))) ;;;
  if s =? 0 then ret tt else
  first <- load (next_node h) ;;
  let next_item := next_node first in
  delete_Node (next_node h) ;;;
  store_next (head_of this) next_item ;;;
  s' <- get_size this ;;
  set_size this (size_decr s').

Definition EraseAfter (this : positive) (pos : BasicIterator)
  : M BasicIterator :=
  assert (negb (bool_decide (node_ pos = nullptr))) ;;;
  let before := node_ pos in
  b <- load before ;;
  victim <- load (next_node b) ;;
  let after_item := next_node victim in
  delete_Node (next_node b) ;;;
  store_next before after_item ;;;
  s <- get_size this ;;
  set_size this (size_decr s) ;;;
  b' <- load before ;;
  ret (Iterator (next_node b')).

Fixpoint Clear (fuel : nat) (this : positive) : M unit :=
  match fuel with
  | O => λ _, OutOfFuel
  | S fuel' =>
      h <- load (head_of this) ;;
      if bool_decide (next_node h = nullptr) then ret tt
      else PopFront this ;;; Clear fuel' this
  end.

Definition swap (this other : positive) : M unit :=
  a <- load (head_of this) ;;
  b <- load (head_of other) ;;
  store_next (head_of this) (next_node b) ;;;
  store_next (head_of other) (next_node a) ;;;
  sa <- get_size this ;;
  sb <- get_size other ;;
  set_size this sb ;;;
  set_size other sa.

(** *** Construction and destruction

    A constructor runs on the storage [this] handed to it.  The default
    member initialisers make [size_] zero and the sentinel's link null
    before a constructor body runs. *)

Definition init_members (this : positive) : M unit := λ m,
  Ret tt (mkMem (heap m)
            (<[this := mkList (mkNode T_default nullptr) 0]> (objs m))
            (world m)).

(** The storage of an object goes away with it. *)
Definition release (this : positive) (m : Mem T W) : Mem T W :=
  mkMem (heap m) (delete this (objs m)) (world m).

(** [SingleLinkedList()]. *)
Definition SingleLinkedList_default (this : positive) : M unit :=
  init_members this.

(** [~SingleLinkedList()]. *)
Definition SingleLinkedList_destroy (fuel : nat) (this : positive) : M unit :=
  Clear fuel this ;;; λ m, Ret tt (release this m).

(** [{ SingleLinkedList tmp; body }]: the automatic object is built on
    fresh storage and destroyed when the block is left. *)
Definition with_tmp {A} (fuel : nat) (body : positive → M A) : M A := λ m,
  let tmp := fresh_obj m in
  (SingleLinkedList_default tmp ;;;
   finally (body tmp) (SingleLinkedList_destroy fuel tmp)) m.

(** [InsetAfterListItems] for a [std::initializer_list<Type>]. *)
Fixpoint InsetAfterListItems_loop (tmp : positive) (pos : BasicIterator)
    (values : list T) : M unit :=
  match values with
  | [] => ret tt
  | v :: values' =>
      pos' <- InsertAfter tmp pos v ;;
      InsetAfterListItems_loop tmp pos' values'
  end.

Definition InsetAfterListItems (tmp : positive) (values : list T) : M unit :=
  pos <- cbefore_begin tmp ;;
  InsetAfterListItems_loop tmp pos values.

(** [InsetAfterListItems] for another [SingleLinkedList]: the loop walks
    the container with its iterators. *)
Fixpoint InsetAfterListItems_list_loop (fuel : nat) (tmp : positive)
    (pos : BasicIterator) (container : positive) (it : BasicIterator)
    : M unit :=
  match fuel with
  | O => λ _, OutOfFuel
  | S fuel' =>
      e <- end_ container ;;
      if iter_ne it e then
        v <- operator_deref it ;;
        pos' <- InsertAfter tmp pos v ;;
        r <- operator_incr_post it ;;
        InsetAfterListItems_list_loop fuel' tmp pos' container r.2
      else ret tt
  end.

Definition InsetAfterListItems_list (fuel : nat) (tmp container : positive)
  : M unit :=
  pos <- cbefore_begin tmp ;;
  it <- begin container ;;
  InsetAfterListItems_list_loop fuel tmp pos container it.

(** [SingleLinkedList(std::initializer_list<Type> values)]. *)
Definition SingleLinkedList_init (fuel : nat) (this : positive)
    (values : list T) : M unit :=
  init_members this ;;;
  on_throw
    (with_tmp fuel (λ tmp,
       InsetAfterListItems tmp values ;;;
       swap this tmp))
    (release this).

(** [SingleLinkedList(const SingleLinkedList& other)]. *)
Definition SingleLinkedList_copy (fuel : nat) (this other : positive)
  : M unit :=
  init_members this ;;;
  on_throw
    (s <- get_size this ;;
     h <- load (head_of this) ;;
     assert ((s =? 0) && bool_decide (next_node h = nullptr)) ;;;
     with_tmp fuel (λ tmp,
       InsetAfterListItems_list fuel tmp other ;;;
       swap this tmp))
    (release this).

(** [operator=(const SingleLinkedList& rhs)]. *)
Definition operator_assign (fuel : nat) (this rhs : positive) : M unit :=
  if bool_decide (this = rhs) then ret tt
  else λ m,
    let tmp_othrs := fresh_obj m in
    (SingleLinkedList_copy fuel tmp_othrs rhs ;;;
     finally (swap this tmp_othrs)
             (SingleLinkedList_destroy fuel tmp_othrs)) m.

(** ** Comparison operators *)

(** [std::equal(first1, last1, first2)]. *)
Fixpoint std_equal (fuel : nat) (first1 last1 first2 : BasicIterator)
  : M bool :=
  match fuel with
  | O => λ _, OutOfFuel
  | S fuel' =>
      if iter_ne first1 last1 then
        x <- operator_deref first1 ;;
        y <- operator_deref first2 ;;
        if negb (eqT x y) then ret false
        else
          first1' <- operator_incr first1 ;;
          first2' <- operator_incr first2 ;;
          std_equal fuel' first1' last1 first2'
      else ret true
  end.

(** [std::lexicographical_compare(first1, last1, first2, last2)]. *)
Fixpoint std_lexicographical_compare (fuel : nat)
    (first1 last1 first2 last2 : BasicIterator) : M bool :=
  match fuel with
  | O => λ _, OutOfFuel
  | S fuel' =>
      if iter_ne first1 last1 && iter_ne first2 last2 then
        x <- operator_deref first1 ;;
        y <- operator_deref first2 ;;
        if ltT x y then ret true
        else if ltT y x then ret false
        else
          first1' <- operator_incr first1 ;;
          first2' <- operator_incr first2 ;;
          std_lexicographical_compare fuel' first1' last1 first2' last2
      else ret (iter_eq first1 last1 && iter_ne first2 last2)
  end.

Definition operator_eq (fuel : nat) (lhs rhs : positive) : M bool :=
  b1 <- begin lhs ;;
  e1 <- end_ lhs ;;
  b2 <- begin rhs ;;
  std_equal fuel b1 e1 b2.

Definition operator_ne (fuel : nat) (lhs rhs : positive) : M bool :=
  r <- operator_eq fuel lhs rhs ;;
  if r then ret false else ret true.

Definition operator_lt (fuel : nat) (lhs rhs : positive) : M bool :=
  b1 <- begin lhs ;;
  e1 <- end_ lhs ;;
  b2 <- begin rhs ;;
  e2 <- end_ rhs ;;
  std_lexicographical_compare fuel b1 e1 b2 e2.

Definition operator_le (fuel : nat) (lhs rhs : positive) : M bool :=
  r <- operator_lt fuel rhs lhs ;;
  if r then ret false else ret true.

Definition operator_gt (fuel : nat) (lhs rhs : positive) : M bool :=
  r <- operator_lt fuel rhs lhs ;;
  if r then ret true else ret false.

Definition operator_ge (fuel : nat) (lhs rhs : positive) : M bool :=
  r <- operator_gt fuel rhs lhs ;;
  if r then ret false else ret true.

(** The non-member [swap(lhs, rhs)]. *)
Definition swap_nonmember (lhs rhs : positive) : M unit :=
  swap lhs rhs.

(** [++it], [n] times over. *)
Fixpoint incr_n (n : nat) (it : BasicIterator) : M BasicIterator :=
  match n with
  | O => ret it
  | S n' => it' <- operator_incr it ;; incr_n n' it'
  end.

(** ** What a memory represents

    [lseg h p l q]: following [next_node] from [p] in the heap [h] visits
    the nodes [l] (address and value) and arrives at [q].  A chain is a
    segment that ends in null; that it exists says that the walk from [p]
    is finite. *)

Inductive lseg (h : gmap Z (Node T)) : ptr → list (Z * T) → ptr → Prop :=
| lseg_nil p : lseg h p [] p
| lseg_cons a v nx l q :
    h !! a = Some (mkNode v nx) →
    lseg h nx l q →
    lseg h (node_at a) ((a, v) :: l) q.

Definition chain (h : gmap Z (Node T)) (p : ptr) (l : list (Z * T)) : Prop :=
  lseg h p l nullptr.

(** The pointer held by an iterator that stands after the nodes [pre] of
    the list [this]: the sentinel when [pre] is empty. *)
Definition last_ptr (this : positive) (pre : list (Z * T)) : ptr :=
  match last pre with
  | Some (a, _) => node_at a
  | None => head_of this
  end.

(** The pointer to the first node of [post], null when there is none. *)
Definition first_ptr (post : list (Z * T)) : ptr :=
  match post with
  | (a, _) :: _ => node_at a
  | [] => nullptr
  end.

(** The list object [this] is alive, its nodes are [cells] in this order,
    and [size_] counts them. *)
Definition is_list (m : Mem T W) (this : positive) (cells : list (Z * T))
  : Prop :=
  ∃ s, objs m !! this = Some s
       ∧ chain (heap m) (next_node (head_ s)) cells
       ∧ size_ s = Z.of_nat (length cells).

(** The memory [m] holds exactly the lists of [σ]: every live object is a
    well-formed list, no node belongs to two lists, and node addresses fit
    a pointer. *)
Record models (m : Mem T W) (σ : gmap positive (list (Z * T))) : Prop := {
  models_dom : dom (objs m) = dom σ;
  models_list : ∀ l cells, σ !! l = Some cells → is_list m l cells;
  models_sep : ∀ l1 l2 c1 c2,
    l1 ≠ l2 → σ !! l1 = Some c1 → σ !! l2 = Some c2 → c1.*1 ## c2.*1;
  models_range : ∀ a n, heap m !! a = Some n → 0 < a < SIZE_MOD
}.

(** The data-model invariant of the whole memory. *)
Definition mem_inv (m : Mem T W) : Prop := ∃ σ, models m σ.

(** *** The same, computed *)

Fixpoint walk (fuel : nat) (h : gmap Z (Node T)) (p : ptr)
  : option (list (Z * T)) :=
  match fuel with
  | O => None
  | S fuel' =>
      match p with
      | nullptr => Some []
      | head_of _ => None
      | node_at a =>
          match h !! a with
          | Some n => (λ l, (a, value n) :: l) <$> walk fuel' h (next_node n)
          | None => None
          end
      end
  end.

Definition cells_of (m : Mem T W) (s : SingleLinkedList T)
  : option (list (Z * T)) :=
  walk (S (size (heap m))) (heap m) (next_node (head_ s)).

Definition abstraction (m : Mem T W) : gmap positive (list (Z * T)) :=
  omap (cells_of m) (objs m).

Definition mem_inv_check (m : Mem T W) : bool :=
  let σ := map_to_list (abstraction m) in
  forallb (λ ls, match cells_of m ls.2 with
                 | Some c => size_ ls.2 =? Z.of_nat (length c)
                 | None => false
                 end) (map_to_list (objs m))
  && forallb (λ lc1,
       forallb (λ lc2,
         bool_decide (lc1.1 = lc2.1)
         || bool_decide (Forall (λ a, a ∉ lc2.2.*1) lc1.2.*1)) σ) σ
  && forallb (λ an, (0 <? an.1) && (an.1 <? SIZE_MOD)) (map_to_list (heap m)).

(** ** What the standard algorithms compute on the element sequences *)

(** [std::equal] with three iterators stops at the end of the first
    range; it reads past the end of the second one ([None]) when that is
    the shorter. *)
Fixpoint equal_prefix (xs ys : list T) : option bool :=
  match xs, ys with
  | [], _ => Some true
  | _ :: _, [] => None
  | x :: xs', y :: ys' => if eqT x y then equal_prefix xs' ys' else Some false
  end.

(** [std::lexicographical_compare]. *)
Fixpoint lex_ltb (xs ys : list T) : bool :=
  match xs, ys with
  | [], [] => false
  | [], _ :: _ => true
  | _ :: _, [] => false
  | x :: xs', y :: ys' =>
      if ltT x y then true
      else if ltT y x then false
      else lex_ltb xs' ys'
  end.

(** The values of the list [l] after a call that completed in a memory
    satisfying the invariant, and the value the call returned. *)
Definition values_after {A} (o : outcome T W A) (l : positive)
  : option (list T) :=
  match o with
  | Ret _ m' =>
      if mem_inv_check m' then (λ c, c.*2) <$> abstraction m' !! l else None
  | _ => None
  end.

Definition result_of {A} (o : outcome T W A) : option A :=
  match o with
  | Ret a _ => Some a
  | _ => None
  end.

(** ** Specification-level orderings on element sequences *)

(** Same length and element-wise equal, by the element type's [==]. *)
Definition seq_equal (xs ys : list T) : Prop :=
  Forall2 (λ x y, eqT x y = true) xs ys.

(** Lexicographically earlier, by the element type's [<]: at the first
    position where the sequences differ the left one has the smaller
    element, or it has ended and the right one has not. *)
Inductive lex_lt : list T → list T → Prop :=
| lex_lt_nil y ys : lex_lt [] (y :: ys)
| lex_lt_head x xs y ys : ltT x y = true → lex_lt (x :: xs) (y :: ys)
| lex_lt_tail x xs y ys :
    ltT x y = false → ltT y x = false → lex_lt xs ys →
    lex_lt (x :: xs) (y :: ys).

(** The result of copying the values [vs] one after the other. *)
Inductive copies : list T → list T → Prop :=
| copies_nil : copies [] []
| copies_cons w v w' v' vs vs' :
    copy_ctor w v = (w', Some v') → copies vs vs' →
    copies (v :: vs) (v' :: vs').

(** A call completes or throws, and then satisfies [Q] or [E]; it does not
    abort, run into undefined behaviour or loop. *)
Definition ends_with {A} (o : outcome T W A)
    (Q : A → Mem T W → Prop) (E : Mem T W → Prop) : Prop :=
  match o with
  | Ret a m' => Q a m'
  | Throw m' => E m'
  | _ => False
  end.

(** A call keeps the data-model invariant, however it ends. *)
Definition keeps_inv {A} (o : outcome T W A) : Prop :=
  ends_with o (λ _ m', mem_inv m') mem_inv.

(** Every node of the heap belongs to a list: none has leaked. *)
Definition no_garbage (m : Mem T W) (σ : gmap positive (list (Z * T)))
  : Prop :=
  ∀ a, is_Some (heap m !! a) → ∃ l c, σ !! l = Some c ∧ a ∈ c.*1.

(** The memory holds exactly the lists of [σ] and nothing else. *)
Definition tight (m : Mem T W) (σ : gmap positive (list (Z * T))) : Prop :=
  models m σ ∧ no_garbage m σ.

Definition no_garbage_check (m : Mem T W) : bool :=
  let owned := concat ((λ lc, lc.2.*1) <$> map_to_list (abstraction m)) in
  forallb (λ an, bool_decide (an.1 ∈ owned)) (map_to_list (heap m)).

(** A call leaks no node: it ends in a tight memory, and when an
    exception leaves it the lists and the heap are those before the
    call. *)
Definition keeps_tight {A} (m : Mem T W) (σ : gmap positive (list (Z * T)))
    (o : outcome T W A) : Prop :=
  ends_with o
    (λ _ m', ∃ σ', tight m' σ')
    (λ m', tight m' σ ∧ heap m' = heap m).

(** A call does not end by an exception. *)
Definition no_throw {A} (o : outcome T W A) : Prop :=
  match o with
  | Throw _ => False
  | _ => True
  end.

(** [new] returns storage as long as fewer than [capacity] nodes are
    allocated. *)
Definition new_succeeds_below (capacity : nat) : Prop :=
  ∀ m, (size (heap m) < capacity)%nat → is_Some (operator_new m).

(** No copy of one of the values [vs] throws. *)
Definition copies_succeed (vs : list T) : Prop :=
  ∀ w v, v ∈ vs → ∃ w' v', copy_ctor w v = (w', Some v').

(** * Properties *)

(** ** Assumptions on the environment

    [new] returns storage that is not in use and whose address fits a
    pointer; the storage of a new automatic object is not in use. *)
Hypothesis operator_new_fresh : ∀ m a,
  operator_new m = Some a → heap m !! a = None ∧ 0 < a < SIZE_MOD.
Hypothesis fresh_obj_fresh : ∀ m, objs m !! fresh_obj m = None.

(** Equations between maps built from inserts and deletes. *)
Ltac map_solve :=
  apply map_eq; intros ?;
  repeat (rewrite lookup_insert || rewrite lookup_delete);
  repeat case_decide; simplify_eq; try done; congruence.

(** ** Segments and chains *)

Lemma SIZE_MOD_pos : 0 < SIZE_MOD.
Proof. reflexivity. Qed.

Lemma lseg_app h p l1 q l2 r :
  lseg h p l1 q → lseg h q l2 r → lseg h p (l1 ++ l2) r.
Proof.
  induction 1 as [|a v nx l q Ha _ IH]; intros H2; simpl; [done|].
  econstructor; eauto.
Qed.

Lemma lseg_app_inv h l1 : ∀ p l2 r,
  lseg h p (l1 ++ l2) r → ∃ q, lseg h p l1 q ∧ lseg h q l2 r.
Proof.
  induction l1 as [|[a v] l1 IH]; intros p l2 r H; simpl in *.
  - exists p. split; [constructor | done].
  - inversion H; simplify_eq.
    edestruct IH as (q & H1 & H2); [eassumption|].
    exists q. split; [econstructor; eauto | done].
Qed.

(** A segment only depends on the heap at its own nodes. *)
Lemma lseg_agree h h' p l q :
  lseg h p l q → (∀ a, a ∈ l.*1 → h' !! a = h !! a) → lseg h' p l q.
Proof.
  induction 1 as [|a v nx l q Ha _ IH]; intros Hag; [constructor|].
  econstructor.
  - rewrite Hag; [done | simpl; left].
  - apply IH. intros b Hb. apply Hag. simpl. by right.
Qed.

Lemma chain_det h p l1 : ∀ l2, chain h p l1 → chain h p l2 → l1 = l2.
Proof.
  unfold chain. intros l2 H1. revert l2.
  remember nullptr as q eqn:Hq.
  induction H1 as [p|a v nx l q Ha _ IH]; intros l2 H2.
  - subst p. by inversion H2.
  - inversion H2; simplify_eq. f_equal. by apply IH.
Qed.

Lemma chain_heads h p l : chain h p l → p = first_ptr l.
Proof. unfold chain. by inversion 1. Qed.

Lemma lseg_heads h p l q : lseg h p l q → l ≠ [] → p = first_ptr l.
Proof. by inversion 1. Qed.

(** From a node of a chain the rest of the chain is a chain. *)
Lemma chain_suffix h p l a :
  chain h p l → a ∈ l.*1 →
  ∃ l1 v l2, l = l1 ++ (a, v) :: l2 ∧ chain h (node_at a) ((a, v) :: l2).
Proof.
  unfold chain. remember nullptr as q eqn:Hq.
  induction 1 as [p|b v nx l q Hb Hl IH]; intros Hin; simpl in *.
  - by apply elem_of_nil in Hin.
  - destruct (decide (a = b)) as [->|Hne].
    + exists [], v, l. split; [done | econstructor; eauto].
    + apply elem_of_cons in Hin as [?|Hin]; [done|].
      destruct (IH Hq Hin) as (l1 & v' & l2 & -> & Hc).
      exists ((b, v) :: l1), v', l2. by split.
Qed.

(** A chain visits no node twice: the walk to null is acyclic. *)
Lemma chain_NoDup h p l : chain h p l → NoDup l.*1.
Proof.
  unfold chain. remember nullptr as q eqn:Hq.
  induction 1 as [p|a v nx l q Ha Hl IH]; simpl; [constructor|].
  constructor; [|by apply IH].
  intros Hin. subst q.
  destruct (chain_suffix _ _ _ _ Hl Hin) as (l1 & v' & l2 & -> & Hc).
  assert (Hc' : chain h (node_at a) ((a, v) :: l1 ++ (a, v') :: l2))
    by (econstructor; eauto).
  pose proof (chain_det _ _ _ _ Hc Hc') as Heq.
  apply (f_equal length) in Heq. simpl in Heq.
  rewrite length_app in Heq. simpl in Heq. lia.
Qed.

Lemma chain_in_heap h p l a : chain h p l → a ∈ l.*1 → is_Some (h !! a).
Proof.
  intros Hc Hin.
  destruct (chain_suffix _ _ _ _ Hc Hin) as (l1 & v & l2 & _ & Hc').
  inversion Hc'; subst. eauto.
Qed.

(** *** Node addresses fit a pointer, so a chain is shorter than [SIZE_MOD] *)

Lemma NoDup_bounded_length (n : nat) : ∀ l : list Z,
  NoDup l → (∀ a, a ∈ l → 0 < a ≤ Z.of_nat n) → (length l ≤ n)%nat.
Proof.
  induction n as [|n IH]; intros l Hnd Hb.
  - destruct l as [|a l]; [done|].
    specialize (Hb a (list_elem_of_here _ _)). lia.
  - destruct (decide (Z.of_nat (S n) ∈ l)) as [Hin|Hnin].
    + apply elem_of_Permutation in Hin as [k Hk].
      rewrite Hk in Hnd. apply NoDup_cons in Hnd as [Hx Hnd].
      rewrite Hk. simpl. apply le_n_S, IH; [done|].
      intros a Ha.
      assert (a ∈ l) as Hal by (rewrite Hk; by right).
      specialize (Hb a Hal).
      assert (a ≠ Z.of_nat (S n)) by (intros ->; done). lia.
    + etrans; [apply IH; [done|] | lia].
      intros a Ha. specialize (Hb a Ha).
      assert (a ≠ Z.of_nat (S n)) by (intros ->; done). lia.
Qed.

Lemma chain_length_bound h p l :
  chain h p l →
  (∀ a n, h !! a = Some n → 0 < a < SIZE_MOD) →
  Z.of_nat (length l) < SIZE_MOD.
Proof.
  intros Hc Hr.
  pose proof SIZE_MOD_pos as Hpos.
  assert (length l.*1 ≤ Z.to_nat (SIZE_MOD - 1))%nat as Hle.
  { apply NoDup_bounded_length; [by eapply chain_NoDup|].
    intros a Ha. destruct (chain_in_heap _ _ _ _ Hc Ha) as [n Hn].
    specialize (Hr a n Hn). rewrite Z2Nat.id; lia. }
  rewrite length_fmap in Hle.
  apply Nat2Z.inj_le in Hle. rewrite Z2Nat.id in Hle; lia.
Qed.

Lemma size_incr_small (n : Z) : 0 ≤ n → n + 1 < SIZE_MOD → size_incr n = n + 1.
Proof. intros. unfold size_incr. apply Z.mod_small. lia. Qed.

Lemma size_decr_small (n : Z) : 0 < n → n < SIZE_MOD → size_decr n = n - 1.
Proof. intros. unfold size_decr. apply Z.mod_small. lia. Qed.

(** ** Running the monad *)

Lemma bind_Ret {A B} (c : M A) (k : A → M B) m a m' :
  c m = Ret a m' → bind c k m = k a m'.
Proof. unfold bind. by intros ->. Qed.

Lemma bind_Throw {A B} (c : M A) (k : A → M B) m m' :
  c m = Throw m' → bind c k m = Throw m'.
Proof. unfold bind. by intros ->. Qed.

Lemma assert_true m : assert true m = Ret tt m.
Proof. unfold assert. by rewrite orb_true_r. Qed.

(** ** Lists in a memory *)

Lemma is_list_frame m m' l c :
  is_list m l c →
  objs m' !! l = objs m !! l →
  (∀ a, a ∈ c.*1 → heap m' !! a = heap m !! a) →
  is_list m' l c.
Proof.
  intros (s & Hs & Hc & Hn) Ho Hh. exists s. split_and!; [congruence| |done].
  by eapply lseg_agree.
Qed.

Lemma is_list_det m l c1 c2 : is_list m l c1 → is_list m l c2 → c1 = c2.
Proof.
  intros (s1 & Hs1 & Hc1 & _) (s2 & Hs2 & Hc2 & _). simplify_eq.
  by eapply chain_det.
Qed.

Lemma is_list_length m l c :
  is_list m l c →
  (∀ a n, heap m !! a = Some n → 0 < a < SIZE_MOD) →
  Z.of_nat (length c) < SIZE_MOD.
Proof. intros (s & _ & Hc & _) Hr. by eapply chain_length_bound. Qed.

Lemma models_world m σ w :
  models m σ → models (mkMem (heap m) (objs m) w) σ.
Proof. intros [Hd Hl Hs Hr]. by split. Qed.

Lemma models_lookup m σ l c :
  models m σ → σ !! l = Some c → is_list m l c.
Proof. intros Hm. apply (models_list _ _ Hm). Qed.

Lemma models_fresh_obj m σ l : models m σ → objs m !! l = None → σ !! l = None.
Proof.
  intros Hm Hl. apply not_elem_of_dom. rewrite <- (models_dom _ _ Hm).
  by apply not_elem_of_dom.
Qed.

(** The list [this] changes from [old] to [new]; the other objects and
    the nodes outside [old] stay, and the nodes of [new] are nodes of
    [old] or newly allocated ones. *)
Lemma models_update m m' σ this old new :
  models m σ → σ !! this = Some old →
  is_list m' this new →
  (∀ l, l ≠ this → objs m' !! l = objs m !! l) →
  (∀ a, is_Some (heap m !! a) → a ∉ old.*1 → heap m' !! a = heap m !! a) →
  (∀ a, a ∈ new.*1 → a ∈ old.*1 ∨ heap m !! a = None) →
  (∀ a n, heap m' !! a = Some n → 0 < a < SIZE_MOD) →
  models m' (<[this := new]> σ).
Proof.
  intros Hm Hold Hnew Hobjs Hheap Hnodes Hrange.
  assert (Hother : ∀ l c a, l ≠ this → σ !! l = Some c → a ∈ c.*1 →
            is_Some (heap m !! a) ∧ a ∉ old.*1).
  { intros l c a Hne Hl Ha. split.
    - destruct (models_list _ _ Hm _ _ Hl) as (s & _ & Hc & _).
      by eapply chain_in_heap.
    - intros Ha'. by eapply (models_sep _ _ Hm l this c old). }
  split.
  - rewrite dom_insert_L. apply set_eq. intros l.
    rewrite elem_of_union, elem_of_singleton, <- (models_dom _ _ Hm),
      !elem_of_dom.
    destruct (decide (l = this)) as [->|Hne].
    + destruct Hnew as (s & -> & _). split; [by left | by eauto].
    + rewrite Hobjs by done. split; [by right | by intros [?|?]].
  - intros l c Hl. destruct (decide (l = this)) as [->|Hne].
    + rewrite lookup_insert_eq in Hl. by simplify_eq.
    + rewrite lookup_insert_ne in Hl by done.
      eapply is_list_frame; [by eapply models_list | by apply Hobjs |].
      intros a Ha. destruct (Hother l c a Hne Hl Ha). by apply Hheap.
  - assert (Hdisj : ∀ l c, l ≠ this → σ !! l = Some c → new.*1 ## c.*1).
    { intros l c Hne Hl a Ha Ha'.
      destruct (Hother l c a Hne Hl Ha') as [[n Hn] Hnold].
      destruct (Hnodes a Ha) as [?|Hnone]; [done | congruence]. }
    intros l1 l2 c1 c2 Hne H1 H2.
    destruct (decide (l1 = this)) as [->|Hne1];
      destruct (decide (l2 = this)) as [->|Hne2]; [done| | |].
    + rewrite lookup_insert_eq in H1. rewrite lookup_insert_ne in H2 by done.
      simplify_eq. by eapply Hdisj.
    + rewrite lookup_insert_eq in H2. rewrite lookup_insert_ne in H1 by done.
      simplify_eq. intros a Ha Ha'. by eapply (Hdisj l1 c1 Hne1 H1 a).
    + rewrite lookup_insert_ne in H1, H2 by done.
      by eapply (models_sep _ _ Hm l1 l2).
  - done.
Qed.

(** ** Positions *)

Lemma last_ptr_snoc this pre b vb : last_ptr this (pre ++ [(b, vb)]) = node_at b.
Proof. unfold last_ptr. by rewrite last_snoc. Qed.

Lemma last_ptr_not_null this pre : last_ptr this pre ≠ nullptr.
Proof. unfold last_ptr. by destruct (last pre) as [[]|]. Qed.

Lemma lseg_snoc_inv h p pre b vb nx :
  lseg h p (pre ++ [(b, vb)]) nx →
  lseg h p pre (node_at b) ∧ h !! b = Some (mkNode vb nx).
Proof.
  intros H. apply lseg_app_inv in H as (q & Hpre & Hb).
  inversion Hb as [|? ? ? ? ? Hlook Hnil]; subst.
  inversion Hnil; subst. done.
Qed.

(** Reading the node an iterator refers to. *)
Lemma pos_load m this s pre nx :
  objs m !! this = Some s →
  lseg (heap m) (next_node (head_ s)) pre nx →
  ∃ n, load (last_ptr this pre) m = Ret n m ∧ next_node n = nx.
Proof.
  intros Hs Hpre. destruct pre as [|[b vb] pre _] using rev_ind.
  - inversion Hpre; subst. exists (head_ s). unfold load. simpl.
    by rewrite Hs.
  - apply lseg_snoc_inv in Hpre as [_ Hb].
    rewrite last_ptr_snoc. eexists. unfold load. rewrite Hb. done.
Qed.

(** Relinking the node an iterator refers to. *)
Lemma pos_store m this s pre nx q post :
  objs m !! this = Some s →
  lseg (heap m) (next_node (head_ s)) pre nx →
  NoDup pre.*1 →
  chain (heap m) q post →
  (∀ a, a ∈ pre.*1 → a ∉ post.*1) →
  ∃ m' s',
    store_next (last_ptr this pre) q m = Ret tt m'
    ∧ objs m' !! this = Some s' ∧ size_ s' = size_ s
    ∧ chain (heap m') (next_node (head_ s')) (pre ++ post)
    ∧ world m' = world m
    ∧ (∀ l, l ≠ this → objs m' !! l = objs m !! l)
    ∧ (∀ a, a ∉ pre.*1 → heap m' !! a = heap m !! a)
    ∧ (∀ a, is_Some (heap m' !! a) → is_Some (heap m !! a)).
Proof.
  intros Hs Hpre Hnd Hpost Hdisj.
  destruct pre as [|[b vb] pre _] using rev_ind.
  - inversion Hpre; subst.
    exists (mkMem (heap m)
              (<[this := mkList (mkNode (value (head_ s)) q) (size_ s)]> (objs m))
              (world m)),
           (mkList (mkNode (value (head_ s)) q) (size_ s)).
    unfold store_next, last_ptr. simpl. rewrite Hs.
    split_and!; [done | by rewrite lookup_insert_eq | done | done | done
                | | done | done].
    intros l Hl. by rewrite lookup_insert_ne.
  - apply lseg_snoc_inv in Hpre as [Hpre Hb].
    rewrite last_ptr_snoc. unfold store_next. rewrite Hb.
    rewrite fmap_app in Hnd, Hdisj. simpl in *.
    apply NoDup_app in Hnd as (_ & Hnb & _).
    exists (mkMem (<[b := mkNode vb q]> (heap m)) (objs m) (world m)), s.
    split_and!; [done | done | done | | done | done | |]; simpl.
    + rewrite <- app_assoc. simpl. eapply lseg_app.
      * eapply lseg_agree; [exact Hpre|].
        intros a Ha. rewrite lookup_insert_ne; [done|].
        intros <-. eapply Hnb; [done | by left].
      * econstructor; [by rewrite lookup_insert_eq|].
        eapply lseg_agree; [exact Hpost|].
        intros a Ha. rewrite lookup_insert_ne; [done|].
        intros <-. eapply Hdisj; [|done].
        apply elem_of_app. right. by left.
    + intros a Ha. rewrite lookup_insert_ne; [done|].
      intros <-. apply Ha. rewrite fmap_app. apply elem_of_app. right. by left.
    + intros a. destruct (decide (a = b)) as [->|Hne].
      * by rewrite Hb.
      * by rewrite lookup_insert_ne.
Qed.

(** ** The primitive steps *)

Lemma load_next m p n :
  load p m = Ret n m → (b <- load p ;; ret (next_node b)) m = Ret (next_node n) m.
Proof. unfold bind. by intros ->. Qed.

Lemma new_Node_ok m val next nx a w v :
  operator_new m = Some a → next m = Ret nx m →
  copy_ctor (world m) val = (w, Some v) →
  new_Node val next m
  = Ret (node_at a) (mkMem (<[a := mkNode v nx]> (heap m)) (objs m) w).
Proof. unfold new_Node. by intros -> -> ->. Qed.

Lemma new_Node_bad_alloc m val next :
  operator_new m = None → new_Node val next m = Throw m.
Proof. unfold new_Node. by intros ->. Qed.

Lemma new_Node_copy_throws m val next nx a w :
  operator_new m = Some a → next m = Ret nx m →
  copy_ctor (world m) val = (w, None) →
  new_Node val next m = Throw (mkMem (heap m) (objs m) w).
Proof. unfold new_Node. by intros -> -> ->. Qed.

Lemma get_size_ok m this s :
  objs m !! this = Some s → get_size this m = Ret (size_ s) m.
Proof. unfold get_size. by intros ->. Qed.

Lemma set_size_ok m this s z :
  objs m !! this = Some s →
  set_size this z m
  = Ret tt (mkMem (heap m) (<[this := mkList (head_ s) z]> (objs m)) (world m)).
Proof. unfold set_size. by intros ->. Qed.

Lemma load_head m this s :
  objs m !! this = Some s → load (head_of this) m = Ret (head_ s) m.
Proof. unfold load. by intros ->. Qed.

Lemma load_node m a n :
  heap m !! a = Some n → load (node_at a) m = Ret n m.
Proof. unfold load. by intros ->. Qed.

(** ** [InsertAfter] and [PushFront] *)

(** The state after a node [a] holding [v] was linked in after [pre]. *)
Lemma link_in m σ this s pre post a v w :
  models m σ → σ !! this = Some (pre ++ post) →
  objs m !! this = Some s →
  heap m !! a = None → 0 < a < SIZE_MOD →
  let m1 := mkMem (<[a := mkNode v (first_ptr post)]> (heap m)) (objs m) w in
  ∃ m2 s2,
    store_next (last_ptr this pre) (node_at a) m1 = Ret tt m2
    ∧ objs m2 !! this = Some s2
    ∧ world m2 = w
    ∧ models
        (mkMem (heap m2)
           (<[this := mkList (head_ s2) (size_incr (size_ s2))]> (objs m2))
           (world m2))
        (<[this := pre ++ (a, v) :: post]> σ).
Proof.
  intros Hm Hσ Hs Hfresh Hra m1.
  destruct (models_list _ _ Hm _ _ Hσ) as (s' & Hs' & Hc & Hsz).
  simplify_eq.
  pose proof (chain_NoDup _ _ _ Hc) as Hnd.
  assert (Hnotin : a ∉ (pre ++ post).*1).
  { intros Hin. destruct (chain_in_heap _ _ _ _ Hc Hin) as [n Hn]. congruence. }
  rewrite fmap_app in Hnd, Hnotin.
  apply NoDup_app in Hnd as (Hndpre & Hdisj & Hndpost).
  apply not_elem_of_app in Hnotin as [Hapre Hapost].
  apply lseg_app_inv in Hc as (q & Hpre & Hpost).
  pose proof (chain_heads _ _ _ Hpost) as ->.
  assert (Hpre1 : lseg (heap m1) (next_node (head_ s)) pre (first_ptr post)).
  { eapply lseg_agree; [exact Hpre|]. intros b Hb. simpl.
    rewrite lookup_insert_ne; [done | by intros <-]. }
  assert (Hpost1 : chain (heap m1) (node_at a) ((a, v) :: post)).
  { econstructor; [simpl; by rewrite lookup_insert_eq|].
    eapply lseg_agree; [exact Hpost|]. intros b Hb. simpl.
    rewrite lookup_insert_ne; [done | by intros <-]. }
  destruct (pos_store m1 this s pre (first_ptr post) (node_at a) ((a, v) :: post))
    as (m2 & s2 & Hstore & Hs2 & Hsz2 & Hc2 & Hw2 & Hobjs2 & Hheap2 & Hdom2);
    [done | done | done | done | |].
  { intros b Hb. simpl. intros [->|Hb']%elem_of_cons; [done|].
    by eapply Hdisj. }
  exists m2, s2. split_and!; [done | done | done |].
  assert (Hrange2 : ∀ b n, heap m2 !! b = Some n → 0 < b < SIZE_MOD).
  { intros b n Hb. destruct (Hdom2 b (mk_is_Some _ _ Hb)) as [n' Hn'].
    simpl in Hn'. destruct (decide (b = a)) as [->|Hne]; [done|].
    rewrite lookup_insert_ne in Hn' by done.
    by eapply (models_range _ _ Hm). }
  pose proof (chain_length_bound _ _ _ Hc2 Hrange2) as Hlen.
  rewrite length_app in Hlen, Hsz. simpl in Hlen.
  eapply models_update; [exact Hm | exact Hσ | | | | | done].
  - eexists. simpl. rewrite lookup_insert_eq. split_and!; [done | done |].
    simpl. rewrite Hsz2, Hsz, size_incr_small, length_app; simpl; lia.
  - intros l Hl. simpl. rewrite lookup_insert_ne by done. by apply Hobjs2.
  - intros b [n Hn] Hb. simpl. rewrite fmap_app in Hb.
    apply not_elem_of_app in Hb as [Hb1 Hb2].
    rewrite Hheap2 by done. simpl. rewrite lookup_insert_ne; [done|].
    intros <-. congruence.
  - intros b. rewrite !fmap_app. simpl.
    rewrite !elem_of_app, elem_of_cons.
    intros [?|[->|?]]; [by left; left | by right | by left; right].
Qed.

Lemma InsertAfter_ok m σ this pre post val a w v :
  models m σ → σ !! this = Some (pre ++ post) →
  operator_new m = Some a → copy_ctor (world m) val = (w, Some v) →
  ∃ m', InsertAfter this (Iterator (last_ptr this pre)) val m
        = Ret (Iterator (node_at a)) m'
      ∧ world m' = w
      ∧ models m' (<[this := pre ++ (a, v) :: post]> σ).
Proof.
  intros Hm Hσ Hnew Hcopy.
  destruct (models_list _ _ Hm _ _ Hσ) as (s & Hs & Hc & Hsz).
  destruct (operator_new_fresh _ _ Hnew) as [Hfresh Hra].
  destruct (link_in m σ this s pre post a v w Hm Hσ Hs Hfresh Hra)
    as (m2 & s2 & Hstore & Hs2 & Hw2 & Hm2).
  apply lseg_app_inv in Hc as (q & Hpre & Hpost).
  pose proof (chain_heads _ _ _ Hpost) as ->.
  destruct (pos_load m this s pre _ Hs Hpre) as (n & Hload & Hn).
  exists (mkMem (heap m2)
            (<[this := mkList (head_ s2) (size_incr (size_ s2))]> (objs m2))
            (world m2)).
  split_and!; [|exact Hw2|exact Hm2].
  unfold InsertAfter. simpl.
  rewrite bool_decide_eq_false_2 by apply last_ptr_not_null.
  erewrite bind_Ret by apply assert_true.
  erewrite bind_Ret
    by (eapply new_Node_ok; [done | by apply load_next | done]).
  rewrite Hn.
  erewrite bind_Ret by exact Hstore.
  erewrite bind_Ret by (by apply get_size_ok).
  erewrite bind_Ret by (by apply set_size_ok).
  destruct (models_list _ _ Hm2 this _ (lookup_insert_eq _ _ _))
    as (s3 & Hs3 & Hc3 & _).
  apply lseg_app_inv in Hc3 as (q3 & Hpre3 & Hpost3).
  pose proof (chain_heads _ _ _ Hpost3) as ->.
  destruct (pos_load _ this s3 pre _ Hs3 Hpre3) as (n3 & Hload3 & Hn3).
  erewrite bind_Ret by exact Hload3. by rewrite Hn3.
Qed.

Lemma InsertAfter_bad_alloc m this pre post val :
  is_list m this (pre ++ post) →
  operator_new m = None →
  InsertAfter this (Iterator (last_ptr this pre)) val m = Throw m.
Proof.
  intros (s & Hs & Hc & Hsz) Hnew.
  apply lseg_app_inv in Hc as (q & Hpre & Hpost).
  destruct (pos_load m this s pre _ Hs Hpre) as (n & Hload & Hn).
  unfold InsertAfter. simpl.
  rewrite bool_decide_eq_false_2 by apply last_ptr_not_null.
  erewrite bind_Ret by apply assert_true.
  by erewrite bind_Throw by (by apply new_Node_bad_alloc).
Qed.

Lemma InsertAfter_copy_throws m this pre post val a w :
  is_list m this (pre ++ post) →
  operator_new m = Some a → copy_ctor (world m) val = (w, None) →
  InsertAfter this (Iterator (last_ptr this pre)) val m
  = Throw (mkMem (heap m) (objs m) w).
Proof.
  intros (s & Hs & Hc & Hsz) Hnew Hcopy.
  apply lseg_app_inv in Hc as (q & Hpre & Hpost).
  destruct (pos_load m this s pre _ Hs Hpre) as (n & Hload & Hn).
  unfold InsertAfter. simpl.
  rewrite bool_decide_eq_false_2 by apply last_ptr_not_null.
  erewrite bind_Ret by apply assert_true.
  by erewrite bind_Throw
    by (eapply new_Node_copy_throws; [done | by apply load_next | done]).
Qed.

(** [PushFront] is [InsertAfter] at the sentinel, without the returned
    iterator. *)
Lemma PushFront_as_InsertAfter this val m :
  PushFront this val m
  = (pos <- before_begin this ;; InsertAfter this pos val ;;; ret tt) m.
Proof.
  unfold PushFront, before_begin, InsertAfter, bind, assert, load, new_Node,
    store_next, get_size, set_size, ret. simpl.
  rewrite orb_true_r.
  destruct (operator_new m) as [a|]; [|done].
  destruct (objs m !! this) as [s|] eqn:Hs; [|done].
  destruct (copy_ctor (world m) val) as [w [v|]]; [|done].
  simpl. rewrite Hs. simpl.
  repeat (rewrite lookup_insert_eq; simpl). done.
Qed.

Lemma PushFront_ok m σ this cells val a w v :
  models m σ → σ !! this = Some cells →
  operator_new m = Some a → copy_ctor (world m) val = (w, Some v) →
  ∃ m', PushFront this val m = Ret tt m'
      ∧ world m' = w
      ∧ models m' (<[this := (a, v) :: cells]> σ).
Proof.
  intros Hm Hσ Hnew Hcopy.
  destruct (InsertAfter_ok m σ this [] cells val a w v Hm Hσ Hnew Hcopy)
    as (m' & Hrun & Hw & Hm').
  exists m'. split_and!; [|done|done].
  rewrite PushFront_as_InsertAfter. unfold before_begin.
  unfold bind at 1. unfold ret at 1.
  by erewrite bind_Ret by exact Hrun.
Qed.

(** ** [EraseAfter] and [PopFront] *)

(** The state after the node [x] that follows [pre] was deleted and
    unlinked. *)
Lemma unlink m σ this s pre x vx post :
  models m σ → σ !! this = Some (pre ++ (x, vx) :: post) →
  objs m !! this = Some s →
  let m1 := mkMem (delete x (heap m)) (objs m) (world m) in
  heap m !! x = Some (mkNode vx (first_ptr post))
  ∧ 0 < size_ s < SIZE_MOD
  ∧ (∃ n, load (last_ptr this pre) m = Ret n m ∧ next_node n = node_at x)
  ∧ ∃ m2 s2,
      store_next (last_ptr this pre) (first_ptr post) m1 = Ret tt m2
      ∧ objs m2 !! this = Some s2
      ∧ world m2 = world m
      ∧ models
          (mkMem (heap m2)
             (<[this := mkList (head_ s2) (size_decr (size_ s2))]> (objs m2))
             (world m2))
          (<[this := pre ++ post]> σ).
Proof.
  intros Hm Hσ Hs m1.
  pose proof (models_list _ _ Hm _ _ Hσ) as Hl.
  pose proof (is_list_length _ _ _ Hl (models_range _ _ Hm)) as Hlen.
  destruct Hl as (s' & Hs' & Hc & Hsz). simplify_eq.
  pose proof (chain_NoDup _ _ _ Hc) as Hnd.
  rewrite fmap_app in Hnd. simpl in Hnd.
  apply NoDup_app in Hnd as (Hndpre & Hdisj & Hndpost).
  apply NoDup_cons in Hndpost as [Hxpost Hndpost].
  apply lseg_app_inv in Hc as (q & Hpre & Hpost).
  inversion Hpost as [|? ? nx ? ? Hx Hpost']; subst.
  pose proof (chain_heads _ _ _ Hpost') as ->.
  rewrite length_app in Hlen, Hsz. simpl in Hlen, Hsz.
  split; [done|]. split; [lia|]. split; [by eapply pos_load|].
  assert (Hxpre : x ∉ pre.*1).
  { intros Hin. eapply Hdisj; [done | by left]. }
  assert (Hpre1 : lseg (heap m1) (next_node (head_ s)) pre (node_at x)).
  { eapply lseg_agree; [exact Hpre|]. intros b Hb. simpl.
    rewrite lookup_delete_ne; [done | by intros <-]. }
  assert (Hpost1 : chain (heap m1) (first_ptr post) post).
  { eapply lseg_agree; [exact Hpost'|]. intros b Hb. simpl.
    rewrite lookup_delete_ne; [done | by intros <-]. }
  destruct (pos_store m1 this s pre (node_at x) (first_ptr post) post)
    as (m2 & s2 & Hstore & Hs2 & Hsz2 & Hc2 & Hw2 & Hobjs2 & Hheap2 & Hdom2);
    [done | done | done | done | |].
  { intros b Hb Hb'. eapply Hdisj; [done | by right]. }
  exists m2, s2. split_and!; [done | done | done |].
  eapply models_update; [exact Hm | exact Hσ | | | | |].
  - eexists. simpl. rewrite lookup_insert_eq. split_and!; [done | done |].
    simpl. rewrite Hsz2, Hsz, size_decr_small, length_app; lia.
  - intros l Hne. simpl. rewrite lookup_insert_ne by done. by apply Hobjs2.
  - intros b _ Hb. simpl. rewrite fmap_app in Hb. simpl in Hb.
    apply not_elem_of_app in Hb as [Hb1 Hb2].
    apply not_elem_of_cons in Hb2 as [Hbx Hb2].
    rewrite Hheap2 by done. simpl. by rewrite lookup_delete_ne.
  - intros b. rewrite !fmap_app. simpl.
    rewrite !elem_of_app, elem_of_cons.
    intros [?|?]; left; [by left | by right; right].
  - intros b n Hb. destruct (Hdom2 b (mk_is_Some _ _ Hb)) as [n' Hn'].
    simpl in Hn'. apply lookup_delete_Some in Hn' as [_ Hn'].
    by eapply (models_range _ _ Hm).
Qed.

Lemma EraseAfter_ok m σ this pre x vx post :
  models m σ → σ !! this = Some (pre ++ (x, vx) :: post) →
  ∃ m', EraseAfter this (Iterator (last_ptr this pre)) m
        = Ret (Iterator (first_ptr post)) m'
      ∧ world m' = world m
      ∧ models m' (<[this := pre ++ post]> σ).
Proof.
  intros Hm Hσ.
  destruct (models_list _ _ Hm _ _ Hσ) as (s & Hs & _ & _).
  destruct (unlink m σ this s pre x vx post Hm Hσ Hs)
    as (Hx & _ & (n & Hload & Hn) & m2 & s2 & Hstore & Hs2 & Hw2 & Hm2).
  exists (mkMem (heap m2)
            (<[this := mkList (head_ s2) (size_decr (size_ s2))]> (objs m2))
            (world m2)).
  split_and!; [|exact Hw2|exact Hm2].
  unfold EraseAfter. simpl.
  rewrite bool_decide_eq_false_2 by apply last_ptr_not_null.
  erewrite bind_Ret by apply assert_true.
  erewrite bind_Ret by exact Hload. rewrite Hn.
  erewrite bind_Ret by (by apply load_node). simpl.
  erewrite bind_Ret by (unfold delete_Node; by rewrite Hx).
  erewrite bind_Ret by exact Hstore.
  erewrite bind_Ret by (by apply get_size_ok).
  erewrite bind_Ret by (by apply set_size_ok).
  destruct (models_list _ _ Hm2 this _ (lookup_insert_eq _ _ _))
    as (s3 & Hs3 & Hc3 & _).
  apply lseg_app_inv in Hc3 as (q3 & Hpre3 & Hpost3).
  pose proof (chain_heads _ _ _ Hpost3) as ->.
  destruct (pos_load _ this s3 pre _ Hs3 Hpre3) as (n3 & Hload3 & Hn3).
  erewrite bind_Ret by exact Hload3. by rewrite Hn3.
Qed.

Lemma PopFront_ok m σ this x vx post :
  models m σ → σ !! this = Some ((x, vx) :: post) →
  ∃ m', PopFront this m = Ret tt m'
      ∧ world m' = world m
      ∧ models m' (<[this := post]> σ).
Proof.
  intros Hm Hσ.
  destruct (models_list _ _ Hm _ _ Hσ) as (s & Hs & _ & _).
  destruct (unlink m σ this s [] x vx post Hm Hσ Hs)
    as (Hx & Hsz & (n & Hload & Hn) & m2 & s2 & Hstore & Hs2 & Hw2 & Hm2).
  exists (mkMem (heap m2)
            (<[this := mkList (head_ s2) (size_decr (size_ s2))]> (objs m2))
            (world m2)).
  split_and!; [|exact Hw2|exact Hm2].
  unfold PopFront.
  erewrite bind_Ret by (by apply get_size_ok).
  assert ((size_ s =? 0) = false) as Hnz by (apply Z.eqb_neq; lia).
  rewrite Hnz. simpl.
  erewrite bind_Ret by apply assert_true.
  erewrite bind_Ret by exact Hload. rewrite Hn. simpl.
  erewrite bind_Ret by apply assert_true.
  erewrite bind_Ret by (by apply load_node). simpl.
  erewrite bind_Ret by (unfold delete_Node; by rewrite Hx).
  erewrite bind_Ret by exact Hstore.
  erewrite bind_Ret by (by apply get_size_ok).
  by erewrite set_size_ok.
Qed.

(** On an empty list with assertions compiled out [PopFront] returns at
    its size test. *)
Lemma PopFront_empty_release m this s :
  NDEBUG = true →
  objs m !! this = Some s → size_ s = 0 →
  PopFront this m = Ret tt m.
Proof.
  intros HN Hs Hz. unfold PopFront, bind, get_size, assert, load, ret.
  rewrite Hs, Hz, HN. simpl. by rewrite Hs.
Qed.

(** [InsertAfter] either links in a copy of the value or throws and
    leaves heap and objects as they were. *)
Lemma InsertAfter_spec m σ this pre post val :
  models m σ → σ !! this = Some (pre ++ post) →
  ends_with (InsertAfter this (Iterator (last_ptr this pre)) val m)
    (λ it m', ∃ a v, it = Iterator (node_at a)
                     ∧ operator_new m = Some a
                     ∧ copy_ctor (world m) val = (world m', Some v)
                     ∧ models m' (<[this := pre ++ (a, v) :: post]> σ))
    (λ m', heap m' = heap m ∧ objs m' = objs m ∧ models m' σ).
Proof.
  unfold ends_with.
  intros Hm Hσ. pose proof (models_list _ _ Hm _ _ Hσ) as Hl.
  destruct (operator_new m) as [a|] eqn:Hnew.
  - destruct (copy_ctor (world m) val) as [w [v|]] eqn:Hcopy.
    + destruct (InsertAfter_ok m σ this pre post val a w v Hm Hσ Hnew Hcopy)
        as (m' & -> & Hw & Hm').
      exists a, v. by rewrite Hw.
    + erewrite InsertAfter_copy_throws by done.
      split_and!; [done | done | by apply models_world].
  - erewrite InsertAfter_bad_alloc by done. done.
Qed.

(** The node at a given place of a list. *)
Lemma is_list_cell m l seen x vx rest :
  is_list m l (seen ++ (x, vx) :: rest) →
  heap m !! x = Some (mkNode vx (first_ptr rest)).
Proof.
  intros (s & Hs & Hc & _).
  apply lseg_app_inv in Hc as (q & _ & Hpost).
  inversion Hpost as [|? ? nx ? ? Hx Hpost']; subst.
  by rewrite <- (chain_heads _ _ _ Hpost').
Qed.

Lemma begin_ok m l cells :
  is_list m l cells → begin l m = Ret (Iterator (first_ptr cells)) m.
Proof.
  intros (s & Hs & Hc & _). unfold begin.
  erewrite bind_Ret by (by apply load_head).
  by rewrite (chain_heads _ _ _ Hc).
Qed.

(** ** [Clear], [swap], construction and destruction *)

Lemma Clear_ok cells : ∀ fuel m σ this,
  models m σ → σ !! this = Some cells → (length cells < fuel)%nat →
  ∃ m', Clear fuel this m = Ret tt m'
      ∧ world m' = world m
      ∧ models m' (<[this := []]> σ).
Proof.
  induction cells as [|[x vx] post IH]; intros fuel m σ this Hm Hσ Hfuel;
    (destruct fuel as [|fuel]; [simpl in Hfuel; lia|]); simpl.
  - destruct (models_list _ _ Hm _ _ Hσ) as (s & Hs & Hc & _).
    exists m. erewrite bind_Ret by (by apply load_head).
    rewrite (chain_heads _ _ _ Hc). simpl.
    split_and!; [done | done | by rewrite insert_id].
  - destruct (models_list _ _ Hm _ _ Hσ) as (s & Hs & Hc & _).
    erewrite bind_Ret by (by apply load_head).
    rewrite (chain_heads _ _ _ Hc). simpl.
    destruct (PopFront_ok m σ this x vx post Hm Hσ) as (m1 & Hpop & Hw1 & Hm1).
    erewrite bind_Ret by exact Hpop.
    destruct (IH fuel m1 _ this Hm1 (lookup_insert_eq _ _ _))
      as (m' & Hclear & Hw' & Hm'); [simpl in Hfuel; lia|].
    exists m'. rewrite insert_insert_eq in Hm'.
    split_and!; [done | congruence | done].
Qed.

Lemma init_members_ok m σ this :
  models m σ → objs m !! this = None →
  ∃ m', init_members this m = Ret tt m'
      ∧ world m' = world m ∧ heap m' = heap m
      ∧ models m' (<[this := []]> σ).
Proof.
  intros Hm Hfresh. eexists. split; [reflexivity|].
  split; [done|]. split; [done|].
  pose proof (models_fresh_obj _ _ _ Hm Hfresh) as Hσ.
  split; simpl.
  - by rewrite !dom_insert_L, (models_dom _ _ Hm).
  - intros l c Hl. destruct (decide (l = this)) as [->|Hne].
    + rewrite lookup_insert_eq in Hl. simplify_eq.
      eexists. simpl. rewrite lookup_insert_eq.
      split_and!; [done | constructor | done].
    + rewrite lookup_insert_ne in Hl by done.
      eapply is_list_frame; [by eapply models_list | | done].
      simpl. by rewrite lookup_insert_ne.
  - intros l1 l2 c1 c2 Hne H1 H2.
    destruct (decide (l1 = this)) as [->|Hne1].
    { rewrite lookup_insert_eq in H1. simplify_eq. intros a Ha.
      by apply elem_of_nil in Ha. }
    destruct (decide (l2 = this)) as [->|Hne2].
    { rewrite lookup_insert_eq in H2. simplify_eq. intros a _ Ha.
      by apply elem_of_nil in Ha. }
    rewrite lookup_insert_ne in H1, H2 by done.
    by eapply (models_sep _ _ Hm l1 l2).
  - apply (models_range _ _ Hm).
Qed.

Lemma release_ok m σ this :
  models m σ → models (release this m) (delete this σ).
Proof.
  intros Hm. split; simpl.
  - by rewrite !dom_delete_L, (models_dom _ _ Hm).
  - intros l c [Hne Hl]%lookup_delete_Some.
    eapply is_list_frame; [by eapply models_list | | done].
    simpl. by rewrite lookup_delete_ne.
  - intros l1 l2 c1 c2 Hne [_ H1]%lookup_delete_Some [_ H2]%lookup_delete_Some.
    by eapply (models_sep _ _ Hm l1 l2).
  - apply (models_range _ _ Hm).
Qed.

Lemma destroy_ok m σ this cells fuel :
  models m σ → σ !! this = Some cells → (length cells < fuel)%nat →
  ∃ m', SingleLinkedList_destroy fuel this m = Ret tt m'
      ∧ world m' = world m
      ∧ models m' (delete this σ).
Proof.
  intros Hm Hσ Hfuel.
  destruct (Clear_ok cells fuel m σ this Hm Hσ Hfuel) as (m1 & Hc & Hw & Hm1).
  exists (release this m1). unfold SingleLinkedList_destroy.
  erewrite bind_Ret by exact Hc.
  split_and!; [done | done |].
  apply (release_ok _ _ this) in Hm1. by rewrite delete_insert_eq in Hm1.
Qed.

(** Two distinct lists that exchanged their chains and sizes. *)
Lemma models_swap m m' σ a b ca cb sa sb va vb :
  models m σ → σ !! a = Some ca → σ !! b = Some cb → a ≠ b →
  objs m !! a = Some sa → objs m !! b = Some sb →
  heap m' = heap m →
  objs m' !! a = Some (mkList (mkNode va (next_node (head_ sb))) (size_ sb)) →
  objs m' !! b = Some (mkList (mkNode vb (next_node (head_ sa))) (size_ sa)) →
  (∀ l, l ≠ a → l ≠ b → objs m' !! l = objs m !! l) →
  models m' (<[a := cb]> (<[b := ca]> σ)).
Proof.
  intros Hm Ha Hb Hab Hsa Hsb Hheap Ha' Hb' Hothers.
  destruct (models_list _ _ Hm _ _ Ha) as (sa0 & Hsa0 & Hca & Hza).
  destruct (models_list _ _ Hm _ _ Hb) as (sb0 & Hsb0 & Hcb & Hzb).
  simplify_eq.
  set (π := λ l : positive,
         if decide (l = a) then b else if decide (l = b) then a else l).
  assert (Hπ : ∀ l c, <[a := cb]> (<[b := ca]> σ) !! l = Some c →
                      σ !! π l = Some c).
  { intros l c. unfold π. rewrite !lookup_insert.
    repeat case_decide; intros ?; by simplify_eq. }
  assert (Hinj : ∀ l1 l2, l1 ≠ l2 → π l1 ≠ π l2).
  { intros l1 l2. unfold π. repeat case_decide; congruence. }
  split.
  - apply set_eq. intros l. rewrite !dom_insert_L, !elem_of_union,
      !elem_of_singleton, <- (models_dom _ _ Hm), !elem_of_dom.
    destruct (decide (l = a)) as [->|Hna]; [rewrite Ha'; split; eauto|].
    destruct (decide (l = b)) as [->|Hnb]; [rewrite Hb'; split; eauto|].
    rewrite Hothers by done. split; [by eauto | by intros [?|[?|?]]].
  - intros l c. rewrite !lookup_insert. repeat case_decide; intros Hl;
      simplify_eq.
    + eexists. split_and!; [exact Ha' | by rewrite Hheap | done].
    + eexists. split_and!; [exact Hb' | by rewrite Hheap | done].
    + eapply is_list_frame; [by eapply models_list | by apply Hothers |].
      intros ? _. by rewrite Hheap.
  - intros l1 l2 c1 c2 Hne H1%Hπ H2%Hπ.
    by eapply (models_sep _ _ Hm (π l1) (π l2)); [apply Hinj|..].
  - intros x n. rewrite Hheap. apply (models_range _ _ Hm).
Qed.

Lemma swap_ok m σ a b ca cb :
  models m σ → σ !! a = Some ca → σ !! b = Some cb →
  ∃ m', swap a b m = Ret tt m'
      ∧ world m' = world m ∧ heap m' = heap m
      ∧ models m' (<[a := cb]> (<[b := ca]> σ)).
Proof.
  intros Hm Ha Hb.
  destruct (models_list _ _ Hm _ _ Ha) as (sa & Hsa & Hca & Hza).
  destruct (models_list _ _ Hm _ _ Hb) as (sb & Hsb & Hcb & Hzb).
  destruct (decide (a = b)) as [->|Hab].
  - simplify_eq. rewrite insert_insert_eq.
    eexists. split.
    { unfold swap, bind, load, store_next, get_size, set_size. simpl.
      repeat (first [rewrite lookup_insert_eq | rewrite Hsa]; simpl).
      reflexivity. }
    split; [done|]. split; [done|].
    eapply models_update; [exact Hm | exact Ha | | | done | by left |
                           apply (models_range _ _ Hm)].
    + eexists. simpl. rewrite lookup_insert_eq.
      split_and!; [done | done | done].
    + intros l Hl. simpl. by rewrite !lookup_insert_ne.
  - eexists. split.
    { unfold swap, bind, load, store_next, get_size, set_size. simpl.
      rewrite Hsa, Hsb. simpl.
      repeat (first [ rewrite lookup_insert_eq
                    | rewrite lookup_insert_ne by done
                    | rewrite Hsa | rewrite Hsb ]; simpl).
      reflexivity. }
    split; [done|]. split; [done|].
    eapply (models_swap m _ σ a b ca cb sa sb);
      [done | done | done | done | done | done | done | | |]; simpl.
    + rewrite lookup_insert_ne by done. by rewrite lookup_insert_eq.
    + by rewrite lookup_insert_eq.
    + intros l Hla Hlb. by rewrite !lookup_insert_ne.
Qed.

(** ** Reasoning about outcomes *)

Lemma ends_mono {A} (o : outcome T W A) (Q Q' : A → Mem T W → Prop) E E' :
  ends_with o Q E →
  (∀ a m', Q a m' → Q' a m') → (∀ m', E m' → E' m') →
  ends_with o Q' E'.
Proof. destruct o; simpl; eauto. Qed.

Lemma ends_bind {A B} (c : M A) (k : A → M B) m Q1 E1 Q E :
  ends_with (c m) Q1 E1 →
  (∀ m', E1 m' → E m') →
  (∀ a m', Q1 a m' → ends_with (k a m') Q E) →
  ends_with (bind c k m) Q E.
Proof. unfold bind. destruct (c m); simpl; eauto. Qed.

Lemma ends_finally {A} (c : M A) (d : M unit) m Q1 E1 Q E :
  ends_with (c m) Q1 E1 →
  (∀ a m1, Q1 a m1 → ∃ m2, d m1 = Ret tt m2 ∧ Q a m2) →
  (∀ m1, E1 m1 → ∃ m2, d m1 = Ret tt m2 ∧ E m2) →
  ends_with (finally c d m) Q E.
Proof.
  unfold finally. destruct (c m) as [a m1|m1| | |]; simpl; try done.
  - intros H HQ _. destruct (HQ _ _ H) as (m2 & -> & ?). done.
  - intros H _ HE. destruct (HE _ H) as (m2 & -> & ?). done.
Qed.

Lemma ends_on_throw {A} (c : M A) (d : Mem T W → Mem T W) m Q E1 E :
  ends_with (c m) Q E1 → (∀ m1, E1 m1 → E (d m1)) → ends_with (on_throw c d m) Q E.
Proof. unfold on_throw. destruct (c m); simpl; eauto. Qed.

Lemma ends_Ret {A} (c : M A) m a m' (Q : A → Mem T W → Prop) E :
  c m = Ret a m' → Q a m' → ends_with (c m) Q E.
Proof. by intros ->. Qed.

(** ** The loops of [InsetAfterListItems] *)

Lemma InsetAfterListItems_loop_spec values : ∀ m σ tmp done,
  models m σ → σ !! tmp = Some done →
  ends_with (InsetAfterListItems_loop tmp (Iterator (last_ptr tmp done)) values m)
    (λ _ m', ∃ new, models m' (<[tmp := done ++ new]> σ)
                    ∧ copies values new.*2)
    (λ m', ∃ c, models m' (<[tmp := c]> σ)
                ∧ (length c ≤ length done + length values)%nat).
Proof.
  induction values as [|v0 values IH]; intros m σ tmp done Hm Hσ; simpl.
  - exists []. rewrite app_nil_r, insert_id by done. split; [done | constructor].
  - eapply ends_bind.
    { apply (InsertAfter_spec m σ tmp done [] v0 Hm).
      by rewrite app_nil_r. }
    { simpl. intros m' (_ & _ & Hm'). exists done. rewrite insert_id by done.
      split; [done | lia]. }
    simpl. intros it m1 (a & v & -> & _ & Hcopy & Hm1).
    rewrite <- (last_ptr_snoc tmp done a v).
    eapply ends_mono; [apply (IH m1 _ tmp _ Hm1 (lookup_insert_eq _ _ _))| |];
      simpl.
    + intros _ m' (new & Hm' & Hcp). exists ((a, v) :: new).
      rewrite insert_insert_eq, <- app_assoc in Hm'.
      split; [done | by econstructor].
    + intros m' (c & Hm' & Hlen). exists c.
      rewrite insert_insert_eq in Hm'. rewrite length_app in Hlen.
      simpl in Hlen. split; [done | lia].
Qed.

Lemma InsetAfterListItems_list_loop_spec rest :
  ∀ fuel m σ tmp done container seen,
  models m σ → σ !! tmp = Some done →
  σ !! container = Some (seen ++ rest) → container ≠ tmp →
  (length rest < fuel)%nat →
  ends_with (InsetAfterListItems_list_loop fuel tmp
          (Iterator (last_ptr tmp done)) container
          (Iterator (first_ptr rest)) m)
    (λ _ m', ∃ new, models m' (<[tmp := done ++ new]> σ)
                    ∧ copies rest.*2 new.*2)
    (λ m', ∃ c, models m' (<[tmp := c]> σ)
                ∧ (length c ≤ length done + length rest)%nat).
Proof.
  induction rest as [|[x vx] rest IH];
    intros fuel m σ tmp done container seen Hm Hσ Hcont Hne Hfuel;
    (destruct fuel as [|fuel]; [simpl in Hfuel; lia|]); simpl.
  - exists []. rewrite app_nil_r, insert_id by done. split; [done | constructor].
  - pose proof (is_list_cell _ _ _ _ _ _ (models_list _ _ Hm _ _ Hcont)) as Hx.
    unfold end_, operator_deref. simpl.
    erewrite (bind_Ret (ret _)) by reflexivity. simpl.
    erewrite (bind_Ret (bind _ _)) by (by erewrite bind_Ret by (by apply load_node)).
    simpl.
    eapply ends_bind.
    { apply (InsertAfter_spec m σ tmp done [] vx Hm).
      by rewrite app_nil_r. }
    { simpl. intros m' (_ & _ & Hm'). exists done. rewrite insert_id by done.
      split; [done | lia]. }
    simpl. intros it m1 (a & v & -> & _ & Hcopy & Hm1).
    assert (Hcont1 : <[tmp := done ++ [(a, v)]]> σ !! container
                     = Some ((seen ++ [(x, vx)]) ++ rest)).
    { rewrite lookup_insert_ne by done. by rewrite <- app_assoc. }
    pose proof (models_list _ _ Hm1 _ _ Hcont1) as Hl1.
    rewrite <- app_assoc in Hl1. apply is_list_cell in Hl1.
    erewrite (bind_Ret (operator_incr_post _))
      by (unfold operator_incr_post, operator_incr; simpl;
          erewrite (bind_Ret (bind _ _))
            by (by erewrite bind_Ret by (by apply load_node));
          reflexivity).
    simpl. rewrite <- (last_ptr_snoc tmp done a v).
    eapply ends_mono;
      [apply (IH fuel m1 _ tmp _ container _ Hm1 (lookup_insert_eq _ _ _)
                 Hcont1 Hne); simpl in Hfuel; lia | |]; simpl.
    + intros _ m' (new & Hm' & Hcp). exists ((a, v) :: new).
      rewrite insert_insert_eq, <- app_assoc in Hm'.
      split; [done | by econstructor].
    + intros m' (c & Hm' & Hlen). exists c.
      rewrite insert_insert_eq in Hm'. rewrite length_app in Hlen.
      simpl in Hlen. split; [done | lia].
Qed.

Lemma InsetAfterListItems_spec values m σ tmp :
  models m σ → σ !! tmp = Some [] →
  ends_with (InsetAfterListItems tmp values m)
    (λ _ m', ∃ new, models m' (<[tmp := new]> σ) ∧ copies values new.*2)
    (λ m', ∃ c, models m' (<[tmp := c]> σ)
                ∧ (length c ≤ length values)%nat).
Proof.
  intros Hm Hσ. unfold InsetAfterListItems, cbefore_begin, bind, ret.
  apply (InsetAfterListItems_loop_spec values m σ tmp [] Hm Hσ).
Qed.

Lemma InsetAfterListItems_list_spec fuel m σ tmp container co :
  models m σ → σ !! tmp = Some [] →
  σ !! container = Some co → container ≠ tmp →
  (length co < fuel)%nat →
  ends_with (InsetAfterListItems_list fuel tmp container m)
    (λ _ m', ∃ new, models m' (<[tmp := new]> σ) ∧ copies co.*2 new.*2)
    (λ m', ∃ c, models m' (<[tmp := c]> σ)
                ∧ (length c ≤ length co)%nat).
Proof.
  intros Hm Hσ Hco Hne Hfuel.
  unfold InsetAfterListItems_list, cbefore_begin.
  unfold bind at 1. unfold ret at 1.
  erewrite bind_Ret by (eapply begin_ok, (models_list _ _ Hm), Hco).
  by apply (InsetAfterListItems_list_loop_spec co fuel m σ tmp [] container []
              Hm Hσ).
Qed.

(** ** Automatic objects, constructors and assignment *)

Lemma with_tmp_spec {A} fuel (body : positive → M A) m σ
    (Q : A → gmap positive (list (Z * T)) → Prop)
    (E : gmap positive (list (Z * T)) → Prop) :
  models m σ →
  (∀ tmp m0, σ !! tmp = None → models m0 (<[tmp := []]> σ) →
     ends_with (body tmp m0)
       (λ a m1, ∃ σ1 c, models m1 σ1 ∧ σ1 !! tmp = Some c
                        ∧ (length c < fuel)%nat ∧ Q a (delete tmp σ1))
       (λ m1, ∃ σ1 c, models m1 σ1 ∧ σ1 !! tmp = Some c
                      ∧ (length c < fuel)%nat ∧ E (delete tmp σ1))) →
  ends_with (with_tmp fuel body m)
    (λ a m', ∃ σ', models m' σ' ∧ Q a σ')
    (λ m', ∃ σ', models m' σ' ∧ E σ').
Proof.
  intros Hm Hbody. unfold with_tmp, SingleLinkedList_default.
  pose proof (fresh_obj_fresh m) as Hfresh.
  destruct (init_members_ok m σ _ Hm Hfresh) as (m0 & Hinit & _ & _ & Hm0).
  erewrite bind_Ret by exact Hinit.
  eapply ends_finally.
  - apply Hbody; [by eapply models_fresh_obj | done].
  - simpl. intros a m1 (σ1 & c & Hm1 & Hc & Hlen & HQ).
    destruct (destroy_ok m1 σ1 _ c fuel Hm1 Hc Hlen) as (m2 & -> & _ & Hm2).
    eauto.
  - simpl. intros m1 (σ1 & c & Hm1 & Hc & Hlen & HE).
    destruct (destroy_ok m1 σ1 _ c fuel Hm1 Hc Hlen) as (m2 & -> & _ & Hm2).
    eauto.
Qed.

Lemma SingleLinkedList_init_spec fuel m σ this values :
  models m σ → objs m !! this = None → (length values < fuel)%nat →
  ends_with (SingleLinkedList_init fuel this values m)
    (λ _ m', ∃ c, models m' (<[this := c]> σ) ∧ copies values c.*2)
    (λ m', models m' σ).
Proof.
  intros Hm Hthis Hfuel. unfold SingleLinkedList_init.
  pose proof (models_fresh_obj _ _ _ Hm Hthis) as Hσ.
  destruct (init_members_ok m σ this Hm Hthis) as (m0 & Hinit & _ & _ & Hm0).
  erewrite bind_Ret by exact Hinit.
  eapply ends_on_throw with
    (E1 := λ m', ∃ σ', models m' σ' ∧ σ' = <[this := []]> σ).
  2:{ simpl. intros m1 (σ' & Hm1 & ->).
      apply (release_ok _ _ this) in Hm1.
      by rewrite delete_insert_id in Hm1. }
  eapply ends_mono;
    [apply (with_tmp_spec fuel _ m0 _
              (λ _ σ', ∃ c, σ' = <[this := c]> σ ∧ copies values c.*2)
              (λ σ', σ' = <[this := []]> σ) Hm0) | |]; simpl.
  2:{ intros _ m' (σ' & Hm' & c & -> & Hc). eauto. }
  2:{ intros m' (σ' & Hm' & ->). eauto. }
  intros tmp m1 Htmp Hm1.
  assert (tmp ≠ this) as Hne by (intros ->; by rewrite lookup_insert_eq in Htmp).
  rewrite lookup_insert_ne in Htmp by done.
  eapply ends_bind.
  - apply (InsetAfterListItems_spec values m1 _ tmp Hm1).
    by rewrite lookup_insert_eq.
  - simpl. intros m2 (c & Hm2 & Hlen). rewrite insert_insert_eq in Hm2.
    exists (<[tmp := c]> (<[this := []]> σ)), c.
    split_and!; [done | by rewrite lookup_insert_eq | lia |].
    by rewrite delete_insert_id by (by rewrite lookup_insert_ne).
  - simpl. intros _ m2 (new & Hm2 & Hcp). rewrite insert_insert_eq in Hm2.
    destruct (swap_ok m2 _ this tmp [] new Hm2) as (m3 & Hswap & _ & _ & Hm3).
    { rewrite lookup_insert_ne by done. by rewrite lookup_insert_eq. }
    { by rewrite lookup_insert_eq. }
    eapply ends_Ret; [exact Hswap|].
    eexists _, []. split_and!; [exact Hm3 | | simpl; lia |].
    + rewrite lookup_insert_ne by done. by rewrite lookup_insert_eq.
    + exists new. split; [|done]. map_solve.
Qed.

Lemma SingleLinkedList_copy_spec fuel m σ this other co :
  models m σ → objs m !! this = None → σ !! other = Some co →
  (length co < fuel)%nat →
  ends_with (SingleLinkedList_copy fuel this other m)
    (λ _ m', ∃ c, models m' (<[this := c]> σ) ∧ copies co.*2 c.*2)
    (λ m', models m' σ).
Proof.
  intros Hm Hthis Hother Hfuel. unfold SingleLinkedList_copy.
  pose proof (models_fresh_obj _ _ _ Hm Hthis) as Hσ.
  assert (other ≠ this) as Hot by (intros ->; congruence).
  destruct (init_members_ok m σ this Hm Hthis) as (m0 & Hinit & _ & _ & Hm0).
  erewrite bind_Ret by exact Hinit.
  eapply ends_on_throw with
    (E1 := λ m', ∃ σ', models m' σ' ∧ σ' = <[this := []]> σ).
  2:{ simpl. intros m1 (σ' & Hm1 & ->).
      apply (release_ok _ _ this) in Hm1.
      by rewrite delete_insert_id in Hm1. }
  destruct (models_list _ _ Hm0 this [] (lookup_insert_eq _ _ _))
    as (s0 & Hs0 & Hc0 & Hz0).
  erewrite bind_Ret by (by apply get_size_ok).
  erewrite bind_Ret by (by apply load_head).
  rewrite Hz0, (chain_heads _ _ _ Hc0). simpl.
  erewrite bind_Ret by apply assert_true.
  eapply ends_mono;
    [apply (with_tmp_spec fuel _ m0 _
              (λ _ σ', ∃ c, σ' = <[this := c]> σ ∧ copies co.*2 c.*2)
              (λ σ', σ' = <[this := []]> σ) Hm0) | |]; simpl.
  2:{ intros _ m' (σ' & Hm' & c & -> & Hc). eauto. }
  2:{ intros m' (σ' & Hm' & ->). eauto. }
  intros tmp m1 Htmp Hm1.
  assert (tmp ≠ this) as Hne by (intros ->; by rewrite lookup_insert_eq in Htmp).
  rewrite lookup_insert_ne in Htmp by done.
  assert (other ≠ tmp) as Hne' by (intros ->; congruence).
  eapply ends_bind.
  - apply (InsetAfterListItems_list_spec fuel m1 _ tmp other co Hm1);
      [by rewrite lookup_insert_eq | by rewrite !lookup_insert_ne | done
      | done].
  - simpl. intros m2 (c & Hm2 & Hlen). rewrite insert_insert_eq in Hm2.
    exists (<[tmp := c]> (<[this := []]> σ)), c.
    split_and!; [done | by rewrite lookup_insert_eq | lia |].
    by rewrite delete_insert_id by (by rewrite lookup_insert_ne).
  - simpl. intros _ m2 (new & Hm2 & Hcp). rewrite insert_insert_eq in Hm2.
    destruct (swap_ok m2 _ this tmp [] new Hm2) as (m3 & Hswap & _ & _ & Hm3).
    { rewrite lookup_insert_ne by done. by rewrite lookup_insert_eq. }
    { by rewrite lookup_insert_eq. }
    eapply ends_Ret; [exact Hswap|].
    eexists _, []. split_and!; [exact Hm3 | | simpl; lia |].
    + rewrite lookup_insert_ne by done. by rewrite lookup_insert_eq.
    + exists new. split; [|done]. map_solve.
Qed.

Lemma operator_assign_spec fuel m σ this rhs ca cb :
  models m σ → σ !! this = Some ca → σ !! rhs = Some cb → this ≠ rhs →
  (length ca < fuel)%nat → (length cb < fuel)%nat →
  ends_with (operator_assign fuel this rhs m)
    (λ _ m', ∃ c, models m' (<[this := c]> σ) ∧ copies cb.*2 c.*2)
    (λ m', models m' σ).
Proof.
  intros Hm Hthis Hrhs Hne Hfa Hfb. unfold operator_assign.
  rewrite bool_decide_eq_false_2 by done.
  pose proof (fresh_obj_fresh m) as Hfresh.
  pose proof (models_fresh_obj _ _ _ Hm Hfresh) as Htmp.
  set (tmp := fresh_obj m) in *.
  assert (tmp ≠ this) as Hne1 by (intros Heq; rewrite Heq in Htmp; congruence).
  eapply ends_bind.
  - by apply (SingleLinkedList_copy_spec fuel m σ tmp rhs cb Hm Hfresh Hrhs).
  - done.
  - simpl. intros _ m1 (c & Hm1 & Hcp).
    eapply ends_finally with
      (Q1 := λ _ m', models m' (<[this := c]> (<[tmp := ca]> (<[tmp := c]> σ))))
      (E1 := λ _, False).
    + destruct (swap_ok m1 _ this tmp ca c Hm1) as (m2 & Hswap & _ & _ & Hm2).
      { by rewrite lookup_insert_ne. }
      { by rewrite lookup_insert_eq. }
      eapply ends_Ret; [exact Hswap | done].
    + simpl. intros _ m2 Hm2.
      destruct (destroy_ok m2 _ tmp ca fuel Hm2) as (m3 & Hd & _ & Hm3);
        [|done|].
      { rewrite lookup_insert_ne by done. by rewrite lookup_insert_eq. }
      exists m3. split; [done|]. exists c. split; [|done].
      replace (<[this := c]> σ)
        with (delete tmp (<[this := c]> (<[tmp := ca]> (<[tmp := c]> σ))));
        [done|]. map_solve.
    + done.
Qed.

Lemma operator_assign_self fuel this m : operator_assign fuel this this m = Ret tt m.
Proof. unfold operator_assign. by rewrite bool_decide_eq_true_2. Qed.

(** ** Comparison operators *)

Lemma std_equal_spec c1 : ∀ fuel m p1 p2 c2,
  chain (heap m) p1 c1 → chain (heap m) p2 c2 → (length c1 < fuel)%nat →
  std_equal fuel (Iterator p1) (Iterator nullptr) (Iterator p2) m
  = match equal_prefix c1.*2 c2.*2 with
    | Some b => Ret b m
    | None => UB
    end.
Proof.
  induction c1 as [|[x vx] c1 IH]; intros fuel m p1 p2 c2 H1 H2 Hfuel;
    (destruct fuel as [|fuel]; [simpl in Hfuel; lia|]).
  - inversion H1; subst. done.
  - inversion H1 as [|? ? nx ? ? Hx H1']; subst. simpl.
    unfold operator_deref, operator_incr. simpl.
    erewrite (bind_Ret (bind _ _)) by (by erewrite bind_Ret by (by apply load_node)).
    destruct c2 as [|[y vy] c2].
    + inversion H2; subst. done.
    + inversion H2 as [|? ? ny ? ? Hy H2']; subst. simpl.
      erewrite (bind_Ret (bind _ _)) by (by erewrite bind_Ret by (by apply load_node)).
      simpl. destruct (eqT vx vy); simpl; [|reflexivity].
      erewrite (bind_Ret (bind _ _)) by (by erewrite bind_Ret by (by apply load_node)).
      erewrite (bind_Ret (bind _ _)) by (by erewrite bind_Ret by (by apply load_node)).
      simpl. apply IH; [done | done | simpl in Hfuel; lia].
Qed.

Lemma operator_eq_spec fuel m lhs rhs c1 c2 :
  is_list m lhs c1 → is_list m rhs c2 → (length c1 < fuel)%nat →
  operator_eq fuel lhs rhs m
  = match equal_prefix c1.*2 c2.*2 with
    | Some b => Ret b m
    | None => UB
    end.
Proof.
  intros H1 H2 Hfuel. unfold operator_eq, end_.
  erewrite bind_Ret by (by eapply begin_ok).
  erewrite bind_Ret by reflexivity.
  erewrite bind_Ret by (by eapply begin_ok).
  destruct H1 as (s1 & _ & Hc1 & _), H2 as (s2 & _ & Hc2 & _).
  apply std_equal_spec; [|  | done].
  - by rewrite <- (chain_heads _ _ _ Hc1).
  - by rewrite <- (chain_heads _ _ _ Hc2).
Qed.

(** On sequences of one length [std::equal] decides element-wise
    equality. *)
Lemma equal_prefix_same_length xs : ∀ ys,
  length xs = length ys →
  ∃ b, equal_prefix xs ys = Some b ∧ (b = true ↔ seq_equal xs ys).
Proof.
  unfold seq_equal.
  induction xs as [|x xs IH]; intros [|y ys] Hlen; simpl in *; try lia.
  - exists true. split; [done|]. split; [constructor | done].
  - destruct (eqT x y) eqn:Hxy.
    + destruct (IH ys) as (b & -> & Hb); [lia|]. exists b. split; [done|].
      rewrite Hb. split; [by constructor|]. by inversion 1.
    + exists false. split; [done|]. split; [done|].
      inversion 1; congruence.
Qed.

Lemma std_lexicographical_compare_spec c1 : ∀ fuel m p1 p2 c2,
  chain (heap m) p1 c1 → chain (heap m) p2 c2 → (length c1 < fuel)%nat →
  std_lexicographical_compare fuel (Iterator p1) (Iterator nullptr)
    (Iterator p2) (Iterator nullptr) m
  = Ret (lex_ltb c1.*2 c2.*2) m.
Proof.
  induction c1 as [|[x vx] c1 IH]; intros fuel m p1 p2 c2 H1 H2 Hfuel;
    (destruct fuel as [|fuel]; [simpl in Hfuel; lia|]).
  - inversion H1; subst. inversion H2; subst; done.
  - inversion H1 as [|? ? nx ? ? Hx H1']; subst.
    destruct c2 as [|[y vy] c2].
    + inversion H2; subst. done.
    + inversion H2 as [|? ? ny ? ? Hy H2']; subst. simpl.
      unfold operator_deref, operator_incr. simpl.
      erewrite (bind_Ret (bind _ _)) by (by erewrite bind_Ret by (by apply load_node)).
      erewrite (bind_Ret (bind _ _)) by (by erewrite bind_Ret by (by apply load_node)).
      simpl. destruct (ltT vx vy); [reflexivity|].
      destruct (ltT vy vx); [reflexivity|].
      erewrite (bind_Ret (bind _ _)) by (by erewrite bind_Ret by (by apply load_node)).
      erewrite (bind_Ret (bind _ _)) by (by erewrite bind_Ret by (by apply load_node)).
      simpl. apply IH; [done | done | simpl in Hfuel; lia].
Qed.

Lemma operator_lt_spec fuel m lhs rhs c1 c2 :
  is_list m lhs c1 → is_list m rhs c2 → (length c1 < fuel)%nat →
  operator_lt fuel lhs rhs m = Ret (lex_ltb c1.*2 c2.*2) m.
Proof.
  intros H1 H2 Hfuel. unfold operator_lt, end_.
  erewrite bind_Ret by (by eapply begin_ok).
  erewrite bind_Ret by reflexivity.
  erewrite bind_Ret by (by eapply begin_ok).
  erewrite bind_Ret by reflexivity.
  destruct H1 as (s1 & _ & Hc1 & _), H2 as (s2 & _ & Hc2 & _).
  apply std_lexicographical_compare_spec; [|  | done].
  - by rewrite <- (chain_heads _ _ _ Hc1).
  - by rewrite <- (chain_heads _ _ _ Hc2).
Qed.

Lemma lex_ltb_iff xs : ∀ ys, lex_ltb xs ys = true ↔ lex_lt xs ys.
Proof.
  induction xs as [|x xs IH]; intros [|y ys]; simpl.
  - split; [done | inversion 1].
  - split; [constructor | done].
  - split; [done | inversion 1].
  - destruct (ltT x y) eqn:Hxy.
    { split; [by constructor | done]. }
    destruct (ltT y x) eqn:Hyx.
    { split; [done | inversion 1; congruence]. }
    rewrite IH. split; [by constructor | inversion 1; [congruence | done]].
Qed.

(** ** The invariant, spelled out *)

Lemma models_is_list m σ l c : models m σ → is_list m l c → σ !! l = Some c.
Proof.
  intros Hm Hl.
  assert (l ∈ dom σ) as [c' Hc']%elem_of_dom.
  { rewrite <- (models_dom _ _ Hm). apply elem_of_dom.
    destruct Hl as (s & -> & _). eauto. }
  by rewrite (is_list_det _ _ _ _ Hl (models_list _ _ Hm _ _ Hc')).
Qed.

(** In a memory that satisfies the invariant every live list object has a
    finite, repetition-free walk from its sentinel to null, and [size_] is
    the number of nodes on it. *)
Lemma mem_inv_list m l s :
  mem_inv m → objs m !! l = Some s →
  ∃ cells, chain (heap m) (next_node (head_ s)) cells
           ∧ NoDup cells.*1
           ∧ size_ s = Z.of_nat (length cells).
Proof.
  intros [σ Hm] Hs.
  assert (l ∈ dom σ) as [c Hc]%elem_of_dom.
  { rewrite <- (models_dom _ _ Hm). apply elem_of_dom. eauto. }
  destruct (models_list _ _ Hm _ _ Hc) as (s' & Hs' & Hch & Hsz). simplify_eq.
  exists c. split_and!; [done | by eapply chain_NoDup | done].
Qed.

Lemma keeps_inv_intro {A} (o : outcome T W A) (Q : A → Mem T W → Prop) E :
  ends_with o Q E →
  (∀ a m', Q a m' → mem_inv m') → (∀ m', E m' → mem_inv m') →
  keeps_inv o.
Proof. intros. by eapply ends_mono. Qed.

Lemma copies_faithful xs ys :
  (∀ w v w' v', copy_ctor w v = (w', Some v') → v' = v) →
  copies xs ys → ys = xs.
Proof.
  intros Hfaith. induction 1 as [|w v w' v' vs vs' Hc _ IH]; [done|].
  by rewrite (Hfaith _ _ _ _ Hc), IH.
Qed.

(** [!=] is the negation of [==]. *)
Lemma operator_ne_spec fuel m lhs rhs r :
  operator_eq fuel lhs rhs m = Ret r m →
  operator_ne fuel lhs rhs m = Ret (negb r) m.
Proof.
  intros H. unfold operator_ne. erewrite bind_Ret by exact H. by destruct r.
Qed.

(** ** The computed invariant is sound *)

Lemma walk_sound fuel : ∀ h p l, walk fuel h p = Some l → chain h p l.
Proof.
  induction fuel as [|fuel IH]; intros h p l; simpl; [done|].
  destruct p as [| |a]; [|done|].
  - intros [= <-]. constructor.
  - destruct (h !! a) as [[v nx]|] eqn:Ha; [|done]. simpl.
    destruct (walk fuel h nx) as [l'|] eqn:Hw; [|done]. simpl.
    intros [= <-]. econstructor; [done | by apply IH].
Qed.

Lemma abstraction_lookup m l c :
  abstraction m !! l = Some c ↔
  ∃ s, objs m !! l = Some s ∧ cells_of m s = Some c.
Proof.
  unfold abstraction. rewrite lookup_omap. apply bind_Some.
Qed.

Lemma mem_inv_check_sound m :
  mem_inv_check m = true → models m (abstraction m).
Proof.
  unfold mem_inv_check.
  intros [[H1 H2]%andb_true_iff H3]%andb_true_iff.
  rewrite forallb_forall in H1, H2, H3.
  assert (Hobj : ∀ l s, objs m !! l = Some s →
            ∃ c, cells_of m s = Some c ∧ size_ s = Z.of_nat (length c)).
  { intros l s Hs. specialize (H1 (l, s)). simpl in H1.
    destruct (cells_of m s) as [c|].
    - exists c. split; [done|]. apply Z.eqb_eq, H1.
      by apply list_elem_of_In, elem_of_map_to_list.
    - discriminate H1. by apply list_elem_of_In, elem_of_map_to_list. }
  split.
  - apply set_eq. intros l. rewrite !elem_of_dom. split.
    + intros [s Hs]. destruct (Hobj l s Hs) as (c & Hc & _).
      exists c. apply abstraction_lookup. eauto.
    + intros [c (s & Hs & _)%abstraction_lookup]. eauto.
  - intros l c (s & Hs & Hc)%abstraction_lookup.
    destruct (Hobj l s Hs) as (c' & Hc' & Hsz). simplify_eq.
    exists s. split_and!; [done | by eapply walk_sound | done].
  - intros l1 l2 c1 c2 Hne Hl1 Hl2.
    specialize (H2 (l1, c1)). rewrite forallb_forall in H2.
    specialize (H2 ltac:(by apply list_elem_of_In, elem_of_map_to_list)
                   (l2, c2)
                   ltac:(by apply list_elem_of_In, elem_of_map_to_list)).
    simpl in H2. apply orb_true_iff in H2 as [H2|H2].
    + by apply bool_decide_eq_true in H2.
    + apply bool_decide_eq_true in H2. rewrite Forall_forall in H2.
      intros a Ha. by apply H2.
  - intros a n Ha. specialize (H3 (a, n)). simpl in H3.
    apply andb_true_iff in H3 as [?%Z.ltb_lt ?%Z.ltb_lt]; [done|].
    by apply list_elem_of_In, elem_of_map_to_list.
Qed.

Lemma checked_is_list m l c :
  mem_inv_check m = true → abstraction m !! l = Some c → is_list m l c.
Proof.
  intros Hck Hl. eapply models_list; [by apply mem_inv_check_sound | done].
Qed.

(** ** What each step does to the set of allocated nodes *)

Lemma assert_Ret_inv c m u m' : assert c m = Ret u m' → m' = m.
Proof. unfold assert. case_match; [by intros [= _ <-] | done]. Qed.

Lemma load_Ret_inv p m n m' : load p m = Ret n m' → m' = m.
Proof. unfold load. repeat case_match; try done; by intros [= _ <-]. Qed.

Lemma get_size_Ret_inv this m z m' : get_size this m = Ret z m' → m' = m.
Proof. unfold get_size. case_match; [by intros [= _ <-] | done]. Qed.

Lemma set_size_Ret_inv this z m u m' :
  set_size this z m = Ret u m' → heap m' = heap m.
Proof. unfold set_size. case_match; [by intros [= _ <-] | done]. Qed.

Lemma store_next_Ret_inv p q m u m' :
  store_next p q m = Ret u m' →
  ∀ b, is_Some (heap m' !! b) ↔ is_Some (heap m !! b).
Proof.
  unfold store_next. repeat case_match; try done; intros [= _ <-] b; [done|].
  simpl. destruct (decide (b = a)) as [->|Hne].
  - rewrite lookup_insert_eq. split; eauto.
  - by rewrite lookup_insert_ne.
Qed.

Lemma load_next_Ret_inv p m nx m' :
  (b <- load p ;; ret (next_node b)) m = Ret nx m' → m' = m.
Proof.
  unfold bind. destruct (load p m) as [n m1| | | |] eqn:E; try done.
  apply load_Ret_inv in E as ->. by intros [= _ <-].
Qed.

Lemma new_Node_Ret_inv val next m p m' :
  new_Node val next m = Ret p m' →
  ∃ a v nx m1, operator_new m = Some a ∧ next m = Ret nx m1
               ∧ heap m' = <[a := mkNode v nx]> (heap m1).
Proof.
  unfold new_Node. destruct (operator_new m) as [a|]; [|done].
  destruct (next m) as [nx m1| | | |]; try done.
  destruct (copy_ctor (world m1) val) as [w [v|]]; [|done].
  intros [= _ <-]. by exists a, v, nx, m1.
Qed.

Lemma delete_Node_Ret_inv x m u m' :
  delete_Node (node_at x) m = Ret u m' → heap m' = delete x (heap m).
Proof. unfold delete_Node. case_match; [by intros [= _ <-] | done]. Qed.

Ltac bind_inv H c :=
  unfold bind in H at 1;
  let E := fresh "E" in
  destruct c eqn:E; try discriminate H.

Lemma InsertAfter_Ret_heap this pos val m it m' :
  InsertAfter this pos val m = Ret it m' →
  ∀ b, is_Some (heap m' !! b) →
       operator_new m = Some b ∨ is_Some (heap m !! b).
Proof.
  unfold InsertAfter. intros H.
  bind_inv H (assert (negb (bool_decide (node_ pos = nullptr))) m).
  apply assert_Ret_inv in E as ->.
  match type of H with
  | bind ?c _ ?m0 = _ => bind_inv H (c m0)
  end.
  apply new_Node_Ret_inv in E as (anew & vnew & nx & m1 & Hnew & Hnx & Hh1).
  apply load_next_Ret_inv in Hnx as ->.
  match type of H with
  | bind ?c _ ?m0 = _ => bind_inv H (c m0)
  end.
  pose proof (store_next_Ret_inv _ _ _ _ _ E) as Hh2.
  match type of H with
  | bind ?c _ ?m0 = _ => bind_inv H (c m0)
  end.
  apply get_size_Ret_inv in E0 as ->.
  match type of H with
  | bind ?c _ ?m0 = _ => bind_inv H (c m0)
  end.
  apply set_size_Ret_inv in E0 as Hh3.
  match type of H with
  | bind ?c _ ?m0 = _ => bind_inv H (c m0)
  end.
  apply load_Ret_inv in E1 as ->. injection H as _ <-.
  intros b. rewrite Hh3, Hh2, Hh1.
  destruct (decide (b = anew)) as [->|Hne]; [by left|].
  rewrite lookup_insert_ne by done. by right.
Qed.

Lemma EraseAfter_Ret_heap this pos m it m' :
  EraseAfter this pos m = Ret it m' →
  ∃ n x, load (node_ pos) m = Ret n m ∧ next_node n = node_at x
         ∧ ∀ b, is_Some (heap m' !! b) ↔ b ≠ x ∧ is_Some (heap m !! b).
Proof.
  unfold EraseAfter. intros H.
  bind_inv H (assert (negb (bool_decide (node_ pos = nullptr))) m).
  apply assert_Ret_inv in E as ->.
  bind_inv H (load (node_ pos) m).
  pose proof (load_Ret_inv _ _ _ _ E) as ->.
  match type of H with
  | bind ?c _ ?m0 = _ => bind_inv H (c m0)
  end.
  pose proof (load_Ret_inv _ _ _ _ E0) as ->.
  destruct (next_node a0) as [| |x] eqn:Hnx; [done | | ].
  { unfold bind, delete_Node in H. done. }
  match type of H with
  | bind ?c _ ?m0 = _ => bind_inv H (c m0)
  end.
  apply delete_Node_Ret_inv in E1 as Hh1.
  match type of H with
  | bind ?c _ ?m0 = _ => bind_inv H (c m0)
  end.
  pose proof (store_next_Ret_inv _ _ _ _ _ E2) as Hh2.
  match type of H with
  | bind ?c _ ?m0 = _ => bind_inv H (c m0)
  end.
  apply get_size_Ret_inv in E3 as ->.
  match type of H with
  | bind ?c _ ?m0 = _ => bind_inv H (c m0)
  end.
  apply set_size_Ret_inv in E3 as Hh3.
  match type of H with
  | bind ?c _ ?m0 = _ => bind_inv H (c m0)
  end.
  apply load_Ret_inv in E4 as ->. injection H as _ <-.
  exists a0, x. split_and!; [done | done |].
  intros b. rewrite Hh3, Hh2, Hh1.
  destruct (decide (b = x)) as [->|Hne].
  - rewrite lookup_delete_eq. split; [by intros [? ?] | by intros [? _]].
  - rewrite lookup_delete_ne by done. split; [done | by intros [_ ?]].
Qed.

(** ** Completion: nothing throws when [new] and the copies succeed *)

Lemma ends_no_throw {A} (o : outcome T W A) (Q : A → Mem T W → Prop) E :
  ends_with o Q E → no_throw o → ∃ a m', o = Ret a m' ∧ Q a m'.
Proof. destruct o; simpl; try done. eauto. Qed.

Lemma no_throw_bind {A B} (c : M A) (k : A → M B) m :
  no_throw (c m) → (∀ a m1, c m = Ret a m1 → no_throw (k a m1)) →
  no_throw (bind c k m).
Proof. unfold bind. destruct (c m); simpl; eauto. Qed.

Lemma no_throw_finally {A} (c : M A) (d : M unit) m :
  no_throw (c m) → no_throw (finally c d m).
Proof.
  unfold finally. destruct (c m) as [a m1|m1| | |]; simpl; try done.
  intros _. by destruct (d m1).
Qed.

Lemma no_throw_on_throw {A} (c : M A) (d : Mem T W → Mem T W) m :
  no_throw (c m) → no_throw (on_throw c d m).
Proof. unfold on_throw. by destruct (c m). Qed.

Lemma no_throw_load p m : no_throw (load p m).
Proof. unfold load. repeat case_match; exact I. Qed.

Lemma no_throw_store_next p q m : no_throw (store_next p q m).
Proof. unfold store_next. repeat case_match; exact I. Qed.

Lemma no_throw_get_size this m : no_throw (get_size this m).
Proof. unfold get_size. case_match; exact I. Qed.

Lemma no_throw_set_size this z m : no_throw (set_size this z m).
Proof. unfold set_size. case_match; exact I. Qed.

Ltac no_throw_steps :=
  repeat first
    [ apply no_throw_load | apply no_throw_store_next
    | apply no_throw_get_size | apply no_throw_set_size
    | apply no_throw_bind; [|intros ? ? _] ].

Lemma no_throw_swap a b m : no_throw (swap a b m).
Proof. unfold swap. no_throw_steps. Qed.

Lemma store_next_Ret_size p q m u m' :
  store_next p q m = Ret u m' → size (heap m') = size (heap m).
Proof.
  unfold store_next. repeat case_match; try done; intros [= _ <-]; [done|].
  simpl. by apply map_size_insert_Some.
Qed.

(** A completed [InsertAfter] has allocated one node. *)
Lemma InsertAfter_Ret_size this pos val m it m' :
  InsertAfter this pos val m = Ret it m' →
  size (heap m') = S (size (heap m)).
Proof.
  unfold InsertAfter. intros H.
  bind_inv H (assert (negb (bool_decide (node_ pos = nullptr))) m).
  apply assert_Ret_inv in E as ->.
  match type of H with
  | bind ?c _ ?m0 = _ => bind_inv H (c m0)
  end.
  apply new_Node_Ret_inv in E as (anew & vnew & nx & m1 & Hnew & Hnx & Hh1).
  apply load_next_Ret_inv in Hnx as ->.
  match type of H with
  | bind ?c _ ?m0 = _ => bind_inv H (c m0)
  end.
  pose proof (store_next_Ret_size _ _ _ _ _ E) as Hh2.
  match type of H with
  | bind ?c _ ?m0 = _ => bind_inv H (c m0)
  end.
  apply get_size_Ret_inv in E0 as ->.
  match type of H with
  | bind ?c _ ?m0 = _ => bind_inv H (c m0)
  end.
  apply set_size_Ret_inv in E0 as Hh3.
  match type of H with
  | bind ?c _ ?m0 = _ => bind_inv H (c m0)
  end.
  apply load_Ret_inv in E1 as ->. injection H as _ <-.
  rewrite Hh3, Hh2, Hh1.
  apply map_size_insert_None. by apply operator_new_fresh.
Qed.

Lemma InsetAfterListItems_loop_no_throw capacity values : ∀ m σ tmp done,
  new_succeeds_below capacity → copies_succeed values →
  models m σ → σ !! tmp = Some done →
  (size (heap m) + length values ≤ capacity)%nat →
  no_throw (InsetAfterListItems_loop tmp (Iterator (last_ptr tmp done)) values m).
Proof.
  induction values as [|v0 values IH]; intros m σ tmp done Hnew Hcopy Hm Hσ Hcap;
    simpl; [exact I|].
  destruct (Hnew m) as [a Ha]; [simpl in Hcap; lia|].
  destruct (Hcopy (world m) v0) as (w & v & Hv);
    [rewrite elem_of_cons; by left|].
  destruct (InsertAfter_ok m σ tmp done [] v0 a w v Hm)
    as (m1 & Hrun & _ & Hm1); [by rewrite app_nil_r | done | done |].
  erewrite bind_Ret by exact Hrun.
  rewrite <- (last_ptr_snoc tmp done a v).
  eapply (IH m1 _ tmp _ Hnew); [ | exact Hm1 | apply lookup_insert_eq | ].
  - intros w0 v1 Hv1. apply Hcopy. rewrite elem_of_cons. by right.
  - rewrite (InsertAfter_Ret_size _ _ _ _ _ _ Hrun). simpl in Hcap. lia.
Qed.

Lemma InsetAfterListItems_list_loop_no_throw capacity rest :
  ∀ fuel m σ tmp done container seen,
  new_succeeds_below capacity → copies_succeed rest.*2 →
  models m σ → σ !! tmp = Some done →
  σ !! container = Some (seen ++ rest) → container ≠ tmp →
  (size (heap m) + length rest ≤ capacity)%nat →
  no_throw (InsetAfterListItems_list_loop fuel tmp
              (Iterator (last_ptr tmp done)) container
              (Iterator (first_ptr rest)) m).
Proof.
  induction rest as [|[x vx] rest IH];
    intros fuel m σ tmp done container seen Hnew Hcopy Hm Hσ Hcont Hne Hcap;
    (destruct fuel as [|fuel]; [exact I|]); simpl; [exact I|].
  pose proof (is_list_cell _ _ _ _ _ _ (models_list _ _ Hm _ _ Hcont)) as Hx.
  unfold end_, operator_deref. simpl.
  erewrite (bind_Ret (ret _)) by reflexivity. simpl.
  erewrite (bind_Ret (bind _ _)) by (by erewrite bind_Ret by (by apply load_node)).
  simpl.
  destruct (Hnew m) as [a Ha]; [simpl in Hcap; lia|].
  destruct (Hcopy (world m) vx) as (w & v & Hv);
    [simpl; rewrite elem_of_cons; by left|].
  destruct (InsertAfter_ok m σ tmp done [] vx a w v Hm)
    as (m1 & Hrun & _ & Hm1); [by rewrite app_nil_r | done | done |].
  erewrite bind_Ret by exact Hrun.
  assert (Hcont1 : <[tmp := done ++ [(a, v)]]> σ !! container
                   = Some ((seen ++ [(x, vx)]) ++ rest)).
  { rewrite lookup_insert_ne by done. by rewrite <- app_assoc. }
  pose proof (models_list _ _ Hm1 _ _ Hcont1) as Hl1.
  rewrite <- app_assoc in Hl1. apply is_list_cell in Hl1.
  erewrite (bind_Ret (operator_incr_post _))
    by (unfold operator_incr_post, operator_incr; simpl;
        erewrite (bind_Ret (bind _ _))
          by (by erewrite bind_Ret by (by apply load_node));
        reflexivity).
  simpl. rewrite <- (last_ptr_snoc tmp done a v).
  eapply (IH fuel m1 _ tmp _ container (seen ++ [(x, vx)]) Hnew);
    [ | exact Hm1 | apply lookup_insert_eq | exact Hcont1 | exact Hne | ].
  - intros w0 v1 Hv1. apply Hcopy. simpl. rewrite elem_of_cons. by right.
  - rewrite (InsertAfter_Ret_size _ _ _ _ _ _ Hrun). simpl in Hcap. lia.
Qed.

Lemma SingleLinkedList_init_no_throw capacity fuel m σ this values :
  new_succeeds_below capacity → copies_succeed values →
  models m σ → objs m !! this = None →
  (size (heap m) + length values ≤ capacity)%nat →
  no_throw (SingleLinkedList_init fuel this values m).
Proof.
  intros Hnew Hcopy Hm Hthis Hcap. unfold SingleLinkedList_init.
  destruct (init_members_ok m σ this Hm Hthis) as (m0 & Hinit & _ & Hh0 & Hm0).
  erewrite bind_Ret by exact Hinit.
  apply no_throw_on_throw. unfold with_tmp, SingleLinkedList_default.
  destruct (init_members_ok m0 _ (fresh_obj m0) Hm0 (fresh_obj_fresh m0))
    as (m1 & Hinit1 & _ & Hh1 & Hm1).
  erewrite bind_Ret by exact Hinit1.
  apply no_throw_finally. apply no_throw_bind; [|intros; apply no_throw_swap].
  unfold InsetAfterListItems, cbefore_begin. unfold bind at 1. unfold ret at 1.
  apply (InsetAfterListItems_loop_no_throw capacity values m1 _ _ [] Hnew Hcopy Hm1
           (lookup_insert_eq _ _ _)).
  by rewrite Hh1, Hh0.
Qed.

Lemma SingleLinkedList_copy_no_throw capacity fuel m σ this other co :
  new_succeeds_below capacity → copies_succeed co.*2 →
  models m σ → objs m !! this = None → σ !! other = Some co →
  (size (heap m) + length co ≤ capacity)%nat →
  no_throw (SingleLinkedList_copy fuel this other m).
Proof.
  intros Hnew Hcopy Hm Hthis Hother Hcap. unfold SingleLinkedList_copy.
  pose proof (models_fresh_obj _ _ _ Hm Hthis) as Hσ.
  assert (other ≠ this) as Hot by (intros ->; congruence).
  destruct (init_members_ok m σ this Hm Hthis) as (m0 & Hinit & _ & Hh0 & Hm0).
  erewrite bind_Ret by exact Hinit.
  apply no_throw_on_throw.
  apply no_throw_bind; [apply no_throw_get_size | intros s0 ? ->%get_size_Ret_inv].
  apply no_throw_bind; [apply no_throw_load | intros h0 ? ->%load_Ret_inv].
  apply no_throw_bind; [unfold assert; case_match; exact I
                       | intros ? ? ->%assert_Ret_inv].
  unfold with_tmp, SingleLinkedList_default.
  pose proof (fresh_obj_fresh m0) as Hfresh.
  pose proof (models_fresh_obj _ _ _ Hm0 Hfresh) as Htmp.
  destruct (init_members_ok m0 _ (fresh_obj m0) Hm0 Hfresh)
    as (m1 & Hinit1 & _ & Hh1 & Hm1).
  set (tmp := fresh_obj m0) in *.
  assert (tmp ≠ this) as Hne by (intros Heq; rewrite Heq in Htmp;
                                 by rewrite lookup_insert_eq in Htmp).
  rewrite lookup_insert_ne in Htmp by done.
  assert (other ≠ tmp) as Hne' by (intros Heq; rewrite Heq in Hother; congruence).
  erewrite bind_Ret by exact Hinit1.
  apply no_throw_finally. apply no_throw_bind; [|intros; apply no_throw_swap].
  unfold InsetAfterListItems_list, cbefore_begin.
  unfold bind at 1. unfold ret at 1.
  assert (Hco : <[tmp := []]> (<[this := []]> σ) !! other = Some co)
    by (by rewrite !lookup_insert_ne).
  erewrite bind_Ret by (eapply begin_ok, (models_list _ _ Hm1), Hco).
  apply (InsetAfterListItems_list_loop_no_throw capacity co fuel m1 _ tmp []
           other [] Hnew Hcopy Hm1 (lookup_insert_eq _ _ _) Hco Hne').
  by rewrite Hh1, Hh0.
Qed.

Lemma operator_assign_no_throw capacity fuel m σ this rhs cb :
  new_succeeds_below capacity → copies_succeed cb.*2 →
  models m σ → σ !! rhs = Some cb →
  (size (heap m) + length cb ≤ capacity)%nat →
  no_throw (operator_assign fuel this rhs m).
Proof.
  intros Hnew Hcopy Hm Hrhs Hcap. unfold operator_assign.
  case_bool_decide; [exact I|].
  apply no_throw_bind.
  - by apply (SingleLinkedList_copy_no_throw capacity fuel m σ _ rhs cb Hnew
                Hcopy Hm (fresh_obj_fresh m) Hrhs).
  - intros _ m1 _. apply no_throw_finally, no_throw_swap.
Qed.

(** * The claims *)

(** C2 (amended): for every list, [before_begin()] is never equal to
    [begin()], on the empty list too (there [begin()] is the null end
    position while [before_begin()] is the sentinel), and advancing
    [before_begin()] by one step yields [begin()], the position of the
    first element. *)
Theorem before_begin_then_begin m this cells :
  is_list m this cells →
  ∃ bb b,
    before_begin this m = Ret bb m
    ∧ begin this m = Ret b m
    ∧ b = Iterator (first_ptr cells)
    ∧ iter_eq bb b = false
    ∧ operator_incr bb m = Ret b m.
Proof.
  intros Hl. pose proof (begin_ok _ _ _ Hl) as Hb.
  destruct Hl as (s & Hs & Hc & _).
  exists (Iterator (head_of this)), (Iterator (first_ptr cells)).
  split_and!; [done | done | done | |].
  - unfold iter_eq. simpl. apply bool_decide_eq_false_2.
    by destruct cells as [|[] ?].
  - unfold operator_incr. simpl.
    erewrite bind_Ret by (by apply load_head).
    by rewrite (chain_heads _ _ _ Hc).
Qed.

(** C3: when the copy constructor of the value throws during
    [InsertAfter(pos, value)], for [pos] the sentinel or any node of the
    list, the exception leaves the function with heap and list objects
    exactly as before the call: same size, same nodes, same values. *)
Theorem InsertAfter_copy_throw_unchanged m this pre post val a w :
  is_list m this (pre ++ post) →
  operator_new m = Some a → copy_ctor (world m) val = (w, None) →
  ∃ m',
    InsertAfter this (Iterator (last_ptr this pre)) val m = Throw m'
    ∧ heap m' = heap m ∧ objs m' = objs m
    ∧ is_list m' this (pre ++ post).
Proof.
  intros Hl Hnew Hcopy.
  exists (mkMem (heap m) (objs m) w).
  split_and!; [by eapply InsertAfter_copy_throws | done | done |].
  by eapply is_list_frame.
Qed.

(** C4: [EraseAfter(pos)], for [pos] a position of the list [this] whose
    node has a successor, removes that successor and nothing else: the
    nodes before and after keep their order, every other list is
    untouched, [size_] goes down by one, and the iterator returned is the
    position that now follows [pos], which is [end()] when nothing
    follows. *)
Theorem EraseAfter_removes_successor m σ this pre x vx post s :
  models m σ → σ !! this = Some (pre ++ (x, vx) :: post) →
  objs m !! this = Some s →
  ∃ m' s' it e,
    EraseAfter this (Iterator (last_ptr this pre)) m = Ret it m'
    ∧ models m' (<[this := pre ++ post]> σ)
    ∧ objs m' !! this = Some s' ∧ size_ s' = size_ s - 1
    ∧ it = Iterator (first_ptr post)
    ∧ operator_incr (Iterator (last_ptr this pre)) m' = Ret it m'
    ∧ end_ this m' = Ret e m'
    ∧ (post = [] → it = e).
Proof.
  intros Hm Hσ Hs.
  destruct (EraseAfter_ok m σ this pre x vx post Hm Hσ) as (m' & Hrun & _ & Hm').
  destruct (models_list _ _ Hm _ _ Hσ) as (s0 & Hs0 & _ & Hsz). simplify_eq.
  destruct (models_list _ _ Hm' this _ (lookup_insert_eq _ _ _))
    as (s' & Hs' & Hc' & Hsz').
  exists m', s', (Iterator (first_ptr post)), (Iterator nullptr).
  split_and!; [done | done | done | | done | | done |].
  - rewrite Hsz, Hsz', !length_app. simpl. lia.
  - apply lseg_app_inv in Hc' as (q & Hpre & Hpost).
    destruct (pos_load m' this s' pre q Hs' Hpre) as (n & Hload & Hn).
    unfold operator_incr. simpl. erewrite bind_Ret by exact Hload.
    by rewrite Hn, (chain_heads _ _ _ Hpost).
  - by intros ->.
Qed.

(** C5: [a < b] holds exactly when the element sequence of [a] is
    lexicographically earlier than that of [b]; [a >= b] is [!(a < b)],
    [a <= b] is [!(b < a)] and [a > b] is [b < a]. *)
Theorem ordering_operators fuel m a b ca cb :
  is_list m a ca → is_list m b cb →
  (length ca < fuel)%nat → (length cb < fuel)%nat →
  ∃ ab ba : bool,
    operator_lt fuel a b m = Ret ab m
    ∧ operator_lt fuel b a m = Ret ba m
    ∧ (ab = true ↔ lex_lt ca.*2 cb.*2)
    ∧ (ba = true ↔ lex_lt cb.*2 ca.*2)
    ∧ operator_ge fuel a b m = Ret (negb ab) m
    ∧ operator_le fuel a b m = Ret (negb ba) m
    ∧ operator_gt fuel a b m = Ret ba m.
Proof.
  intros Ha Hb Hfa Hfb.
  pose proof (operator_lt_spec fuel m a b ca cb Ha Hb Hfa) as Hab.
  pose proof (operator_lt_spec fuel m b a cb ca Hb Ha Hfb) as Hba.
  exists (lex_ltb ca.*2 cb.*2), (lex_ltb cb.*2 ca.*2).
  split_and!; [done | done | apply lex_ltb_iff | apply lex_ltb_iff | | |].
  - unfold operator_ge, operator_gt.
    erewrite (bind_Ret (bind _ _)).
    2:{ erewrite bind_Ret by exact Hab.
        instantiate (1 := m). instantiate (1 := lex_ltb ca.*2 cb.*2).
        by destruct (lex_ltb ca.*2 cb.*2). }
    by destruct (lex_ltb ca.*2 cb.*2).
  - unfold operator_le. erewrite bind_Ret by exact Hba.
    by destruct (lex_ltb cb.*2 ca.*2).
  - unfold operator_gt. erewrite bind_Ret by exact Hba.
    by destruct (lex_ltb cb.*2 ca.*2).
Qed.

(** C6: [PushFront(v)] followed by [PopFront()] gives back the list as it
    was: same nodes, same values in the same order, same [size_]. *)
Theorem PushFront_then_PopFront m σ this cells val a w v s :
  models m σ → σ !! this = Some cells → objs m !! this = Some s →
  operator_new m = Some a → copy_ctor (world m) val = (w, Some v) →
  ∃ m1 m2 s2,
    PushFront this val m = Ret tt m1
    ∧ PopFront this m1 = Ret tt m2
    ∧ models m2 σ
    ∧ is_list m2 this cells
    ∧ objs m2 !! this = Some s2 ∧ size_ s2 = size_ s.
Proof.
  intros Hm Hσ Hs Hnew Hcopy.
  destruct (PushFront_ok m σ this cells val a w v Hm Hσ Hnew Hcopy)
    as (m1 & Hpush & _ & Hm1).
  destruct (PopFront_ok m1 _ this a v cells Hm1 (lookup_insert_eq _ _ _))
    as (m2 & Hpop & _ & Hm2).
  rewrite insert_insert_eq, insert_id in Hm2 by done.
  pose proof (models_list _ _ Hm2 _ _ Hσ) as Hl2.
  destruct (models_list _ _ Hm _ _ Hσ) as (s0 & Hs0 & _ & Hsz). simplify_eq.
  destruct Hl2 as (s2 & Hs2 & Hc2 & Hsz2).
  exists m1, m2, s2.
  split_and!; [done | done | done | by exists s2 | done | congruence].
Qed.

(** C7: [InsertAfter(before_begin(), v)] and [PushFront(v)] are the same
    computation up to the returned iterator; when nothing throws the list
    afterwards starts with the copy of [v] (which is [v] itself for an
    element type whose copies equal their originals), the former elements
    follow unchanged, [size_] has grown by one, and the iterator returned
    by [InsertAfter] is [begin()]. *)
Theorem InsertAfter_before_begin_is_PushFront this val :
  (∀ m, PushFront this val m
        = (pos <- before_begin this ;; InsertAfter this pos val ;;; ret tt) m)
  ∧ (∀ m σ cells a w v s,
       models m σ → σ !! this = Some cells → objs m !! this = Some s →
       operator_new m = Some a → copy_ctor (world m) val = (w, Some v) →
       ∃ m' s' it,
         (pos <- before_begin this ;; InsertAfter this pos val) m = Ret it m'
         ∧ PushFront this val m = Ret tt m'
         ∧ models m' (<[this := (a, v) :: cells]> σ)
         ∧ objs m' !! this = Some s' ∧ size_ s' = size_ s + 1
         ∧ begin this m' = Ret it m'
         ∧ ((∀ w0 v0 w1 v1, copy_ctor w0 v0 = (w1, Some v1) → v1 = v0) →
            v = val)).
Proof.
  split; [apply PushFront_as_InsertAfter|].
  intros m σ cells a w v s Hm Hσ Hs Hnew Hcopy.
  destruct (InsertAfter_ok m σ this [] cells val a w v Hm Hσ Hnew Hcopy)
    as (m' & Hrun & _ & Hm').
  pose proof (models_list _ _ Hm' this _ (lookup_insert_eq _ _ _)) as Hl'.
  pose proof (begin_ok _ _ _ Hl') as Hb.
  destruct (models_list _ _ Hm _ _ Hσ) as (s0 & Hs0 & _ & Hsz). simplify_eq.
  destruct Hl' as (s' & Hs' & _ & Hsz').
  exists m', s', (Iterator (node_at a)).
  assert (Hia : (pos <- before_begin this ;; InsertAfter this pos val) m
                = Ret (Iterator (node_at a)) m').
  { unfold before_begin. unfold bind at 1. unfold ret at 1. exact Hrun. }
  split_and!; [done | | done | done | | done |].
  - rewrite PushFront_as_InsertAfter. unfold before_begin.
    unfold bind at 1. unfold ret at 1.
    by erewrite bind_Ret by exact Hrun.
  - rewrite Hsz, Hsz'. simpl. lia.
  - intros Hfaith. by eapply Hfaith.
Qed.

(** C8: copy assignment.  [a = a] returns at once and changes nothing.
    For distinct lists, and an element type whose copies equal their
    originals, [a = b] either completes, and then [a] holds the values of
    [b] in the same order while [b] and every other list are as before;
    or an exception leaves it, and then every list, [a] included, is
    exactly as it was before the call.  It does complete, with that
    result, when [new] returns storage for as many nodes as [b] has
    elements and no copy of an element of [b] throws. *)
Theorem copy_assignment fuel m σ a b ca cb :
  (∀ w v w' v', copy_ctor w v = (w', Some v') → v' = v) →
  models m σ → σ !! a = Some ca → σ !! b = Some cb → a ≠ b →
  (length ca < fuel)%nat → (length cb < fuel)%nat →
  operator_assign fuel a a m = Ret tt m
  ∧ ends_with (operator_assign fuel a b m)
      (λ _ m', ∃ c, models m' (<[a := c]> σ)
                    ∧ is_list m' a c ∧ c.*2 = cb.*2
                    ∧ is_list m' b cb)
      (λ m', models m' σ ∧ is_list m' a ca ∧ is_list m' b cb)
  ∧ (∀ capacity,
       new_succeeds_below capacity →
       (size (heap m) + length cb ≤ capacity)%nat →
       copies_succeed cb.*2 →
       ∃ m', operator_assign fuel a b m = Ret tt m'
             ∧ ∃ c, models m' (<[a := c]> σ)
                    ∧ is_list m' a c ∧ c.*2 = cb.*2
                    ∧ is_list m' b cb).
Proof.
  intros Hfaith Hm Ha Hb Hne Hfa Hfb.
  assert (Hspec : ends_with (operator_assign fuel a b m)
      (λ _ m', ∃ c, models m' (<[a := c]> σ)
                    ∧ is_list m' a c ∧ c.*2 = cb.*2
                    ∧ is_list m' b cb)
      (λ m', models m' σ ∧ is_list m' a ca ∧ is_list m' b cb)).
  { eapply ends_mono;
      [by apply (operator_assign_spec fuel m σ a b ca cb) | |]; simpl.
    - intros _ m' (c & Hm' & Hcp). exists c.
      split_and!; [done | | |].
      + apply (models_list _ _ Hm'). by rewrite lookup_insert_eq.
      + by apply copies_faithful.
      + apply (models_list _ _ Hm'). by rewrite lookup_insert_ne.
    - intros m' Hm'. split_and!; [done | by eapply models_list..]. }
  split; [apply operator_assign_self|]. split; [exact Hspec|].
  intros capacity Hnew Hcap Hcopy.
  destruct (ends_no_throw _ _ _ Hspec) as ([] & m' & Hrun & HQ);
    [by eapply operator_assign_no_throw|].
  by exists m'.
Qed.

(** C9: every operation keeps the data-model invariant: afterwards, also
    when an exception leaves the operation, every live list has a finite
    walk from its sentinel to null that visits no node twice, and its
    [size_] is the number of nodes on that walk.  The operations are
    called within their contracts: constructors run on unused storage,
    positions are positions of the list operated on, and [PopFront] on an
    empty list is covered when assertions are compiled out (with
    assertions its first [assert] stops the program). *)
Theorem invariant_preserved m :
  mem_inv m →
  (∀ l s, objs m !! l = Some s →
     ∃ cells, chain (heap m) (next_node (head_ s)) cells
              ∧ NoDup cells.*1
              ∧ size_ s = Z.of_nat (length cells))
  ∧ (∀ this, objs m !! this = None →
       keeps_inv (SingleLinkedList_default this m))
  ∧ (∀ fuel this values,
       objs m !! this = None → (length values < fuel)%nat →
       keeps_inv (SingleLinkedList_init fuel this values m))
  ∧ (∀ fuel this other co,
       objs m !! this = None → is_list m other co → (length co < fuel)%nat →
       keeps_inv (SingleLinkedList_copy fuel this other m))
  ∧ (∀ this cells val,
       is_list m this cells → keeps_inv (PushFront this val m))
  ∧ (∀ this cells,
       is_list m this cells → cells ≠ [] ∨ NDEBUG = true →
       keeps_inv (PopFront this m))
  ∧ (∀ this pre post val,
       is_list m this (pre ++ post) →
       keeps_inv (InsertAfter this (Iterator (last_ptr this pre)) val m))
  ∧ (∀ this pre x vx post,
       is_list m this (pre ++ (x, vx) :: post) →
       keeps_inv (EraseAfter this (Iterator (last_ptr this pre)) m))
  ∧ (∀ fuel this cells,
       is_list m this cells → (length cells < fuel)%nat →
       keeps_inv (Clear fuel this m))
  ∧ (∀ a b ca cb,
       is_list m a ca → is_list m b cb → keeps_inv (swap a b m))
  ∧ (∀ fuel a b ca cb,
       is_list m a ca → is_list m b cb →
       (length ca < fuel)%nat → (length cb < fuel)%nat →
       keeps_inv (operator_assign fuel a b m)).
Proof.
  intros Hinv. split; [intros l s; by apply mem_inv_list|].
  destruct Hinv as [σ Hm].
  split_and!.
  - intros this Hthis.
    destruct (init_members_ok m σ this Hm Hthis) as (m' & Hrun & _ & _ & Hm').
    unfold keeps_inv, SingleLinkedList_default. rewrite Hrun. simpl.
    by eexists.
  - intros fuel this values Hthis Hfuel.
    eapply keeps_inv_intro;
      [by apply (SingleLinkedList_init_spec fuel m σ) | |]; simpl.
    + intros _ m' (c & Hm' & _). by eexists.
    + intros m' Hm'. by eexists.
  - intros fuel this other co Hthis Hother Hfuel.
    eapply keeps_inv_intro;
      [apply (SingleLinkedList_copy_spec fuel m σ this other co Hm Hthis);
         [by eapply models_is_list | done] | |]; simpl.
    + intros _ m' (c & Hm' & _). by eexists.
    + intros m' Hm'. by eexists.
  - intros this cells val Hl.
    pose proof (models_is_list _ _ _ _ Hm Hl) as Hσ.
    unfold keeps_inv. rewrite PushFront_as_InsertAfter.
    unfold before_begin. unfold bind at 1. unfold ret at 1.
    eapply ends_bind;
      [apply (InsertAfter_spec m σ this [] cells val Hm Hσ) | |]; simpl.
    + intros m' (_ & _ & Hm'). by eexists.
    + intros _ m' (a & v & _ & _ & _ & Hm'). by eexists.
  - intros this cells Hl Hcase.
    pose proof (models_is_list _ _ _ _ Hm Hl) as Hσ.
    destruct cells as [|[x vx] cells].
    + destruct Hcase as [?|HN]; [done|].
      destruct Hl as (s & Hs & _ & Hsz).
      unfold keeps_inv. erewrite PopFront_empty_release by done.
      simpl. by eexists.
    + destruct (PopFront_ok m σ this x vx cells Hm Hσ) as (m' & -> & _ & Hm').
      simpl. by eexists.
  - intros this pre post val Hl.
    pose proof (models_is_list _ _ _ _ Hm Hl) as Hσ.
    eapply keeps_inv_intro;
      [apply (InsertAfter_spec m σ this pre post val Hm Hσ) | |]; simpl.
    + intros _ m' (a & v & _ & _ & _ & Hm'). by eexists.
    + intros m' (_ & _ & Hm'). by eexists.
  - intros this pre x vx post Hl.
    pose proof (models_is_list _ _ _ _ Hm Hl) as Hσ.
    destruct (EraseAfter_ok m σ this pre x vx post Hm Hσ) as (m' & -> & _ & Hm').
    simpl. by eexists.
  - intros fuel this cells Hl Hfuel.
    pose proof (models_is_list _ _ _ _ Hm Hl) as Hσ.
    destruct (Clear_ok cells fuel m σ this Hm Hσ Hfuel) as (m' & -> & _ & Hm').
    simpl. by eexists.
  - intros a b ca cb Ha Hb.
    pose proof (models_is_list _ _ _ _ Hm Ha) as Hσa.
    pose proof (models_is_list _ _ _ _ Hm Hb) as Hσb.
    destruct (swap_ok m σ a b ca cb Hm Hσa Hσb) as (m' & -> & _ & _ & Hm').
    simpl. by eexists.
  - intros fuel a b ca cb Ha Hb Hfa Hfb.
    pose proof (models_is_list _ _ _ _ Hm Ha) as Hσa.
    pose proof (models_is_list _ _ _ _ Hm Hb) as Hσb.
    destruct (decide (a = b)) as [->|Hne].
    + unfold keeps_inv. rewrite operator_assign_self. simpl. by eexists.
    + eapply keeps_inv_intro;
        [by apply (operator_assign_spec fuel m σ a b ca cb) | |]; simpl.
      * intros _ m' (c & Hm' & _). by eexists.
      * intros m' Hm'. by eexists.
Qed.

(** C10: with assertions compiled out, [PopFront()] on an empty list
    returns at its size test: the memory is the one before the call, so
    the list is still empty with [size_] zero. *)
Theorem PopFront_on_empty_is_noop m this :
  NDEBUG = true → is_list m this [] →
  PopFront this m = Ret tt m ∧ is_list m this [].
Proof.
  intros HN Hl. split; [|done].
  destruct Hl as (s & Hs & _ & Hsz).
  by eapply PopFront_empty_release.
Qed.

(** * Further properties of the container *)

(** ** Size, emptiness and traversal *)

Lemma pos_load_list m this pre post :
  is_list m this (pre ++ post) →
  ∃ n, load (last_ptr this pre) m = Ret n m ∧ next_node n = first_ptr post.
Proof.
  intros (s & Hs & Hc & _).
  apply lseg_app_inv in Hc as (q & Hpre & Hpost).
  rewrite <- (chain_heads _ _ _ Hpost). by eapply pos_load.
Qed.

Lemma incr_n_lseg h w o pre : ∀ p q,
  lseg h p pre q →
  incr_n (length pre) (Iterator p) (mkMem h o w) = Ret (Iterator q) (mkMem h o w).
Proof.
  induction pre as [|[a v] pre IH]; intros p q Hseg; inversion Hseg; subst.
  - done.
  - simpl. unfold operator_incr. simpl.
    erewrite (bind_Ret (bind _ _))
      by (by erewrite bind_Ret by (by apply load_node)).
    simpl. by apply IH.
Qed.

(** X1: [GetSize()] is the number of elements, and [IsEmpty()] holds
    exactly when there is none, which is exactly when [begin()] equals
    [end()]. *)
Theorem GetSize_IsEmpty_agree m this cells :
  is_list m this cells →
  ∃ b e,
    GetSize this m = Ret (Z.of_nat (length cells)) m
    ∧ IsEmpty this m = Ret (bool_decide (cells = [])) m
    ∧ begin this m = Ret b m ∧ end_ this m = Ret e m
    ∧ iter_eq b e = bool_decide (cells = []).
Proof.
  intros Hl. pose proof (begin_ok _ _ _ Hl) as Hb.
  destruct Hl as (s & Hs & Hc & Hsz).
  exists (Iterator (first_ptr cells)), (Iterator nullptr).
  split_and!; [| | done | done |].
  - unfold GetSize. erewrite get_size_ok by done. by rewrite Hsz.
  - unfold IsEmpty. erewrite bind_Ret by (by apply get_size_ok).
    rewrite Hsz. destruct cells; reflexivity.
  - by destruct cells as [|[] ?].
Qed.

(** X2: walking from [begin()] with [++] visits the elements in order:
    after as many steps as there are elements in front, the iterator
    refers to the next element and [*] reads its value; after [size]
    steps it equals [end()], where neither [*] nor [++] is defined. *)
Theorem traversal_in_order m this pre post :
  is_list m this (pre ++ post) →
  ∃ it e,
    (b <- begin this ;; incr_n (length pre) b) m = Ret it m
    ∧ end_ this m = Ret e m
    ∧ iter_eq it e = bool_decide (post = [])
    ∧ match post with
      | [] => operator_deref it m = UB ∧ operator_incr it m = UB
      | (x, vx) :: _ => it = Iterator (node_at x)
                        ∧ operator_deref it m = Ret vx m
      end.
Proof.
  intros Hl. pose proof (begin_ok _ _ _ Hl) as Hb.
  destruct Hl as (s & Hs & Hc & Hsz).
  pose proof Hc as Hc'.
  apply lseg_app_inv in Hc' as (q & Hpre & Hpost).
  pose proof (chain_heads _ _ _ Hpost) as ->.
  rewrite (chain_heads _ _ _ Hc) in Hpre.
  exists (Iterator (first_ptr post)), (Iterator nullptr).
  split_and!; [| done | by destruct post as [|[] ?] |].
  - erewrite bind_Ret by exact Hb. destruct m as [h o w].
    by apply incr_n_lseg.
  - destruct post as [|[x vx] post]; simpl; [done|].
    inversion Hpost; subst. split; [done|].
    unfold operator_deref. simpl. by erewrite bind_Ret by (by apply load_node).
Qed.

Lemma last_ptr_inj this (cells pre1 pre2 : list (Z * T)) :
  NoDup cells.*1 → pre1 `prefix_of` cells → pre2 `prefix_of` cells →
  last_ptr this pre1 = last_ptr this pre2 → pre1 = pre2.
Proof.
  intros Hnd [k1 H1] [k2 H2].
  destruct pre1 as [|[a1 v1] p1 _] using rev_ind;
    destruct pre2 as [|[a2 v2] p2 _] using rev_ind;
    rewrite ?last_ptr_snoc; unfold last_ptr; simpl; try done.
  intros [= <-].
  assert (length p1 = length p2) as Hlen.
  { apply (NoDup_lookup cells.*1 _ _ a1 Hnd).
    - rewrite H1, !fmap_app, <- app_assoc. simpl.
      rewrite lookup_app_r by (by rewrite length_fmap).
      by rewrite length_fmap, Nat.sub_diag.
    - rewrite H2, !fmap_app, <- app_assoc. simpl.
      rewrite lookup_app_r by (by rewrite length_fmap).
      by rewrite length_fmap, Nat.sub_diag. }
  rewrite H1 in H2. apply app_inj_1 in H2 as [? _]; [done|].
  rewrite !length_app. simpl. lia.
Qed.

(** X3: two positions of one list (the sentinel or a node, given by the
    elements in front of them) compare equal with [==] exactly when they
    are the same position, [!=] is the negation, and no position equals
    [end()]. *)
Theorem iterator_equality_is_position_equality m this cells pre1 pre2 :
  is_list m this cells →
  pre1 `prefix_of` cells → pre2 `prefix_of` cells →
  let it1 := Iterator (last_ptr this pre1) in
  let it2 := Iterator (last_ptr this pre2) in
  (iter_eq it1 it2 = true ↔ pre1 = pre2)
  ∧ iter_ne it1 it2 = negb (iter_eq it1 it2)
  ∧ iter_eq it1 (Iterator nullptr) = false.
Proof.
  intros (s & Hs & Hc & _) Hp1 Hp2 it1 it2.
  pose proof (chain_NoDup _ _ _ Hc) as Hnd.
  split_and!.
  - unfold iter_eq. simpl. rewrite bool_decide_eq_true. split.
    + by eapply last_ptr_inj.
    + by intros ->.
  - done.
  - unfold iter_eq. simpl. apply bool_decide_eq_false_2, last_ptr_not_null.
Qed.

(** ** Insertion and removal at a position *)

(** X4: [InsertAfter(pos, value)], when allocation and copy succeed, puts
    the copy right after [pos] and moves nothing else; [size_] grows by
    one, every other list is untouched, and the iterator returned refers
    to the new element: [*] reads the copy and it is what [++pos] is.
    The value has been copied exactly once. *)
Theorem InsertAfter_inserts_after_pos m σ this pre post val a w v s :
  models m σ → σ !! this = Some (pre ++ post) → objs m !! this = Some s →
  operator_new m = Some a → copy_ctor (world m) val = (w, Some v) →
  ∃ m' s' it,
    InsertAfter this (Iterator (last_ptr this pre)) val m = Ret it m'
    ∧ it = Iterator (node_at a)
    ∧ models m' (<[this := pre ++ (a, v) :: post]> σ)
    ∧ objs m' !! this = Some s' ∧ size_ s' = size_ s + 1
    ∧ operator_deref it m' = Ret v m'
    ∧ operator_incr (Iterator (last_ptr this pre)) m' = Ret it m'
    ∧ world m' = w.
Proof.
  intros Hm Hσ Hs Hnew Hcopy.
  destruct (InsertAfter_ok m σ this pre post val a w v Hm Hσ Hnew Hcopy)
    as (m' & Hrun & Hw & Hm').
  pose proof (models_list _ _ Hm' this _ (lookup_insert_eq _ _ _)) as Hl'.
  destruct (models_list _ _ Hm _ _ Hσ) as (s0 & Hs0 & _ & Hsz). simplify_eq.
  pose proof (is_list_cell _ _ _ _ _ _ Hl') as Ha.
  destruct (pos_load_list _ _ _ _ Hl') as (n & Hload & Hn).
  destruct Hl' as (s' & Hs' & _ & Hsz').
  exists m', s', (Iterator (node_at a)).
  split_and!; [done | done | done | done | | | | done].
  - rewrite Hsz, Hsz', !length_app. simpl. lia.
  - unfold operator_deref. simpl. by erewrite bind_Ret by (by apply load_node).
  - unfold operator_incr. simpl. erewrite bind_Ret by exact Hload.
    by rewrite Hn.
Qed.

(** X5: [InsertAfter(pos, v)] followed by [EraseAfter(pos)] gives back the
    list as it was, at any position, and [EraseAfter] returns the
    position that followed [pos] before. *)
Theorem InsertAfter_then_EraseAfter m σ this pre post val a w v :
  models m σ → σ !! this = Some (pre ++ post) →
  operator_new m = Some a → copy_ctor (world m) val = (w, Some v) →
  ∃ m1 it m2,
    InsertAfter this (Iterator (last_ptr this pre)) val m = Ret it m1
    ∧ EraseAfter this (Iterator (last_ptr this pre)) m1
      = Ret (Iterator (first_ptr post)) m2
    ∧ models m2 σ
    ∧ is_list m2 this (pre ++ post).
Proof.
  intros Hm Hσ Hnew Hcopy.
  destruct (InsertAfter_ok m σ this pre post val a w v Hm Hσ Hnew Hcopy)
    as (m1 & Hins & _ & Hm1).
  destruct (EraseAfter_ok m1 _ this pre a v post Hm1 (lookup_insert_eq _ _ _))
    as (m2 & Hera & _ & Hm2).
  rewrite insert_insert_eq, insert_id in Hm2 by done.
  exists m1, (Iterator (node_at a)), m2.
  split_and!; [done | done | done | by eapply models_list].
Qed.

(** X6: [PushFront] gives the strong guarantee: when [new] fails, or the
    copy of the value throws, the exception leaves the function, and
    whenever an exception leaves it the heap and the list objects are
    exactly those before the call. *)
Theorem PushFront_throw_unchanged m this cells val :
  is_list m this cells →
  (operator_new m = None → PushFront this val m = Throw m)
  ∧ (∀ a w, operator_new m = Some a → copy_ctor (world m) val = (w, None) →
            PushFront this val m = Throw (mkMem (heap m) (objs m) w))
  ∧ (∀ m', PushFront this val m = Throw m' →
           heap m' = heap m ∧ objs m' = objs m ∧ is_list m' this cells).
Proof.
  intros Hl. pose proof Hl as (s & Hs & Hc & Hsz).
  unfold PushFront, bind, load, new_Node. rewrite Hs.
  split_and!.
  - by intros ->.
  - intros a w -> Hcopy. simpl. by rewrite Hcopy.
  - intros m'. destruct (operator_new m) as [a|]; simpl.
    + destruct (copy_ctor (world m) val) as [w [v|]].
      * unfold store_next, get_size, set_size. simpl. rewrite Hs. simpl.
        repeat (rewrite lookup_insert_eq; simpl). done.
      * intros [= <-]. split_and!; [done | done | by eapply is_list_frame].
    + by intros [= <-].
Qed.

Lemma PopFront_run m this s x vx nx :
  objs m !! this = Some s → next_node (head_ s) = node_at x →
  heap m !! x = Some (mkNode vx nx) → size_ s ≠ 0 →
  ∃ o', PopFront this m = Ret tt (mkMem (delete x (heap m)) o' (world m)).
Proof.
  intros Hs Hnx Hx Hnz. apply Z.eqb_neq in Hnz.
  unfold PopFront, bind, get_size, assert, load, delete_Node, store_next,
    set_size, ret.
  repeat (first [ rewrite Hs | rewrite Hnz | rewrite Hnx | rewrite Hx
                | rewrite orb_true_r | rewrite lookup_insert_eq ]; simpl).
  by eexists.
Qed.

(** X7: [PopFront()] on a non-empty list removes the first element and
    nothing else: the rest keeps its order, [size_] goes down by one,
    [begin()] is the former second position, and exactly the node of the
    first element is given back to the heap. *)
Theorem PopFront_removes_first m σ this x vx post s :
  models m σ → σ !! this = Some ((x, vx) :: post) →
  objs m !! this = Some s →
  ∃ m' s',
    PopFront this m = Ret tt m'
    ∧ models m' (<[this := post]> σ)
    ∧ objs m' !! this = Some s' ∧ size_ s' = size_ s - 1
    ∧ begin this m' = Ret (Iterator (first_ptr post)) m'
    ∧ heap m' = delete x (heap m).
Proof.
  intros Hm Hσ Hs.
  destruct (PopFront_ok m σ this x vx post Hm Hσ) as (m' & Hrun & _ & Hm').
  pose proof (models_list _ _ Hm _ _ Hσ) as Hl.
  pose proof (is_list_cell m this [] x vx post Hl) as Hx.
  pose proof (is_list_length _ _ _ Hl (models_range _ _ Hm)) as Hlen.
  destruct Hl as (s0 & Hs0 & Hc & Hsz). simplify_eq.
  destruct (PopFront_run m this s x vx _ Hs (chain_heads _ _ _ Hc) Hx)
    as (o' & Hrun'); [rewrite Hsz; simpl; lia|].
  pose proof (models_list _ _ Hm' this _ (lookup_insert_eq _ _ _)) as Hl'.
  pose proof (begin_ok _ _ _ Hl') as Hb.
  destruct Hl' as (s' & Hs' & _ & Hsz').
  exists m', s'. split_and!; [done | done | done | | done |].
  - rewrite Hsz, Hsz'. simpl. lia.
  - rewrite Hrun in Hrun'. by injection Hrun' as ->.
Qed.








(** X9: out-of-contract positions.  [EraseAfter] at the last position of
    a list (the sentinel, when the list is empty) reads through the null
    link of that node: the [assert] only tests the position itself, so
    this is undefined behaviour with assertions compiled in as well.  At
    [end()] both [InsertAfter] and [EraseAfter] fail their [assert].  When
    assertions are compiled out, [EraseAfter] at [end()] reads through
    null; [InsertAfter] at [end()] asks [new] for storage first, so it
    throws when [new] fails and reads through null when [new] has
    returned storage. *)
Theorem positions_out_of_contract m this cells val :
  is_list m this cells →
  EraseAfter this (Iterator (last_ptr this cells)) m = UB
  ∧ InsertAfter this (Iterator nullptr) val m
    = (if NDEBUG
       then match operator_new m with Some _ => UB | None => Throw m end
       else Abort)
  ∧ EraseAfter this (Iterator nullptr) m = (if NDEBUG then UB else Abort).
Proof.
  intros Hl. split_and!.
  - rewrite <- (app_nil_r cells) in Hl.
    destruct (pos_load_list _ _ _ _ Hl) as (n & Hload & Hn).
    unfold EraseAfter. simpl.
    rewrite bool_decide_eq_false_2 by apply last_ptr_not_null.
    erewrite bind_Ret by apply assert_true.
    erewrite bind_Ret by exact Hload. by rewrite Hn.
  - unfold InsertAfter, bind, assert, new_Node. simpl.
    destruct NDEBUG; [simpl | done]. by destruct (operator_new m).
  - unfold EraseAfter, bind, assert. simpl. by destruct NDEBUG.
Qed.

(** ** Whole-list operations *)

Lemma PopFront_heap m σ this x vx post m' :
  models m σ → σ !! this = Some ((x, vx) :: post) →
  PopFront this m = Ret tt m' → heap m' = delete x (heap m).
Proof.
  intros Hm Hσ Hrun.
  pose proof (models_list _ _ Hm _ _ Hσ) as Hl.
  pose proof (is_list_cell m this [] x vx post Hl) as Hx.
  destruct Hl as (s & Hs & Hc & Hsz).
  destruct (PopFront_run m this s x vx _ Hs (chain_heads _ _ _ Hc) Hx)
    as (o' & Hrun'); [rewrite Hsz; simpl; lia|].
  rewrite Hrun in Hrun'. by injection Hrun' as ->.
Qed.

Lemma Clear_empty fuel m this :
  is_list m this [] → (0 < fuel)%nat → Clear fuel this m = Ret tt m.
Proof.
  intros (s & Hs & Hc & _) Hfuel. destruct fuel as [|fuel]; [lia|]. simpl.
  erewrite bind_Ret by (by apply load_head).
  by rewrite (chain_heads _ _ _ Hc).
Qed.

Lemma Clear_releases cells : ∀ fuel m σ this,
  models m σ → σ !! this = Some cells → (length cells < fuel)%nat →
  ∃ m', Clear fuel this m = Ret tt m'
      ∧ world m' = world m
      ∧ models m' (<[this := []]> σ)
      ∧ ∀ a, heap m' !! a
             = if decide (a ∈ cells.*1) then None else heap m !! a.
Proof.
  induction cells as [|[x vx] post IH]; intros fuel m σ this Hm Hσ Hfuel.
  - exists m. rewrite insert_id by done.
    split_and!; [|done|done|done].
    apply Clear_empty; [by eapply models_list | lia].
  - destruct fuel as [|fuel]; [simpl in Hfuel; lia|]. simpl.
    destruct (models_list _ _ Hm _ _ Hσ) as (s & Hs & Hc & _).
    erewrite bind_Ret by (by apply load_head).
    rewrite (chain_heads _ _ _ Hc). simpl.
    destruct (PopFront_ok m σ this x vx post Hm Hσ) as (m1 & Hpop & Hw1 & Hm1).
    pose proof (PopFront_heap _ _ _ _ _ _ _ Hm Hσ Hpop) as Hh1.
    erewrite bind_Ret by exact Hpop.
    destruct (IH fuel m1 _ this Hm1 (lookup_insert_eq _ _ _))
      as (m' & Hclear & Hw' & Hm' & Hh'); [simpl in Hfuel; lia|].
    exists m'. rewrite insert_insert_eq in Hm'.
    split_and!; [done | congruence | done |].
    intros a. rewrite Hh', Hh1.
    change (((x, vx) :: post).*1) with (x :: post.*1).
    destruct (decide (a ∈ post.*1)) as [Hin|Hnin].
    + rewrite decide_True; [done | by right].
    + destruct (decide (a = x)) as [->|Hne].
      * rewrite lookup_delete_eq, decide_True; [done | by left].
      * rewrite lookup_delete_ne, decide_False; [done | | done].
        by intros [?|?]%elem_of_cons.
Qed.

(** X10: [Clear()] empties the list: afterwards [GetSize()] is 0 and
    [IsEmpty()] holds, every other list is as before, exactly the nodes
    of the list have been given back to the heap, and a second [Clear()]
    changes nothing. *)
Theorem Clear_empties_and_releases m σ this cells fuel :
  models m σ → σ !! this = Some cells → (length cells < fuel)%nat →
  ∃ m',
    Clear fuel this m = Ret tt m'
    ∧ models m' (<[this := []]> σ)
    ∧ GetSize this m' = Ret 0 m'
    ∧ IsEmpty this m' = Ret true m'
    ∧ (∀ a, heap m' !! a
            = if decide (a ∈ cells.*1) then None else heap m !! a)
    ∧ Clear fuel this m' = Ret tt m'.
Proof.
  intros Hm Hσ Hfuel.
  destruct (Clear_releases cells fuel m σ this Hm Hσ Hfuel)
    as (m' & Hrun & _ & Hm' & Hh).
  pose proof (models_list _ _ Hm' this _ (lookup_insert_eq _ _ _)) as Hl'.
  exists m'. split_and!; [done | done | | | done |].
  - destruct Hl' as (s & Hs & _ & Hsz). unfold GetSize.
    erewrite get_size_ok by done. by rewrite Hsz.
  - destruct Hl' as (s & Hs & _ & Hsz). unfold IsEmpty.
    erewrite bind_Ret by (by apply get_size_ok). by rewrite Hsz.
  - apply Clear_empty; [done | lia].
Qed.

(** X11: [swap] exchanges the element sequences and sizes of two lists
    without touching a node or any other list; the non-member [swap] does
    the same, and swapping twice gives back both lists. *)
Theorem swap_exchanges m σ a b ca cb :
  models m σ → σ !! a = Some ca → σ !! b = Some cb →
  ∃ m' m'',
    swap a b m = Ret tt m'
    ∧ swap_nonmember a b m = Ret tt m'
    ∧ heap m' = heap m
    ∧ models m' (<[a := cb]> (<[b := ca]> σ))
    ∧ is_list m' a cb ∧ is_list m' b ca
    ∧ swap a b m' = Ret tt m''
    ∧ heap m'' = heap m
    ∧ models m'' σ.
Proof.
  intros Hm Ha Hb.
  destruct (swap_ok m σ a b ca cb Hm Ha Hb) as (m' & Hrun & _ & Hh & Hm').
  assert (Ha' : <[a := cb]> (<[b := ca]> σ) !! a = Some cb)
    by apply lookup_insert_eq.
  assert (Hb' : <[a := cb]> (<[b := ca]> σ) !! b = Some ca).
  { destruct (decide (a = b)) as [->|Hne].
    - rewrite lookup_insert_eq. congruence.
    - rewrite lookup_insert_ne by done. apply lookup_insert_eq. }
  destruct (swap_ok m' _ a b cb ca Hm' Ha' Hb')
    as (m'' & Hrun' & _ & Hh' & Hm'').
  exists m', m''.
  split_and!; [done | done | done | done | by eapply models_list
              | by eapply models_list | done | congruence |].
  replace σ with (<[a := ca]> (<[b := cb]> (<[a := cb]> (<[b := ca]> σ))));
    [done|].
  apply map_eq. intros l. rewrite !lookup_insert.
  repeat case_decide; simplify_eq; congruence.
Qed.

(** X12: the default constructor makes an empty list on its storage and
    allocates nothing. *)
Theorem default_constructor_makes_empty m σ this :
  models m σ → objs m !! this = None →
  ∃ m',
    SingleLinkedList_default this m = Ret tt m'
    ∧ heap m' = heap m
    ∧ models m' (<[this := []]> σ)
    ∧ GetSize this m' = Ret 0 m'
    ∧ IsEmpty this m' = Ret true m'
    ∧ begin this m' = Ret (Iterator nullptr) m'.
Proof.
  intros Hm Hthis.
  destruct (init_members_ok m σ this Hm Hthis) as (m' & Hrun & _ & Hh & Hm').
  pose proof (models_list _ _ Hm' this _ (lookup_insert_eq _ _ _)) as Hl'.
  pose proof (begin_ok _ _ _ Hl') as Hb.
  destruct Hl' as (s & Hs & _ & Hsz).
  exists m'. split_and!; [done | done | done | | | done].
  - unfold GetSize. erewrite get_size_ok by done. by rewrite Hsz.
  - unfold IsEmpty. erewrite bind_Ret by (by apply get_size_ok).
    by rewrite Hsz.
Qed.

Lemma copies_length xs ys : copies xs ys → length ys = length xs.
Proof. induction 1; simpl; congruence. Qed.

(** X13: the initializer-list constructor, for an element type whose
    copies equal their originals, builds the list of the given values in
    the given order, with [size_] their number; when a copy or [new]
    throws, the exception leaves the constructor, no object has been
    made, and every list is as before.  The constructor does complete,
    with that list, when [new] returns storage for as many nodes as there
    are values and no copy of a value throws. *)
Theorem initializer_list_constructor fuel m σ this values :
  (∀ w v w' v', copy_ctor w v = (w', Some v') → v' = v) →
  models m σ → objs m !! this = None → (length values < fuel)%nat →
  ends_with (SingleLinkedList_init fuel this values m)
    (λ _ m', ∃ c, models m' (<[this := c]> σ)
                  ∧ c.*2 = values
                  ∧ GetSize this m' = Ret (Z.of_nat (length values)) m')
    (λ m', models m' σ ∧ objs m' !! this = None)
  ∧ (∀ capacity,
       new_succeeds_below capacity →
       (size (heap m) + length values ≤ capacity)%nat →
       copies_succeed values →
       ∃ m', SingleLinkedList_init fuel this values m = Ret tt m'
             ∧ ∃ c, models m' (<[this := c]> σ)
                    ∧ c.*2 = values
                    ∧ GetSize this m' = Ret (Z.of_nat (length values)) m').
Proof.
  intros Hfaith Hm Hthis Hfuel.
  assert (Hspec : ends_with (SingleLinkedList_init fuel this values m)
    (λ _ m', ∃ c, models m' (<[this := c]> σ)
                  ∧ c.*2 = values
                  ∧ GetSize this m' = Ret (Z.of_nat (length values)) m')
    (λ m', models m' σ ∧ objs m' !! this = None)).
  { eapply ends_mono;
      [by apply (SingleLinkedList_init_spec fuel m σ this values) | |]; simpl.
    - intros _ m' (c & Hm' & Hcp). exists c.
      pose proof (copies_faithful _ _ Hfaith Hcp) as Hval.
      split_and!; [done | done |].
      destruct (models_list _ _ Hm' this _ (lookup_insert_eq _ _ _))
        as (s & Hs & _ & Hsz).
      unfold GetSize. erewrite get_size_ok by done.
      by rewrite Hsz, <- Hval, length_fmap.
    - intros m' Hm'. split; [done|].
      apply not_elem_of_dom. rewrite (models_dom _ _ Hm').
      apply not_elem_of_dom. apply (models_fresh_obj _ _ _ Hm Hthis). }
  split; [exact Hspec|].
  intros capacity Hnew Hcap Hcopy.
  destruct (ends_no_throw _ _ _ Hspec) as ([] & m' & Hrun & HQ);
    [by eapply SingleLinkedList_init_no_throw|].
  by exists m'.
Qed.

(** X14: the copy constructor, for an element type whose copies equal
    their originals, makes a deep copy: the new list has the values of
    the source in the same order on nodes of its own, the source is
    unchanged, and clearing the copy afterwards leaves the source as it
    is.  When a copy or [new] throws, no object has been made and every
    list is as before.  The constructor does complete, with that copy,
    when [new] returns storage for as many nodes as the source has
    elements and no copy of an element of the source throws. *)
Theorem copy_constructor_deep_copy fuel m σ this other co :
  (∀ w v w' v', copy_ctor w v = (w', Some v') → v' = v) →
  models m σ → objs m !! this = None → σ !! other = Some co →
  (length co < fuel)%nat →
  ends_with (SingleLinkedList_copy fuel this other m)
    (λ _ m', ∃ c m'',
       models m' (<[this := c]> σ)
       ∧ c.*2 = co.*2
       ∧ (∀ a, a ∈ c.*1 → a ∉ co.*1)
       ∧ is_list m' other co
       ∧ Clear fuel this m' = Ret tt m''
       ∧ is_list m'' other co)
    (λ m', models m' σ ∧ objs m' !! this = None)
  ∧ (∀ capacity,
       new_succeeds_below capacity →
       (size (heap m) + length co ≤ capacity)%nat →
       copies_succeed co.*2 →
       ∃ m', SingleLinkedList_copy fuel this other m = Ret tt m'
             ∧ ∃ c m'',
                 models m' (<[this := c]> σ)
                 ∧ c.*2 = co.*2
                 ∧ (∀ a, a ∈ c.*1 → a ∉ co.*1)
                 ∧ is_list m' other co
                 ∧ Clear fuel this m' = Ret tt m''
                 ∧ is_list m'' other co).
Proof.
  intros Hfaith Hm Hthis Hother Hfuel.
  pose proof (models_fresh_obj _ _ _ Hm Hthis) as Hσ.
  assert (other ≠ this) as Hne by (intros ->; congruence).
  assert (Hspec : ends_with (SingleLinkedList_copy fuel this other m)
    (λ _ m', ∃ c m'',
       models m' (<[this := c]> σ)
       ∧ c.*2 = co.*2
       ∧ (∀ a, a ∈ c.*1 → a ∉ co.*1)
       ∧ is_list m' other co
       ∧ Clear fuel this m' = Ret tt m''
       ∧ is_list m'' other co)
    (λ m', models m' σ ∧ objs m' !! this = None)).
  { eapply ends_mono;
      [by apply (SingleLinkedList_copy_spec fuel m σ this other co) | |]; simpl.
    - intros _ m' (c & Hm' & Hcp).
      pose proof (copies_faithful _ _ Hfaith Hcp) as Hval.
      assert (Hother' : <[this := c]> σ !! other = Some co)
        by (by rewrite lookup_insert_ne).
      destruct (Clear_ok c fuel m' _ this Hm' (lookup_insert_eq _ _ _))
        as (m'' & Hclr & _ & Hm'').
      { apply (f_equal length) in Hval. rewrite !length_fmap in Hval. lia. }
      exists c, m''. split_and!; [done | done | | | done |].
      + intros a Ha Ha'.
        by eapply (models_sep _ _ Hm' this other c co);
          [ | apply lookup_insert_eq | | |].
      + by eapply models_list.
      + apply (models_list _ _ Hm''). by rewrite !lookup_insert_ne.
    - intros m' Hm'. split; [done|].
      apply not_elem_of_dom. rewrite (models_dom _ _ Hm').
      by apply not_elem_of_dom. }
  split; [exact Hspec|].
  intros capacity Hnew Hcap Hcopy.
  destruct (ends_no_throw _ _ _ Hspec) as ([] & m' & Hrun & HQ);
    [by eapply SingleLinkedList_copy_no_throw|].
  by exists m'.
Qed.

(** X15: the destructor gives every node of the list back to the heap,
    and only those; the object is gone and the other lists are as
    before. *)
Theorem destructor_releases_nodes m σ this cells fuel :
  models m σ → σ !! this = Some cells → (length cells < fuel)%nat →
  ∃ m',
    SingleLinkedList_destroy fuel this m = Ret tt m'
    ∧ models m' (delete this σ)
    ∧ objs m' !! this = None
    ∧ ∀ a, heap m' !! a
           = if decide (a ∈ cells.*1) then None else heap m !! a.
Proof.
  intros Hm Hσ Hfuel.
  destruct (Clear_releases cells fuel m σ this Hm Hσ Hfuel)
    as (m1 & Hrun & _ & Hm1 & Hh).
  exists (release this m1). unfold SingleLinkedList_destroy.
  erewrite bind_Ret by exact Hrun.
  split_and!; [done | | apply lookup_delete_eq | done].
  apply (release_ok _ _ this) in Hm1. by rewrite delete_insert_eq in Hm1.
Qed.

(** ** Comparison operators *)

Lemma equal_prefix_true xs : ∀ ys,
  equal_prefix xs ys = Some true ↔
  ∃ ys1 ys2, ys = ys1 ++ ys2 ∧ seq_equal xs ys1.
Proof.
  unfold seq_equal. induction xs as [|x xs IH]; intros ys; simpl.
  - split; [|done]. intros _. exists [], ys. split; [done | constructor].
  - destruct ys as [|y ys].
    + split; [done|]. intros (ys1 & ys2 & Hys & Heq).
      inversion Heq; subst. discriminate.
    + destruct (eqT x y) eqn:Hxy.
      * rewrite IH. split.
        -- intros (ys1 & ys2 & -> & Heq). exists (y :: ys1), ys2.
           split; [done | by constructor].
        -- intros (ys1 & ys2 & Hys & Heq). inversion Heq; subst.
           simplify_eq/=. eauto.
      * split; [done|]. intros (ys1 & ys2 & Hys & Heq).
        inversion Heq; subst. simplify_eq/=. congruence.
Qed.

Lemma equal_prefix_None xs : ∀ ys,
  equal_prefix xs ys = None ↔
  ∃ xs1 x xs2, xs = xs1 ++ x :: xs2 ∧ seq_equal xs1 ys.
Proof.
  unfold seq_equal. induction xs as [|x xs IH]; intros ys; simpl.
  - split; [done|]. intros (xs1 & x & xs2 & Hxs & _). by destruct xs1.
  - destruct ys as [|y ys].
    + split; [|done]. intros _. exists [], x, xs. split; [done | constructor].
    + destruct (eqT x y) eqn:Hxy.
      * rewrite IH. split.
        -- intros (xs1 & x' & xs2 & -> & Heq). exists (x :: xs1), x', xs2.
           split; [done | by constructor].
        -- intros (xs1 & x' & xs2 & Hxs & Heq). inversion Heq; subst.
           simplify_eq/=. eauto.
      * split; [done|]. intros (xs1 & x' & xs2 & Hxs & Heq).
        inversion Heq; subst. simplify_eq/=. congruence.
Qed.

Lemma equal_prefix_refl xs :
  (∀ x, eqT x x = true) → equal_prefix xs xs = Some true.
Proof. intros Hrefl. induction xs as [|x xs IH]; simpl; [done|]. by rewrite Hrefl. Qed.

(** X16: what [==] computes.  It returns [true] exactly when the left
    list is element-wise equal to a front part of the right list.  On
    lists of one length it therefore decides element-wise equality, and
    [!=] is its negation.  When the left list is longer and the right
    list equals its front part, the comparison reads through the null end
    of the right list. *)
Theorem operator_eq_compares_prefix fuel m lhs rhs cl cr :
  is_list m lhs cl → is_list m rhs cr → (length cl < fuel)%nat →
  (operator_eq fuel lhs rhs m = Ret true m ↔
     ∃ ys1 ys2, cr.*2 = ys1 ++ ys2 ∧ seq_equal cl.*2 ys1)
  ∧ (operator_eq fuel lhs rhs m = UB ↔
       ∃ xs1 x xs2, cl.*2 = xs1 ++ x :: xs2 ∧ seq_equal xs1 cr.*2)
  ∧ (length cl = length cr →
       ∃ b, operator_eq fuel lhs rhs m = Ret b m
            ∧ operator_ne fuel lhs rhs m = Ret (negb b) m
            ∧ (b = true ↔ seq_equal cl.*2 cr.*2)).
Proof.
  intros Hl Hr Hfuel.
  pose proof (operator_eq_spec fuel m lhs rhs cl cr Hl Hr Hfuel) as Heq.
  split_and!.
  - rewrite <- equal_prefix_true, Heq.
    destruct (equal_prefix cl.*2 cr.*2) as [[]|]; split; congruence.
  - rewrite <- equal_prefix_None, Heq.
    destruct (equal_prefix cl.*2 cr.*2) as [[]|]; split; congruence.
  - intros Hlen.
    destruct (equal_prefix_same_length cl.*2 cr.*2) as (b & Hb & Hiff).
    { by rewrite !length_fmap. }
    rewrite Hb in Heq. exists b.
    split_and!; [done | by apply operator_ne_spec | done].
Qed.

Lemma lex_ltb_irrefl xs : (∀ x, ltT x x = false) → lex_ltb xs xs = false.
Proof. intros Hirr. induction xs as [|x xs IH]; simpl; [done|]. by rewrite Hirr. Qed.

Lemma lex_ltb_asym xs : ∀ ys,
  (∀ x y, ltT x y = true → ltT y x = false) →
  lex_ltb xs ys = true → lex_ltb ys xs = false.
Proof.
  intros ys Hasym. revert ys.
  induction xs as [|x xs IH]; intros [|y ys]; simpl; try done.
  destruct (ltT x y) eqn:Hxy.
  - by rewrite (Hasym _ _ Hxy).
  - destruct (ltT y x) eqn:Hyx; [done|]. apply IH.
Qed.

Lemma lex_ltb_trans xs : ∀ ys zs,
  (∀ x y, ltT x y = true → ltT y x = false) →
  (∀ x y z, ltT x y = true → ltT y z = true → ltT x z = true) →
  (∀ x y z, ltT x y = false → ltT y x = false →
            ltT y z = false → ltT z y = false →
            ltT x z = false ∧ ltT z x = false) →
  lex_ltb xs ys = true → lex_ltb ys zs = true → lex_ltb xs zs = true.
Proof.
  intros ys zs Hasym Htrans Hinc. revert ys zs.
  induction xs as [|x xs IH]; intros [|y ys] [|z zs]; simpl; try done.
  destruct (ltT x y) eqn:Hxy.
  - intros _. destruct (ltT y z) eqn:Hyz.
    + intros _. by rewrite (Htrans _ _ _ Hxy Hyz).
    + destruct (ltT z y) eqn:Hzy; [done|]. intros _.
      destruct (ltT x z) eqn:Hxz; [done|]. exfalso.
      destruct (ltT z x) eqn:Hzx.
      * pose proof (Htrans _ _ _ Hzx Hxy). congruence.
      * destruct (Hinc x z y Hxz Hzx Hzy Hyz). congruence.
  - destruct (ltT y x) eqn:Hyx; [done|]. intros Hxs.
    destruct (ltT y z) eqn:Hyz.
    + intros _. destruct (ltT x z) eqn:Hxz; [done|]. exfalso.
      destruct (ltT z x) eqn:Hzx.
      * pose proof (Htrans _ _ _ Hyz Hzx). congruence.
      * destruct (Hinc y x z Hyx Hxy Hxz Hzx). congruence.
    + destruct (ltT z y) eqn:Hzy; [done|]. intros Hys.
      destruct (Hinc x y z Hxy Hyx Hyz Hzy) as [-> ->].
      by eapply IH.
Qed.

(** X17: when the element [<] is a strict weak ordering (asymmetric,
    transitive, with transitive incomparability), so is [<] on lists:
    [a < a] is false, [a < b] excludes [b < a], and [a < b], [b < c] give
    [a < c]; moreover [a <= a] and [a >= a] hold. *)
Theorem operator_lt_strict_weak_order fuel m a b c ca cb cc :
  (∀ x y, ltT x y = true → ltT y x = false) →
  (∀ x y z, ltT x y = true → ltT y z = true → ltT x z = true) →
  (∀ x y z, ltT x y = false → ltT y x = false →
            ltT y z = false → ltT z y = false →
            ltT x z = false ∧ ltT z x = false) →
  is_list m a ca → is_list m b cb → is_list m c cc →
  (length ca < fuel)%nat → (length cb < fuel)%nat →
  operator_lt fuel a a m = Ret false m
  ∧ operator_le fuel a a m = Ret true m
  ∧ operator_ge fuel a a m = Ret true m
  ∧ (operator_lt fuel a b m = Ret true m →
     operator_lt fuel b a m = Ret false m)
  ∧ (operator_lt fuel a b m = Ret true m →
     operator_lt fuel b c m = Ret true m →
     operator_lt fuel a c m = Ret true m).
Proof.
  intros Hasym Htrans Hinc Ha Hb Hc Hfa Hfb.
  assert (Hirr : ∀ x, ltT x x = false).
  { intros x. destruct (ltT x x) eqn:Hx; [|done]. by rewrite (Hasym _ _ Hx) in Hx. }
  pose proof (operator_lt_spec fuel m a a ca ca Ha Ha Hfa) as Haa.
  rewrite lex_ltb_irrefl in Haa by done.
  rewrite (operator_lt_spec fuel m a b ca cb Ha Hb Hfa).
  rewrite (operator_lt_spec fuel m b a cb ca Hb Ha Hfb).
  rewrite (operator_lt_spec fuel m b c cb cc Hb Hc Hfb).
  rewrite (operator_lt_spec fuel m a c ca cc Ha Hc Hfa).
  split_and!.
  - done.
  - unfold operator_le. by erewrite bind_Ret by exact Haa.
  - unfold operator_ge, operator_gt.
    erewrite (bind_Ret (bind _ _)) by (by erewrite bind_Ret by exact Haa).
    done.
  - intros [= H]. by rewrite (lex_ltb_asym _ _ Hasym H).
  - intros [= H1] [= H2]. by rewrite (lex_ltb_trans _ _ _ Hasym Htrans Hinc H1 H2).
Qed.

(** X18: after an assignment [a = b] that completes, for an element type
    whose copies equal their originals and whose [==] is reflexive,
    [a == b] and [b == a] are true and [a != b] is false. *)
Theorem assignment_makes_equal fuel m σ a b ca cb :
  (∀ w v w' v', copy_ctor w v = (w', Some v') → v' = v) →
  (∀ x, eqT x x = true) →
  models m σ → σ !! a = Some ca → σ !! b = Some cb → a ≠ b →
  (length ca < fuel)%nat → (length cb < fuel)%nat →
  ends_with (operator_assign fuel a b m)
    (λ _ m', operator_eq fuel a b m' = Ret true m'
             ∧ operator_eq fuel b a m' = Ret true m'
             ∧ operator_ne fuel a b m' = Ret false m')
    (λ _, True).
Proof.
  intros Hfaith Hrefl Hm Ha Hb Hne Hfa Hfb.
  eapply ends_mono;
    [by apply (operator_assign_spec fuel m σ a b ca cb) | | done]; simpl.
  intros _ m' (c & Hm' & Hcp).
  pose proof (copies_faithful _ _ Hfaith Hcp) as Hval.
  pose proof (models_list _ _ Hm' a c (lookup_insert_eq _ _ _)) as Hla.
  assert (is_list m' b cb) as Hlb.
  { apply (models_list _ _ Hm'). by rewrite lookup_insert_ne. }
  assert (length c = length cb) as Hlen.
  { apply (f_equal length) in Hval. by rewrite !length_fmap in Hval. }
  assert (Hab : operator_eq fuel a b m' = Ret true m').
  { rewrite (operator_eq_spec fuel m' a b c cb Hla Hlb) by lia.
    by rewrite Hval, equal_prefix_refl. }
  split_and!; [done | | by apply (operator_ne_spec _ _ _ _ true)].
  rewrite (operator_eq_spec fuel m' b a cb c Hlb Hla) by lia.
  by rewrite Hval, equal_prefix_refl.
Qed.

(** X19: a list made by the copy constructor compares equal to its
    source, in both directions, for an element type whose copies equal
    their originals and whose [==] is reflexive. *)
Theorem copy_constructed_equals_source fuel m σ this other co :
  (∀ w v w' v', copy_ctor w v = (w', Some v') → v' = v) →
  (∀ x, eqT x x = true) →
  models m σ → objs m !! this = None → σ !! other = Some co →
  (length co < fuel)%nat →
  ends_with (SingleLinkedList_copy fuel this other m)
    (λ _ m', operator_eq fuel this other m' = Ret true m'
             ∧ operator_eq fuel other this m' = Ret true m'
             ∧ operator_ne fuel this other m' = Ret false m')
    (λ _, True).
Proof.
  intros Hfaith Hrefl Hm Hthis Hother Hfuel.
  pose proof (models_fresh_obj _ _ _ Hm Hthis) as Hσ.
  assert (other ≠ this) as Hne by (intros ->; congruence).
  eapply ends_mono;
    [by apply (SingleLinkedList_copy_spec fuel m σ this other co) | | done];
    simpl.
  intros _ m' (c & Hm' & Hcp).
  pose proof (copies_faithful _ _ Hfaith Hcp) as Hval.
  pose proof (models_list _ _ Hm' this c (lookup_insert_eq _ _ _)) as Hla.
  assert (is_list m' other co) as Hlb.
  { apply (models_list _ _ Hm'). by rewrite lookup_insert_ne. }
  assert (length c = length co) as Hlen.
  { apply (f_equal length) in Hval. by rewrite !length_fmap in Hval. }
  assert (Hab : operator_eq fuel this other m' = Ret true m').
  { rewrite (operator_eq_spec fuel m' this other c co Hla Hlb) by lia.
    by rewrite Hval, equal_prefix_refl. }
  split_and!; [done | | by apply (operator_ne_spec _ _ _ _ true)].
  rewrite (operator_eq_spec fuel m' other this co c Hlb Hla) by lia.
  by rewrite Hval, equal_prefix_refl.
Qed.

(** ** No node is leaked *)

(** *** The steps keep the memory tight *)

Lemma tight_list m σ (Ht : tight m σ) l cells :
  σ !! l = Some cells → is_list m l cells.
Proof. destruct Ht as [Hm _]. by apply models_list. Qed.

Lemma tight_fresh_obj m σ l : tight m σ → objs m !! l = None → σ !! l = None.
Proof. intros [Hm _]. by apply models_fresh_obj. Qed.

Lemma no_garbage_update m m' σ this old new :
  no_garbage m σ → σ !! this = Some old →
  (∀ b, is_Some (heap m' !! b) →
        b ∈ new.*1 ∨ (is_Some (heap m !! b) ∧ b ∉ old.*1)) →
  no_garbage m' (<[this := new]> σ).
Proof.
  intros Hg Hold Hdom b Hb. destruct (Hdom b Hb) as [Hin|[Hb' Hnin]].
  - exists this, new. by rewrite lookup_insert_eq.
  - destruct (Hg b Hb') as (l & c & Hl & Hc). exists l, c.
    rewrite lookup_insert_ne; [done|]. intros <-. by simplify_eq.
Qed.

Lemma tight_InsertAfter_spec m σ this pre post val :
  tight m σ → σ !! this = Some (pre ++ post) →
  ends_with (InsertAfter this (Iterator (last_ptr this pre)) val m)
    (λ it m', ∃ a v, it = Iterator (node_at a)
                     ∧ operator_new m = Some a
                     ∧ copy_ctor (world m) val = (world m', Some v)
                     ∧ tight m' (<[this := pre ++ (a, v) :: post]> σ))
    (λ m', heap m' = heap m ∧ objs m' = objs m ∧ tight m' σ).
Proof.
  intros [Hm Hg] Hσ.
  pose proof (InsertAfter_spec m σ this pre post val Hm Hσ) as Hspec.
  destruct (InsertAfter this (Iterator (last_ptr this pre)) val m)
    as [it m'|m'| | |] eqn:Hrun; simpl in *; try done.
  - destruct Hspec as (a & v & -> & Hnew & Hcopy & Hm').
    exists a, v. split; [done|]. split; [done|]. split; [done|].
    split; [exact Hm'|].
    eapply no_garbage_update; [exact Hg | exact Hσ |].
    intros b Hb.
    destruct (InsertAfter_Ret_heap _ _ _ _ _ _ Hrun b Hb) as [Hb'|Hb'].
    + left. simplify_eq. rewrite !fmap_app. simpl.
      rewrite elem_of_app, elem_of_cons. by right; left.
    + destruct (decide (b ∈ (pre ++ post).*1)) as [Hin|Hnin]; [|by right].
      left. revert Hin. rewrite !fmap_app. simpl.
      rewrite !elem_of_app, elem_of_cons. intros [?|?]; [by left|].
      by right; right.
  - destruct Hspec as (Hh & Ho & Hm'). split; [done|]. split; [done|].
    split; [exact Hm'|]. intros b. rewrite Hh. apply Hg.
Qed.

Lemma tight_EraseAfter_ok m σ this pre x vx post :
  tight m σ → σ !! this = Some (pre ++ (x, vx) :: post) →
  ∃ m', EraseAfter this (Iterator (last_ptr this pre)) m
        = Ret (Iterator (first_ptr post)) m'
      ∧ world m' = world m
      ∧ tight m' (<[this := pre ++ post]> σ).
Proof.
  intros [Hm Hg] Hσ.
  destruct (EraseAfter_ok m σ this pre x vx post Hm Hσ) as (m' & Hrun & Hw & Hm').
  exists m'. split; [done|]. split; [done|]. split; [exact Hm'|].
  destruct (EraseAfter_Ret_heap _ _ _ _ _ Hrun) as (n & x' & Hload & Hn & Hdom).
  pose proof (models_list _ _ Hm _ _ Hσ) as Hl.
  destruct (pos_load_list _ _ _ _ Hl) as (n' & Hload' & Hn').
  simpl in *. rewrite Hload in Hload'. simplify_eq. rewrite Hn in Hn'.
  simpl in Hn'. injection Hn' as ->.
  eapply no_garbage_update; [done | done |].
  intros b [Hbx Hb]%Hdom.
  destruct (decide (b ∈ (pre ++ (x, vx) :: post).*1)) as [Hin|Hnin];
    [|by right].
  left. revert Hin. rewrite !fmap_app. simpl.
  rewrite !elem_of_app, elem_of_cons. intros [?|[?|?]]; [by left | done|].
  by right.
Qed.

Lemma tight_PopFront_ok m σ this x vx post :
  tight m σ → σ !! this = Some ((x, vx) :: post) →
  ∃ m', PopFront this m = Ret tt m'
      ∧ world m' = world m
      ∧ tight m' (<[this := post]> σ).
Proof.
  intros [Hm Hg] Hσ.
  destruct (PopFront_ok m σ this x vx post Hm Hσ) as (m' & Hrun & Hw & Hm').
  pose proof (PopFront_heap _ _ _ _ _ _ _ Hm Hσ Hrun) as Hh.
  exists m'. split; [done|]. split; [done|]. split; [exact Hm'|].
  eapply no_garbage_update; [done | done |].
  intros b. rewrite Hh. intros [n [Hbx Hb]%lookup_delete_Some].
  destruct (decide (b ∈ ((x, vx) :: post).*1)) as [Hin|Hnin];
    [|right; eauto].
  left. simpl in Hin. by apply elem_of_cons in Hin as [?|?].
Qed.

Lemma tight_Clear_ok cells fuel m σ this :
  tight m σ → σ !! this = Some cells → (length cells < fuel)%nat →
  ∃ m', Clear fuel this m = Ret tt m'
      ∧ world m' = world m
      ∧ tight m' (<[this := []]> σ).
Proof.
  intros [Hm Hg] Hσ Hfuel.
  destruct (Clear_releases cells fuel m σ this Hm Hσ Hfuel)
    as (m' & Hrun & Hw & Hm' & Hh).
  exists m'. split; [done|]. split; [done|]. split; [exact Hm'|].
  eapply no_garbage_update; [exact Hg | exact Hσ |].
  intros b. rewrite Hh. case_decide; [by intros [? ?]|]. by right.
Qed.

Lemma tight_release_ok m σ this :
  tight m σ → σ !! this = Some [] → tight (release this m) (delete this σ).
Proof.
  intros [Hm Hg] Hσ. split; [by apply release_ok|].
  intros b Hb. destruct (Hg b Hb) as (l & c & Hl & Hc). exists l, c.
  rewrite lookup_delete_ne; [done|]. intros <-. simplify_eq.
  by apply elem_of_nil in Hc.
Qed.

Lemma tight_destroy_ok m σ this cells fuel :
  tight m σ → σ !! this = Some cells → (length cells < fuel)%nat →
  ∃ m', SingleLinkedList_destroy fuel this m = Ret tt m'
      ∧ world m' = world m
      ∧ tight m' (delete this σ).
Proof.
  intros Hm Hσ Hfuel.
  destruct (tight_Clear_ok cells fuel m σ this Hm Hσ Hfuel)
    as (m1 & Hc & Hw & Hm1).
  exists (release this m1). unfold SingleLinkedList_destroy.
  erewrite bind_Ret by exact Hc.
  split; [done|]. split; [done|].
  apply (tight_release_ok _ _ this) in Hm1; [|apply lookup_insert_eq].
  by rewrite delete_insert_eq in Hm1.
Qed.

Lemma tight_init_members_ok m σ this :
  tight m σ → objs m !! this = None →
  ∃ m', init_members this m = Ret tt m'
      ∧ world m' = world m ∧ heap m' = heap m
      ∧ tight m' (<[this := []]> σ).
Proof.
  intros [Hm Hg] Hthis.
  destruct (init_members_ok m σ this Hm Hthis) as (m' & Hrun & Hw & Hh & Hm').
  exists m'. split; [done|]. split; [done|]. split; [done|].
  split; [exact Hm'|].
  intros b. rewrite Hh. intros Hb.
  destruct (Hg b Hb) as (l & c & Hl & Hc). exists l, c.
  rewrite lookup_insert_ne; [done|]. intros <-.
  rewrite (models_fresh_obj _ _ _ Hm Hthis) in Hl. done.
Qed.

Lemma tight_swap_ok m σ a b ca cb :
  tight m σ → σ !! a = Some ca → σ !! b = Some cb →
  ∃ m', swap a b m = Ret tt m'
      ∧ world m' = world m ∧ heap m' = heap m
      ∧ tight m' (<[a := cb]> (<[b := ca]> σ)).
Proof.
  intros [Hm Hg] Ha Hb.
  destruct (swap_ok m σ a b ca cb Hm Ha Hb) as (m' & Hrun & Hw & Hh & Hm').
  exists m'. split; [done|]. split; [done|]. split; [done|].
  split; [exact Hm'|].
  intros x. rewrite Hh. intros Hx.
  destruct (Hg x Hx) as (l & c & Hl & Hc).
  destruct (decide (l = a)) as [->|Hla].
  { exists b, c. simplify_eq. split; [|done].
    destruct (decide (a = b)) as [->|Hab].
    - rewrite lookup_insert_eq. congruence.
    - rewrite lookup_insert_ne by done. by rewrite lookup_insert_eq. }
  destruct (decide (l = b)) as [->|Hlb].
  { exists a, c. simplify_eq. by rewrite lookup_insert_eq. }
  exists l, c. by rewrite !lookup_insert_ne.
Qed.

(** *** The loops, the constructors and assignment keep it tight *)

Lemma tight_InsetAfterListItems_loop_spec values : ∀ m σ tmp done,
  tight m σ → σ !! tmp = Some done →
  ends_with (InsetAfterListItems_loop tmp (Iterator (last_ptr tmp done)) values m)
    (λ _ m', ∃ new, tight m' (<[tmp := done ++ new]> σ)
                    ∧ copies values new.*2)
    (λ m', ∃ c, tight m' (<[tmp := c]> σ)
                ∧ (length c ≤ length done + length values)%nat).
Proof.
  induction values as [|v0 values IH]; intros m σ tmp done Hm Hσ; simpl.
  - exists []. rewrite app_nil_r, insert_id by done. split; [done | constructor].
  - eapply ends_bind.
    { apply (tight_InsertAfter_spec m σ tmp done [] v0 Hm).
      by rewrite app_nil_r. }
    { simpl. intros m' (_ & _ & Hm'). exists done. rewrite insert_id by done.
      split; [done | lia]. }
    simpl. intros it m1 (a & v & -> & _ & Hcopy & Hm1).
    rewrite <- (last_ptr_snoc tmp done a v).
    eapply ends_mono; [apply (IH m1 _ tmp _ Hm1 (lookup_insert_eq _ _ _))| |];
      simpl.
    + intros _ m' (new & Hm' & Hcp). exists ((a, v) :: new).
      rewrite insert_insert_eq, <- app_assoc in Hm'.
      split; [done | by econstructor].
    + intros m' (c & Hm' & Hlen). exists c.
      rewrite insert_insert_eq in Hm'. rewrite length_app in Hlen.
      simpl in Hlen. split; [done | lia].
Qed.

Lemma tight_InsetAfterListItems_list_loop_spec rest :
  ∀ fuel m σ tmp done container seen,
  tight m σ → σ !! tmp = Some done →
  σ !! container = Some (seen ++ rest) → container ≠ tmp →
  (length rest < fuel)%nat →
  ends_with (InsetAfterListItems_list_loop fuel tmp
          (Iterator (last_ptr tmp done)) container
          (Iterator (first_ptr rest)) m)
    (λ _ m', ∃ new, tight m' (<[tmp := done ++ new]> σ)
                    ∧ copies rest.*2 new.*2)
    (λ m', ∃ c, tight m' (<[tmp := c]> σ)
                ∧ (length c ≤ length done + length rest)%nat).
Proof.
  induction rest as [|[x vx] rest IH];
    intros fuel m σ tmp done container seen Hm Hσ Hcont Hne Hfuel;
    (destruct fuel as [|fuel]; [simpl in Hfuel; lia|]); simpl.
  - exists []. rewrite app_nil_r, insert_id by done. split; [done | constructor].
  - pose proof (is_list_cell _ _ _ _ _ _ (tight_list _ _ Hm _ _ Hcont)) as Hx.
    unfold end_, operator_deref. simpl.
    erewrite (bind_Ret (ret _)) by reflexivity. simpl.
    erewrite (bind_Ret (bind _ _)) by (by erewrite bind_Ret by (by apply load_node)).
    simpl.
    eapply ends_bind.
    { apply (tight_InsertAfter_spec m σ tmp done [] vx Hm).
      by rewrite app_nil_r. }
    { simpl. intros m' (_ & _ & Hm'). exists done. rewrite insert_id by done.
      split; [done | lia]. }
    simpl. intros it m1 (a & v & -> & _ & Hcopy & Hm1).
    assert (Hcont1 : <[tmp := done ++ [(a, v)]]> σ !! container
                     = Some ((seen ++ [(x, vx)]) ++ rest)).
    { rewrite lookup_insert_ne by done. by rewrite <- app_assoc. }
    pose proof (tight_list _ _ Hm1 _ _ Hcont1) as Hl1.
    rewrite <- app_assoc in Hl1. apply is_list_cell in Hl1.
    erewrite (bind_Ret (operator_incr_post _))
      by (unfold operator_incr_post, operator_incr; simpl;
          erewrite (bind_Ret (bind _ _))
            by (by erewrite bind_Ret by (by apply load_node));
          reflexivity).
    simpl. rewrite <- (last_ptr_snoc tmp done a v).
    eapply ends_mono;
      [apply (IH fuel m1 _ tmp _ container _ Hm1 (lookup_insert_eq _ _ _)
                 Hcont1 Hne); simpl in Hfuel; lia | |]; simpl.
    + intros _ m' (new & Hm' & Hcp). exists ((a, v) :: new).
      rewrite insert_insert_eq, <- app_assoc in Hm'.
      split; [done | by econstructor].
    + intros m' (c & Hm' & Hlen). exists c.
      rewrite insert_insert_eq in Hm'. rewrite length_app in Hlen.
      simpl in Hlen. split; [done | lia].
Qed.

Lemma tight_InsetAfterListItems_spec values m σ tmp :
  tight m σ → σ !! tmp = Some [] →
  ends_with (InsetAfterListItems tmp values m)
    (λ _ m', ∃ new, tight m' (<[tmp := new]> σ) ∧ copies values new.*2)
    (λ m', ∃ c, tight m' (<[tmp := c]> σ)
                ∧ (length c ≤ length values)%nat).
Proof.
  intros Hm Hσ. unfold InsetAfterListItems, cbefore_begin, bind, ret.
  apply (tight_InsetAfterListItems_loop_spec values m σ tmp [] Hm Hσ).
Qed.

Lemma tight_InsetAfterListItems_list_spec fuel m σ tmp container co :
  tight m σ → σ !! tmp = Some [] →
  σ !! container = Some co → container ≠ tmp →
  (length co < fuel)%nat →
  ends_with (InsetAfterListItems_list fuel tmp container m)
    (λ _ m', ∃ new, tight m' (<[tmp := new]> σ) ∧ copies co.*2 new.*2)
    (λ m', ∃ c, tight m' (<[tmp := c]> σ)
                ∧ (length c ≤ length co)%nat).
Proof.
  intros Hm Hσ Hco Hne Hfuel.
  unfold InsetAfterListItems_list, cbefore_begin.
  unfold bind at 1. unfold ret at 1.
  erewrite bind_Ret by (eapply begin_ok, (tight_list _ _ Hm), Hco).
  by apply (tight_InsetAfterListItems_list_loop_spec co fuel m σ tmp [] container []
              Hm Hσ).
Qed.

Lemma tight_with_tmp_spec {A} fuel (body : positive → M A) m σ
    (Q : A → gmap positive (list (Z * T)) → Prop)
    (E : gmap positive (list (Z * T)) → Prop) :
  tight m σ →
  (∀ tmp m0, σ !! tmp = None → tight m0 (<[tmp := []]> σ) →
     ends_with (body tmp m0)
       (λ a m1, ∃ σ1 c, tight m1 σ1 ∧ σ1 !! tmp = Some c
                        ∧ (length c < fuel)%nat ∧ Q a (delete tmp σ1))
       (λ m1, ∃ σ1 c, tight m1 σ1 ∧ σ1 !! tmp = Some c
                      ∧ (length c < fuel)%nat ∧ E (delete tmp σ1))) →
  ends_with (with_tmp fuel body m)
    (λ a m', ∃ σ', tight m' σ' ∧ Q a σ')
    (λ m', ∃ σ', tight m' σ' ∧ E σ').
Proof.
  intros Hm Hbody. unfold with_tmp, SingleLinkedList_default.
  pose proof (fresh_obj_fresh m) as Hfresh.
  destruct (tight_init_members_ok m σ _ Hm Hfresh) as (m0 & Hinit & _ & _ & Hm0).
  erewrite bind_Ret by exact Hinit.
  eapply ends_finally.
  - apply Hbody; [by eapply tight_fresh_obj | done].
  - simpl. intros a m1 (σ1 & c & Hm1 & Hc & Hlen & HQ).
    destruct (tight_destroy_ok m1 σ1 _ c fuel Hm1 Hc Hlen) as (m2 & -> & _ & Hm2).
    eauto.
  - simpl. intros m1 (σ1 & c & Hm1 & Hc & Hlen & HE).
    destruct (tight_destroy_ok m1 σ1 _ c fuel Hm1 Hc Hlen) as (m2 & -> & _ & Hm2).
    eauto.
Qed.

Lemma tight_SingleLinkedList_init_spec fuel m σ this values :
  tight m σ → objs m !! this = None → (length values < fuel)%nat →
  ends_with (SingleLinkedList_init fuel this values m)
    (λ _ m', ∃ c, tight m' (<[this := c]> σ) ∧ copies values c.*2)
    (λ m', tight m' σ).
Proof.
  intros Hm Hthis Hfuel. unfold SingleLinkedList_init.
  pose proof (tight_fresh_obj _ _ _ Hm Hthis) as Hσ.
  destruct (tight_init_members_ok m σ this Hm Hthis) as (m0 & Hinit & _ & _ & Hm0).
  erewrite bind_Ret by exact Hinit.
  eapply ends_on_throw with
    (E1 := λ m', ∃ σ', tight m' σ' ∧ σ' = <[this := []]> σ).
  2:{ simpl. intros m1 (σ' & Hm1 & ->).
      apply (tight_release_ok _ _ this) in Hm1;
        [|by rewrite lookup_insert_eq].
      by rewrite delete_insert_id in Hm1. }
  eapply ends_mono;
    [apply (tight_with_tmp_spec fuel _ m0 _
              (λ _ σ', ∃ c, σ' = <[this := c]> σ ∧ copies values c.*2)
              (λ σ', σ' = <[this := []]> σ) Hm0) | |]; simpl.
  2:{ intros _ m' (σ' & Hm' & c & -> & Hc). eauto. }
  2:{ intros m' (σ' & Hm' & ->). eauto. }
  intros tmp m1 Htmp Hm1.
  assert (tmp ≠ this) as Hne by (intros ->; by rewrite lookup_insert_eq in Htmp).
  rewrite lookup_insert_ne in Htmp by done.
  eapply ends_bind.
  - apply (tight_InsetAfterListItems_spec values m1 _ tmp Hm1).
    by rewrite lookup_insert_eq.
  - simpl. intros m2 (c & Hm2 & Hlen). rewrite insert_insert_eq in Hm2.
    exists (<[tmp := c]> (<[this := []]> σ)), c.
    split_and!; [done | by rewrite lookup_insert_eq | lia |].
    by rewrite delete_insert_id by (by rewrite lookup_insert_ne).
  - simpl. intros _ m2 (new & Hm2 & Hcp). rewrite insert_insert_eq in Hm2.
    destruct (tight_swap_ok m2 _ this tmp [] new Hm2) as (m3 & Hswap & _ & _ & Hm3).
    { rewrite lookup_insert_ne by done. by rewrite lookup_insert_eq. }
    { by rewrite lookup_insert_eq. }
    eapply ends_Ret; [exact Hswap|].
    eexists _, []. split_and!; [exact Hm3 | | simpl; lia |].
    + rewrite lookup_insert_ne by done. by rewrite lookup_insert_eq.
    + exists new. split; [|done]. map_solve.
Qed.

Lemma tight_SingleLinkedList_copy_spec fuel m σ this other co :
  tight m σ → objs m !! this = None → σ !! other = Some co →
  (length co < fuel)%nat →
  ends_with (SingleLinkedList_copy fuel this other m)
    (λ _ m', ∃ c, tight m' (<[this := c]> σ) ∧ copies co.*2 c.*2)
    (λ m', tight m' σ).
Proof.
  intros Hm Hthis Hother Hfuel. unfold SingleLinkedList_copy.
  pose proof (tight_fresh_obj _ _ _ Hm Hthis) as Hσ.
  assert (other ≠ this) as Hot by (intros ->; congruence).
  destruct (tight_init_members_ok m σ this Hm Hthis) as (m0 & Hinit & _ & _ & Hm0).
  erewrite bind_Ret by exact Hinit.
  eapply ends_on_throw with
    (E1 := λ m', ∃ σ', tight m' σ' ∧ σ' = <[this := []]> σ).
  2:{ simpl. intros m1 (σ' & Hm1 & ->).
      apply (tight_release_ok _ _ this) in Hm1;
        [|by rewrite lookup_insert_eq].
      by rewrite delete_insert_id in Hm1. }
  destruct (tight_list _ _ Hm0 this [] (lookup_insert_eq _ _ _))
    as (s0 & Hs0 & Hc0 & Hz0).
  erewrite bind_Ret by (by apply get_size_ok).
  erewrite bind_Ret by (by apply load_head).
  rewrite Hz0, (chain_heads _ _ _ Hc0). simpl.
  erewrite bind_Ret by apply assert_true.
  eapply ends_mono;
    [apply (tight_with_tmp_spec fuel _ m0 _
              (λ _ σ', ∃ c, σ' = <[this := c]> σ ∧ copies co.*2 c.*2)
              (λ σ', σ' = <[this := []]> σ) Hm0) | |]; simpl.
  2:{ intros _ m' (σ' & Hm' & c & -> & Hc). eauto. }
  2:{ intros m' (σ' & Hm' & ->). eauto. }
  intros tmp m1 Htmp Hm1.
  assert (tmp ≠ this) as Hne by (intros ->; by rewrite lookup_insert_eq in Htmp).
  rewrite lookup_insert_ne in Htmp by done.
  assert (other ≠ tmp) as Hne' by (intros ->; congruence).
  eapply ends_bind.
  - apply (tight_InsetAfterListItems_list_spec fuel m1 _ tmp other co Hm1);
      [by rewrite lookup_insert_eq | by rewrite !lookup_insert_ne | done
      | done].
  - simpl. intros m2 (c & Hm2 & Hlen). rewrite insert_insert_eq in Hm2.
    exists (<[tmp := c]> (<[this := []]> σ)), c.
    split_and!; [done | by rewrite lookup_insert_eq | lia |].
    by rewrite delete_insert_id by (by rewrite lookup_insert_ne).
  - simpl. intros _ m2 (new & Hm2 & Hcp). rewrite insert_insert_eq in Hm2.
    destruct (tight_swap_ok m2 _ this tmp [] new Hm2) as (m3 & Hswap & _ & _ & Hm3).
    { rewrite lookup_insert_ne by done. by rewrite lookup_insert_eq. }
    { by rewrite lookup_insert_eq. }
    eapply ends_Ret; [exact Hswap|].
    eexists _, []. split_and!; [exact Hm3 | | simpl; lia |].
    + rewrite lookup_insert_ne by done. by rewrite lookup_insert_eq.
    + exists new. split; [|done]. map_solve.
Qed.

Lemma tight_operator_assign_spec fuel m σ this rhs ca cb :
  tight m σ → σ !! this = Some ca → σ !! rhs = Some cb → this ≠ rhs →
  (length ca < fuel)%nat → (length cb < fuel)%nat →
  ends_with (operator_assign fuel this rhs m)
    (λ _ m', ∃ c, tight m' (<[this := c]> σ) ∧ copies cb.*2 c.*2)
    (λ m', tight m' σ).
Proof.
  intros Hm Hthis Hrhs Hne Hfa Hfb. unfold operator_assign.
  rewrite bool_decide_eq_false_2 by done.
  pose proof (fresh_obj_fresh m) as Hfresh.
  pose proof (tight_fresh_obj _ _ _ Hm Hfresh) as Htmp.
  set (tmp := fresh_obj m) in *.
  assert (tmp ≠ this) as Hne1 by (intros Heq; rewrite Heq in Htmp; congruence).
  eapply ends_bind.
  - by apply (tight_SingleLinkedList_copy_spec fuel m σ tmp rhs cb Hm Hfresh Hrhs).
  - done.
  - simpl. intros _ m1 (c & Hm1 & Hcp).
    eapply ends_finally with
      (Q1 := λ _ m', tight m' (<[this := c]> (<[tmp := ca]> (<[tmp := c]> σ))))
      (E1 := λ _, False).
    + destruct (tight_swap_ok m1 _ this tmp ca c Hm1) as (m2 & Hswap & _ & _ & Hm2).
      { by rewrite lookup_insert_ne. }
      { by rewrite lookup_insert_eq. }
      eapply ends_Ret; [exact Hswap | done].
    + simpl. intros _ m2 Hm2.
      destruct (tight_destroy_ok m2 _ tmp ca fuel Hm2) as (m3 & Hd & _ & Hm3);
        [|done|].
      { rewrite lookup_insert_ne by done. by rewrite lookup_insert_eq. }
      exists m3. split; [done|]. exists c. split; [|done].
      replace (<[this := c]> σ)
        with (delete tmp (<[this := c]> (<[tmp := ca]> (<[tmp := c]> σ))));
        [done|]. map_solve.
    + done.
Qed.

(** *** Tight memories with the same lists have the same heap *)

Lemma tight_heap_eq m m' σ : tight m σ → tight m' σ → heap m' = heap m.
Proof.
  intros Ht Ht'.
  assert (Hdir : ∀ m1 m2 a n, tight m1 σ → tight m2 σ →
            heap m1 !! a = Some n → heap m2 !! a = Some n).
  { intros m1 m2 a n [Hm1 Hg1] [Hm2 _] Hn.
    destruct (Hg1 a (mk_is_Some _ _ Hn)) as (l & c & Hl & Hin).
    apply list_elem_of_fmap in Hin as ([a' v] & -> & Hin). simpl in *.
    apply list_elem_of_split in Hin as (c1 & c2 & ->).
    pose proof (is_list_cell _ _ _ _ _ _ (models_list _ _ Hm1 _ _ Hl)) as H1.
    pose proof (is_list_cell _ _ _ _ _ _ (models_list _ _ Hm2 _ _ Hl)) as H2.
    congruence. }
  apply map_eq. intros a.
  destruct (heap m !! a) as [n|] eqn:E1.
  - by apply (Hdir m m').
  - destruct (heap m' !! a) as [n'|] eqn:E2; [|done].
    pose proof (Hdir m' m a n' Ht' Ht E2). congruence.
Qed.

Lemma no_garbage_check_sound m :
  no_garbage_check m = true → no_garbage m (abstraction m).
Proof.
  unfold no_garbage_check. rewrite forallb_forall.
  intros Hall a [n Hn].
  specialize (Hall (a, n)
                ltac:(by apply list_elem_of_In, elem_of_map_to_list)).
  apply bool_decide_eq_true in Hall. simpl in Hall.
  apply list_elem_of_In, in_concat in Hall as (k & Hk & Ha).
  apply list_elem_of_In, list_elem_of_fmap in Hk as ([l c] & -> & Hlc).
  apply elem_of_map_to_list in Hlc. exists l, c.
  split; [done | by apply list_elem_of_In].
Qed.

Lemma checked_tight m :
  mem_inv_check m = true → no_garbage_check m = true →
  tight m (abstraction m).
Proof.
  intros H1 H2. split; [by apply mem_inv_check_sound
                       | by apply no_garbage_check_sound].
Qed.

Lemma keeps_tight_intro {A} m σ (o : outcome T W A)
    (Q : A → Mem T W → Prop) (E : Mem T W → Prop) :
  tight m σ →
  ends_with o Q E →
  (∀ a m', Q a m' → ∃ σ', tight m' σ') → (∀ m', E m' → tight m' σ) →
  keeps_tight m σ o.
Proof.
  intros Ht Ho HQ HE. unfold keeps_tight.
  eapply ends_mono; [exact Ho | exact HQ |].
  intros m' Hm'. split; [by apply HE|]. eapply tight_heap_eq; eauto.
Qed.

(** X20: no operation leaks a node.  In a memory in which every node
    belongs to exactly one list, each operation, called within its
    contract, ends in such a memory again; and when an exception leaves
    [PushFront], [InsertAfter], a constructor or the assignment, every
    node allocated on the way has been given back: the lists and the heap
    are exactly those before the call. *)
Theorem no_node_is_leaked m σ :
  tight m σ →
  (∀ this, objs m !! this = None →
     keeps_tight m σ (SingleLinkedList_default this m))
  ∧ (∀ fuel this values,
       objs m !! this = None → (length values < fuel)%nat →
       keeps_tight m σ (SingleLinkedList_init fuel this values m))
  ∧ (∀ fuel this other co,
       objs m !! this = None → σ !! other = Some co →
       (length co < fuel)%nat →
       keeps_tight m σ (SingleLinkedList_copy fuel this other m))
  ∧ (∀ fuel this cells,
       σ !! this = Some cells → (length cells < fuel)%nat →
       keeps_tight m σ (SingleLinkedList_destroy fuel this m))
  ∧ (∀ this cells val,
       σ !! this = Some cells → keeps_tight m σ (PushFront this val m))
  ∧ (∀ this cells,
       σ !! this = Some cells → cells ≠ [] ∨ NDEBUG = true →
       keeps_tight m σ (PopFront this m))
  ∧ (∀ this pre post val,
       σ !! this = Some (pre ++ post) →
       keeps_tight m σ
         (InsertAfter this (Iterator (last_ptr this pre)) val m))
  ∧ (∀ this pre x vx post,
       σ !! this = Some (pre ++ (x, vx) :: post) →
       keeps_tight m σ (EraseAfter this (Iterator (last_ptr this pre)) m))
  ∧ (∀ fuel this cells,
       σ !! this = Some cells → (length cells < fuel)%nat →
       keeps_tight m σ (Clear fuel this m))
  ∧ (∀ a b ca cb,
       σ !! a = Some ca → σ !! b = Some cb → keeps_tight m σ (swap a b m))
  ∧ (∀ fuel a b ca cb,
       σ !! a = Some ca → σ !! b = Some cb →
       (length ca < fuel)%nat → (length cb < fuel)%nat →
       keeps_tight m σ (operator_assign fuel a b m)).
Proof.
  intros Ht. split_and!.
  - intros this Hthis.
    destruct (tight_init_members_ok m σ this Ht Hthis)
      as (m' & Hrun & _ & _ & Hm').
    unfold keeps_tight, SingleLinkedList_default. rewrite Hrun. simpl.
    by eexists.
  - intros fuel this values Hthis Hfuel.
    eapply keeps_tight_intro;
      [done | by apply (tight_SingleLinkedList_init_spec fuel m σ) | |];
      simpl; [|done].
    intros _ m' (c & Hm' & _). by eexists.
  - intros fuel this other co Hthis Hother Hfuel.
    eapply keeps_tight_intro;
      [done
      | by apply (tight_SingleLinkedList_copy_spec fuel m σ this other co)
      | |]; simpl; [|done].
    intros _ m' (c & Hm' & _). by eexists.
  - intros fuel this cells Hσ Hfuel.
    destruct (tight_destroy_ok m σ this cells fuel Ht Hσ Hfuel)
      as (m' & -> & _ & Hm').
    simpl. by eexists.
  - intros this cells val Hσ.
    unfold keeps_tight. rewrite PushFront_as_InsertAfter.
    unfold before_begin. unfold bind at 1. unfold ret at 1.
    eapply ends_bind;
      [apply (tight_InsertAfter_spec m σ this [] cells val Ht Hσ) | |]; simpl.
    + intros m' (Hh & _ & Hm'). done.
    + intros _ m' (a & v & _ & _ & _ & Hm'). by eexists.
  - intros this cells Hσ Hcase.
    destruct cells as [|[x vx] cells].
    + destruct Hcase as [?|HN]; [done|].
      destruct (tight_list _ _ Ht _ _ Hσ) as (s & Hs & _ & Hsz).
      unfold keeps_tight. erewrite PopFront_empty_release by done.
      simpl. by eexists.
    + destruct (tight_PopFront_ok m σ this x vx cells Ht Hσ)
        as (m' & -> & _ & Hm').
      simpl. by eexists.
  - intros this pre post val Hσ.
    eapply keeps_tight_intro;
      [done | apply (tight_InsertAfter_spec m σ this pre post val Ht Hσ) | |];
      simpl.
    + intros _ m' (a & v & _ & _ & _ & Hm'). by eexists.
    + intros m' (_ & _ & Hm'). done.
  - intros this pre x vx post Hσ.
    destruct (tight_EraseAfter_ok m σ this pre x vx post Ht Hσ)
      as (m' & -> & _ & Hm').
    simpl. by eexists.
  - intros fuel this cells Hσ Hfuel.
    destruct (tight_Clear_ok cells fuel m σ this Ht Hσ Hfuel)
      as (m' & -> & _ & Hm').
    simpl. by eexists.
  - intros a b ca cb Ha Hb.
    destruct (tight_swap_ok m σ a b ca cb Ht Ha Hb) as (m' & -> & _ & _ & Hm').
    simpl. by eexists.
  - intros fuel a b ca cb Ha Hb Hfa Hfb.
    destruct (decide (a = b)) as [->|Hne].
    + unfold keeps_tight. rewrite operator_assign_self. simpl. by eexists.
    + eapply keeps_tight_intro;
        [done | by apply (tight_operator_assign_spec fuel m σ a b ca cb) | |];
        simpl; [|done].
      intros _ m' (c & Hm' & _). by eexists.
Qed.

End SingleLinkedList.

(** * The claims on concrete lists of [int] *)

(** ** The concrete allocators meet the assumptions *)

Lemma bump_new_fresh {T W} (m : Mem T W) a :
  IntList.bump_new m = Some a → heap m !! a = None ∧ 0 < a < SIZE_MOD.
Proof.
  unfold IntList.bump_new.
  set (f := λ (k : Z) (_ : Node T) (r : Z), Z.max (1 + k) r).
  assert (1 ≤ map_fold f 1 (heap m)
          ∧ ∀ k, is_Some (heap m !! k) → k < map_fold f 1 (heap m)) as [H1 H2].
  { apply (map_fold_weak_ind
             (λ r h, 1 ≤ r ∧ ∀ k, is_Some (h !! k) → k < r)).
    - split; [done|]. intros k [? Hk]. by rewrite lookup_empty in Hk.
    - intros i x h r Hi [Hr Hall]. unfold f. split; [lia|].
      intros k Hk. destruct (decide (k = i)) as [->|Hne]; [lia|].
      rewrite lookup_insert_ne in Hk by done. specialize (Hall k Hk). lia. }
  destruct (map_fold f 1 (heap m) <? SIZE_MOD) eqn:Hlt; [|done].
  intros [= <-]. apply Z.ltb_lt in Hlt. split; [|lia].
  destruct (heap m !! map_fold f 1 (heap m)) eqn:Hlook; [|done].
  specialize (H2 _ (mk_is_Some _ _ Hlook)). lia.
Qed.

Lemma bump_obj_fresh {T W} (m : Mem T W) : objs m !! IntList.bump_obj m = None.
Proof.
  unfold IntList.bump_obj.
  set (f := λ (k : positive) (_ : SingleLinkedList T) (r : positive),
         Pos.max (Pos.succ k) r).
  assert (∀ k, is_Some (objs m !! k) → (k < map_fold f 1 (objs m))%positive)
    as Hall.
  { apply (map_fold_weak_ind (λ r h, ∀ k, is_Some (h !! k) → (k < r)%positive)).
    - intros k [? Hk]. by rewrite lookup_empty in Hk.
    - intros i x h r Hi Hall k Hk. unfold f.
      destruct (decide (k = i)) as [->|Hne]; [lia|].
      rewrite lookup_insert_ne in Hk by done. specialize (Hall k Hk). lia. }
  destruct (objs m !! map_fold f 1%positive (objs m)) eqn:Hlook; [|done].
  specialize (Hall _ (mk_is_Some _ _ Hlook)). lia.
Qed.

Lemma nothrow_faithful w v w' v' : IntList.nothrow w v = (w', Some v') → v' = v.
Proof. unfold IntList.nothrow. by intros [= _ <-]. Qed.

(** The first-fit [new] returns unused storage, and does so as long as
    fewer nodes are allocated than any bound within the address space. *)
Lemma first_fit_fresh {T W} (m : Mem T W) a :
  IntList.first_fit m = Some a → heap m !! a = None ∧ 0 < a < SIZE_MOD.
Proof.
  unfold IntList.first_fit. intros [Hin Hp]%find_some.
  apply list_elem_of_In, list_elem_of_fmap in Hin as (n & -> & Hn).
  apply elem_of_seq in Hn.
  destruct (heap m !! Z.of_nat n); [done|].
  apply Z.ltb_lt in Hp. split; [done | lia].
Qed.

Lemma first_fit_succeeds {T W} (capacity : nat) :
  Z.of_nat capacity < SIZE_MOD →
  new_succeeds_below (T := T) (W := W) IntList.first_fit capacity.
Proof.
  intros Hcap m Hsize. unfold IntList.first_fit.
  destruct (find _ _) as [a|] eqn:Hfind; [by eexists|]. exfalso.
  pose proof (find_none _ _ Hfind) as Hnone.
  assert (Hsub : (Z.of_nat <$> seq 1 (S (size (heap m))))
                 ⊆+ (map_to_list (heap m)).*1).
  { apply NoDup_submseteq.
    - apply NoDup_fmap_2; [apply Nat2Z.inj' | apply NoDup_seq].
    - intros x Hx.
      pose proof (Hnone x (proj1 (list_elem_of_In _ _) Hx)) as Hf.
      simpl in Hf.
      apply list_elem_of_fmap in Hx as (n & -> & Hn). apply elem_of_seq in Hn.
      destruct (heap m !! Z.of_nat n) as [nd|] eqn:Hl.
      + apply list_elem_of_fmap. exists (Z.of_nat n, nd).
        split; [done | by apply elem_of_map_to_list].
      + apply Z.ltb_ge in Hf. lia. }
  apply submseteq_length in Hsub.
  rewrite !length_fmap, length_seq, length_map_to_list in Hsub. lia.
Qed.

Lemma nothrow_succeeds vs : copies_succeed IntList.nothrow vs.
Proof. intros w v _. by exists w, v. Qed.

(** ** The concrete memories satisfy the invariant *)

Lemma mem_1234_models {W} (w : W) :
  models (IntList.mem_1234 w) (abstraction (IntList.mem_1234 w)).
Proof. apply mem_inv_check_sound. vm_compute. reflexivity. Qed.

Lemma mem_1234_list1 {W} (w : W) :
  is_list (IntList.mem_1234 w) 1 [(16, 1); (32, 2); (48, 3); (64, 4)].
Proof. apply checked_is_list; vm_compute; reflexivity. Qed.

Lemma mem_1234_list2 {W} (w : W) :
  is_list (IntList.mem_1234 w) 2 [(80, 7); (96, 8)].
Proof. apply checked_is_list; vm_compute; reflexivity. Qed.

Lemma mem_empty_list {W} (w : W) : is_list (IntList.mem_empty w) 1 [].
Proof. apply checked_is_list; vm_compute; reflexivity. Qed.

(** C1 (the code departs from the claim): [==] runs [std::equal] over the
    left list only and never compares the lengths.  For the empty list
    and the list {1} it answers [true], and [!=] answers [false], though
    the lengths differ; with the operands exchanged it reads through the
    null end position of the shorter right list. *)
Theorem operator_eq_ignores_length :
  is_list IntList.mem_nil_one 1 []
  ∧ is_list IntList.mem_nil_one 2 [(16, 1)]
  ∧ ¬ seq_equal Z.eqb [] [1]
  ∧ operator_eq Z.eqb 1 1 2 IntList.mem_nil_one
    = Ret true IntList.mem_nil_one
  ∧ operator_ne Z.eqb 1 1 2 IntList.mem_nil_one
    = Ret false IntList.mem_nil_one
  ∧ operator_eq Z.eqb 2 2 1 IntList.mem_nil_one = UB.
Proof.
  split_and!.
  - apply checked_is_list; vm_compute; reflexivity.
  - apply checked_is_list; vm_compute; reflexivity.
  - unfold seq_equal. inversion 1.
  - vm_compute. reflexivity.
  - vm_compute. reflexivity.
  - vm_compute. reflexivity.
Qed.

(** C2, as stated, fails on the empty list: there [before_begin()] and
    [begin()] are not equal. *)
Lemma before_begin_ne_begin_on_empty :
  is_list (IntList.mem_empty tt) 1 []
  ∧ ¬ ∃ bb b,
        before_begin 1 (IntList.mem_empty tt) = Ret bb (IntList.mem_empty tt)
        ∧ begin 1 (IntList.mem_empty tt) = Ret b (IntList.mem_empty tt)
        ∧ iter_eq bb b = true.
Proof.
  split; [apply mem_empty_list|].
  intros (bb & b & Hbb & Hb & Heq).
  vm_compute in Hbb, Hb. by simplify_eq.
Qed.

Lemma before_begin_then_begin_witness :
  ∃ bb b,
    before_begin 1 (IntList.mem_1234 tt) = Ret bb (IntList.mem_1234 tt)
    ∧ begin 1 (IntList.mem_1234 tt) = Ret b (IntList.mem_1234 tt)
    ∧ b = Iterator (node_at 16)
    ∧ iter_eq bb b = false
    ∧ operator_incr bb (IntList.mem_1234 tt) = Ret b (IntList.mem_1234 tt).
Proof.
  apply (before_begin_then_begin (IntList.mem_1234 tt) 1
           [(16, 1); (32, 2); (48, 3); (64, 4)]).
  apply mem_1234_list1.
Defined.

Lemma InsertAfter_copy_throw_unchanged_witness :
  ∃ m',
    InsertAfter IntList.countdown false IntList.bump_new 1
      (Iterator (node_at 16)) 9 (IntList.mem_1234 O) = Throw m'
    ∧ heap m' = heap (IntList.mem_1234 O)
    ∧ objs m' = objs (IntList.mem_1234 O)
    ∧ is_list m' 1 [(16, 1); (32, 2); (48, 3); (64, 4)].
Proof.
  apply (InsertAfter_copy_throw_unchanged IntList.countdown false
           IntList.bump_new (IntList.mem_1234 O) 1
           [(16, 1)] [(32, 2); (48, 3); (64, 4)] 9 97 O).
  - apply mem_1234_list1.
  - vm_compute. reflexivity.
  - reflexivity.
Defined.

Lemma EraseAfter_removes_successor_witness :
  ∃ m' s' it e,
    EraseAfter false 1 (Iterator (node_at 16)) (IntList.mem_1234 tt)
    = Ret it m'
    ∧ models m'
        (<[1%positive := [(16, 1); (48, 3); (64, 4)]]>
           (abstraction (IntList.mem_1234 tt)))
    ∧ objs m' !! 1%positive = Some s' ∧ size_ s' = 4 - 1
    ∧ it = Iterator (node_at 48)
    ∧ operator_incr (Iterator (node_at 16)) m' = Ret it m'
    ∧ end_ 1 m' = Ret e m'
    ∧ ([(48, 3); (64, 4)] = [] → it = e).
Proof.
  apply (EraseAfter_removes_successor false (IntList.mem_1234 tt)
           (abstraction (IntList.mem_1234 tt)) 1
           [(16, 1)] 32 2 [(48, 3); (64, 4)]
           (mkList (mkNode 0 (node_at 16)) 4)).
  - apply mem_1234_models.
  - vm_compute. reflexivity.
  - reflexivity.
Defined.

Lemma ordering_operators_witness :
  ∃ ab ba : bool,
    operator_lt Z.ltb 5 1 2 (IntList.mem_1234 tt) = Ret ab (IntList.mem_1234 tt)
    ∧ operator_lt Z.ltb 5 2 1 (IntList.mem_1234 tt)
      = Ret ba (IntList.mem_1234 tt)
    ∧ (ab = true ↔ lex_lt Z.ltb [1; 2; 3; 4] [7; 8])
    ∧ (ba = true ↔ lex_lt Z.ltb [7; 8] [1; 2; 3; 4])
    ∧ operator_ge Z.ltb 5 1 2 (IntList.mem_1234 tt)
      = Ret (negb ab) (IntList.mem_1234 tt)
    ∧ operator_le Z.ltb 5 1 2 (IntList.mem_1234 tt)
      = Ret (negb ba) (IntList.mem_1234 tt)
    ∧ operator_gt Z.ltb 5 1 2 (IntList.mem_1234 tt)
      = Ret ba (IntList.mem_1234 tt).
Proof.
  apply (ordering_operators Z.ltb 5 (IntList.mem_1234 tt) 1 2
           [(16, 1); (32, 2); (48, 3); (64, 4)] [(80, 7); (96, 8)]).
  - apply mem_1234_list1.
  - apply mem_1234_list2.
  - simpl. lia.
  - simpl. lia.
Defined.

Lemma PushFront_then_PopFront_witness :
  ∃ m1 m2 s2,
    PushFront IntList.nothrow IntList.bump_new 1 9 (IntList.mem_1234 tt)
    = Ret tt m1
    ∧ PopFront false 1 m1 = Ret tt m2
    ∧ models m2 (abstraction (IntList.mem_1234 tt))
    ∧ is_list m2 1 [(16, 1); (32, 2); (48, 3); (64, 4)]
    ∧ objs m2 !! 1%positive = Some s2 ∧ size_ s2 = 4.
Proof.
  apply (PushFront_then_PopFront IntList.nothrow false IntList.bump_new
           bump_new_fresh (IntList.mem_1234 tt)
           (abstraction (IntList.mem_1234 tt)) 1
           [(16, 1); (32, 2); (48, 3); (64, 4)] 9 97 tt 9
           (mkList (mkNode 0 (node_at 16)) 4)).
  - apply mem_1234_models.
  - vm_compute. reflexivity.
  - reflexivity.
  - vm_compute. reflexivity.
  - reflexivity.
Defined.

Lemma InsertAfter_before_begin_is_PushFront_witness :
  ∃ m' s' it,
    bind (before_begin 1)
      (λ pos, InsertAfter IntList.nothrow false IntList.bump_new 1 pos 9)
      (IntList.mem_1234 tt) = Ret it m'
    ∧ PushFront IntList.nothrow IntList.bump_new 1 9 (IntList.mem_1234 tt)
      = Ret tt m'
    ∧ models m'
        (<[1%positive := [(97, 9); (16, 1); (32, 2); (48, 3); (64, 4)]]>
           (abstraction (IntList.mem_1234 tt)))
    ∧ objs m' !! 1%positive = Some s' ∧ size_ s' = 4 + 1
    ∧ begin 1 m' = Ret it m'
    ∧ ((∀ w0 v0 w1 v1, IntList.nothrow w0 v0 = (w1, Some v1) → v1 = v0) →
       9 = 9).
Proof.
  apply (proj2 (InsertAfter_before_begin_is_PushFront IntList.nothrow false
                  IntList.bump_new bump_new_fresh 1 9)
           (IntList.mem_1234 tt) (abstraction (IntList.mem_1234 tt))
           [(16, 1); (32, 2); (48, 3); (64, 4)] 97 tt 9
           (mkList (mkNode 0 (node_at 16)) 4)).
  - apply mem_1234_models.
  - vm_compute. reflexivity.
  - reflexivity.
  - vm_compute. reflexivity.
  - reflexivity.
Defined.

Lemma copy_assignment_witness :
  operator_assign 0 IntList.nothrow false IntList.first_fit IntList.bump_obj
    5 1 1 (IntList.mem_1234 tt) = Ret tt (IntList.mem_1234 tt)
  ∧ ends_with
      (operator_assign 0 IntList.nothrow false IntList.first_fit
         IntList.bump_obj 5 1 2 (IntList.mem_1234 tt))
      (λ _ m', ∃ c,
         models m' (<[1%positive := c]> (abstraction (IntList.mem_1234 tt)))
         ∧ is_list m' 1 c ∧ c.*2 = [7; 8]
         ∧ is_list m' 2 [(80, 7); (96, 8)])
      (λ m', models m' (abstraction (IntList.mem_1234 tt))
             ∧ is_list m' 1 [(16, 1); (32, 2); (48, 3); (64, 4)]
             ∧ is_list m' 2 [(80, 7); (96, 8)])
  ∧ ∃ m',
      operator_assign 0 IntList.nothrow false IntList.first_fit
        IntList.bump_obj 5 1 2 (IntList.mem_1234 tt) = Ret tt m'
      ∧ ∃ c,
          models m' (<[1%positive := c]> (abstraction (IntList.mem_1234 tt)))
          ∧ is_list m' 1 c ∧ c.*2 = [7; 8]
          ∧ is_list m' 2 [(80, 7); (96, 8)].
Proof.
  destruct (copy_assignment 0 IntList.nothrow false IntList.first_fit
              IntList.bump_obj first_fit_fresh bump_obj_fresh 5
              (IntList.mem_1234 tt) (abstraction (IntList.mem_1234 tt)) 1 2
              [(16, 1); (32, 2); (48, 3); (64, 4)] [(80, 7); (96, 8)])
    as (Hself & Hends & Hcompletes).
  - apply nothrow_faithful.
  - apply mem_1234_models.
  - vm_compute. reflexivity.
  - vm_compute. reflexivity.
  - discriminate.
  - simpl. lia.
  - simpl. lia.
  - split; [exact Hself|]. split; [exact Hends|].
    apply (Hcompletes 8%nat).
    + by apply first_fit_succeeds.
    + vm_compute. lia.
    + apply nothrow_succeeds.
Defined.

Lemma invariant_preserved_witness :
  keeps_inv (SingleLinkedList_default 0 3 (IntList.mem_1234 tt))
  ∧ keeps_inv
      (SingleLinkedList_init 0 IntList.nothrow false IntList.bump_new
         IntList.bump_obj 6 3 [3; 14; 15; 92; 6] (IntList.mem_1234 tt))
  ∧ keeps_inv
      (SingleLinkedList_copy 0 IntList.nothrow false IntList.bump_new
         IntList.bump_obj 5 3 1 (IntList.mem_1234 tt))
  ∧ keeps_inv
      (PushFront IntList.nothrow IntList.bump_new 1 9 (IntList.mem_1234 tt))
  ∧ keeps_inv (PopFront false 1 (IntList.mem_1234 tt))
  ∧ keeps_inv
      (InsertAfter IntList.nothrow false IntList.bump_new 1
         (Iterator (node_at 32)) 9 (IntList.mem_1234 tt))
  ∧ keeps_inv (EraseAfter false 1 (Iterator (head_of 1)) (IntList.mem_1234 tt))
  ∧ keeps_inv (Clear false 5 1 (IntList.mem_1234 tt))
  ∧ keeps_inv (swap 1 2 (IntList.mem_1234 tt))
  ∧ keeps_inv
      (operator_assign 0 IntList.nothrow false IntList.bump_new
         IntList.bump_obj 5 1 2 (IntList.mem_1234 tt)).
Proof.
  destruct (invariant_preserved 0 IntList.nothrow false IntList.bump_new
              IntList.bump_obj bump_new_fresh bump_obj_fresh
              (IntList.mem_1234 tt))
    as (_ & Hdef & Hinit & Hcopy & Hpush & Hpop & Hins & Hera & Hclr & Hswap
        & Hasg).
  { exists (abstraction (IntList.mem_1234 tt)). apply mem_1234_models. }
  pose proof (mem_1234_list1 tt) as L1.
  pose proof (mem_1234_list2 tt) as L2.
  split_and!.
  - apply Hdef. reflexivity.
  - apply Hinit; [reflexivity | simpl; lia].
  - eapply Hcopy; [reflexivity | exact L1 | simpl; lia].
  - eapply Hpush. exact L1.
  - eapply Hpop; [exact L1 | by left].
  - apply (Hins 1%positive [(16, 1); (32, 2)] [(48, 3); (64, 4)] 9). exact L1.
  - apply (Hera 1%positive [] 16 1 [(32, 2); (48, 3); (64, 4)]). exact L1.
  - eapply Hclr; [exact L1 | simpl; lia].
  - eapply Hswap; [exact L1 | exact L2].
  - eapply Hasg; [exact L1 | exact L2 | simpl; lia | simpl; lia].
Defined.

Lemma PopFront_on_empty_is_noop_witness :
  PopFront true 1 (IntList.mem_empty tt) = Ret tt (IntList.mem_empty tt)
  ∧ is_list (IntList.mem_empty tt) 1 [].
Proof.
  apply (PopFront_on_empty_is_noop true (IntList.mem_empty tt) 1).
  - reflexivity.
  - apply mem_empty_list.
Defined.

(** ** The scenarios of the self-test, run on the model *)

(** {3, 14, 15, 92, 6}, then [PopFront()], is {14, 15, 92, 6}. *)
Example scenario_PopFront :
  values_after
    (bind (SingleLinkedList_init 0 IntList.nothrow false IntList.bump_new
             IntList.bump_obj 6 1 [3; 14; 15; 92; 6])
       (λ _, PopFront false 1) (mkMem ∅ ∅ tt)) 1
  = Some [14; 15; 92; 6].
Proof. vm_compute. reflexivity. Qed.

(** {1, 2, 3, 4}, [EraseAfter] at the third element, is {1, 2, 3} and the
    iterator returned is [end()]. *)
Example scenario_EraseAfter_last :
  result_of (EraseAfter false 1 (Iterator (node_at 48)) (IntList.mem_1234 tt))
  = Some (Iterator nullptr)
  ∧ values_after
      (EraseAfter false 1 (Iterator (node_at 48)) (IntList.mem_1234 tt)) 1
    = Some [1; 2; 3].
Proof. split; vm_compute; reflexivity. Qed.

(** Assignment between distinct lists, run: the left list gets the values
    of the right one, which keeps its own. *)
Example scenario_assign :
  values_after
    (operator_assign 0 IntList.nothrow false IntList.bump_new
       IntList.bump_obj 5 1 2 (IntList.mem_1234 tt)) 1
  = Some [7; 8]
  ∧ values_after
      (operator_assign 0 IntList.nothrow false IntList.bump_new
         IntList.bump_obj 5 1 2 (IntList.mem_1234 tt)) 2
    = Some [7; 8].
Proof. split; vm_compute; reflexivity. Qed.

(** Assignment in which the second element copy throws: the exception
    leaves heap and list objects as they were. *)
Example scenario_assign_throws :
  match operator_assign 0 IntList.countdown false IntList.bump_new
          IntList.bump_obj 5 2 1 (IntList.mem_1234 1%nat) with
  | Throw m' =>
      heap m' = heap (IntList.mem_1234 1%nat)
      ∧ objs m' = objs (IntList.mem_1234 1%nat)
  | _ => False
  end.
Proof. vm_compute. split; reflexivity. Qed.

(** * The further properties on concrete lists of [int] *)

Lemma mem_1234_tight {W} (w : W) :
  tight (IntList.mem_1234 w) (abstraction (IntList.mem_1234 w)).
Proof. apply checked_tight; vm_compute; reflexivity. Qed.

Lemma Zltb_asym x y : (x <? y) = true → (y <? x) = false.
Proof. intros ?%Z.ltb_lt. apply Z.ltb_ge. lia. Qed.

Lemma Zltb_trans x y z : (x <? y) = true → (y <? z) = true → (x <? z) = true.
Proof. intros ?%Z.ltb_lt ?%Z.ltb_lt. apply Z.ltb_lt. lia. Qed.

Lemma Zltb_incomparable x y z :
  (x <? y) = false → (y <? x) = false → (y <? z) = false → (z <? y) = false →
  (x <? z) = false ∧ (z <? x) = false.
Proof.
  intros ?%Z.ltb_ge ?%Z.ltb_ge ?%Z.ltb_ge ?%Z.ltb_ge.
  split; apply Z.ltb_ge; lia.
Qed.

Lemma GetSize_IsEmpty_agree_witness :
  ∃ b e,
    GetSize 1 (IntList.mem_1234 tt) = Ret (Z.of_nat (length [(16, 1); (32, 2); (48, 3); (64, 4)])) (IntList.mem_1234 tt)
    ∧ IsEmpty 1 (IntList.mem_1234 tt) = Ret (bool_decide ([(16, 1); (32, 2); (48, 3); (64, 4)] = [])) (IntList.mem_1234 tt)
    ∧ begin 1 (IntList.mem_1234 tt) = Ret b (IntList.mem_1234 tt) ∧ end_ 1 (IntList.mem_1234 tt) = Ret e (IntList.mem_1234 tt)
    ∧ iter_eq b e = bool_decide ([(16, 1); (32, 2); (48, 3); (64, 4)] = []).
Proof.
  apply (GetSize_IsEmpty_agree (IntList.mem_1234 tt) 1 [(16, 1); (32, 2); (48, 3); (64, 4)]).
  apply mem_1234_list1.
Defined.

Lemma traversal_in_order_witness :
  ∃ it e,
    bind (begin 1) (λ b, incr_n 2 b) (IntList.mem_1234 tt) = Ret it (IntList.mem_1234 tt)
    ∧ end_ 1 (IntList.mem_1234 tt) = Ret e (IntList.mem_1234 tt)
    ∧ iter_eq it e = bool_decide ([(48, 3); (64, 4)] = [])
    ∧ (it = Iterator (node_at 48) ∧ operator_deref it (IntList.mem_1234 tt) = Ret 3 (IntList.mem_1234 tt)).
Proof.
  apply (traversal_in_order (IntList.mem_1234 tt) 1 [(16, 1); (32, 2)] [(48, 3); (64, 4)]).
  apply mem_1234_list1.
Defined.

Lemma iterator_equality_is_position_equality_witness :
  (iter_eq (Iterator (node_at 16)) (Iterator (node_at 32)) = true ↔
     [(16, 1)] = [(16, 1); (32, 2)])
  ∧ iter_ne (Iterator (node_at 16)) (Iterator (node_at 32))
    = negb (iter_eq (Iterator (node_at 16)) (Iterator (node_at 32)))
  ∧ iter_eq (Iterator (node_at 16)) (Iterator nullptr) = false.
Proof.
  apply (iterator_equality_is_position_equality (IntList.mem_1234 tt) 1 [(16, 1); (32, 2); (48, 3); (64, 4)]
           [(16, 1)] [(16, 1); (32, 2)]).
  - apply mem_1234_list1.
  - exists [(32, 2); (48, 3); (64, 4)]. reflexivity.
  - exists [(48, 3); (64, 4)]. reflexivity.
Defined.

Lemma InsertAfter_inserts_after_pos_witness :
  ∃ m' s' it,
    InsertAfter IntList.nothrow false IntList.bump_new 1 (Iterator (node_at 16)) 9 (IntList.mem_1234 tt) = Ret it m'
    ∧ it = Iterator (node_at 97)
    ∧ models m'
        (<[1%positive := [(16, 1); (97, 9); (32, 2); (48, 3); (64, 4)]]> (abstraction (IntList.mem_1234 tt)))
    ∧ objs m' !! 1%positive = Some s' ∧ size_ s' = 4 + 1
    ∧ operator_deref it m' = Ret 9 m'
    ∧ operator_incr (Iterator (node_at 16)) m' = Ret it m'
    ∧ world m' = tt.
Proof.
  apply (InsertAfter_inserts_after_pos IntList.nothrow false IntList.bump_new bump_new_fresh (IntList.mem_1234 tt) (abstraction (IntList.mem_1234 tt)) 1
           [(16, 1)] [(32, 2); (48, 3); (64, 4)] 9 97 tt 9 (mkList (mkNode 0 (node_at 16)) 4)).
  - apply mem_1234_models.
  - vm_compute. reflexivity.
  - reflexivity.
  - vm_compute. reflexivity.
  - reflexivity.
Defined.

Lemma InsertAfter_then_EraseAfter_witness :
  ∃ m1 it m2,
    InsertAfter IntList.nothrow false IntList.bump_new 1 (Iterator (node_at 16)) 9 (IntList.mem_1234 tt) = Ret it m1
    ∧ EraseAfter false 1 (Iterator (node_at 16)) m1
      = Ret (Iterator (node_at 32)) m2
    ∧ models m2 (abstraction (IntList.mem_1234 tt))
    ∧ is_list m2 1 [(16, 1); (32, 2); (48, 3); (64, 4)].
Proof.
  apply (InsertAfter_then_EraseAfter IntList.nothrow false IntList.bump_new bump_new_fresh (IntList.mem_1234 tt) (abstraction (IntList.mem_1234 tt)) 1
           [(16, 1)] [(32, 2); (48, 3); (64, 4)] 9 97 tt 9).
  - apply mem_1234_models.
  - vm_compute. reflexivity.
  - vm_compute. reflexivity.
  - reflexivity.
Defined.

Lemma PushFront_throw_unchanged_witness :
  (IntList.bump_new (IntList.mem_1234 O) = None → PushFront IntList.countdown IntList.bump_new 1 9 (IntList.mem_1234 O) = Throw (IntList.mem_1234 O))
  ∧ (∀ a w, IntList.bump_new (IntList.mem_1234 O) = Some a → IntList.countdown (world (IntList.mem_1234 O)) 9 = (w, None) →
            PushFront IntList.countdown IntList.bump_new 1 9 (IntList.mem_1234 O)
            = Throw (mkMem (heap (IntList.mem_1234 O)) (objs (IntList.mem_1234 O)) w))
  ∧ (∀ m', PushFront IntList.countdown IntList.bump_new 1 9 (IntList.mem_1234 O) = Throw m' →
           heap m' = heap (IntList.mem_1234 O) ∧ objs m' = objs (IntList.mem_1234 O) ∧ is_list m' 1 [(16, 1); (32, 2); (48, 3); (64, 4)]).
Proof.
  apply (PushFront_throw_unchanged IntList.countdown IntList.bump_new (IntList.mem_1234 O) 1 [(16, 1); (32, 2); (48, 3); (64, 4)] 9).
  apply mem_1234_list1.
Defined.

Lemma PopFront_removes_first_witness :
  ∃ m' s',
    PopFront false 1 (IntList.mem_1234 tt) = Ret tt m'
    ∧ models m' (<[1%positive := [(32, 2); (48, 3); (64, 4)]]> (abstraction (IntList.mem_1234 tt)))
    ∧ objs m' !! 1%positive = Some s' ∧ size_ s' = 4 - 1
    ∧ begin 1 m' = Ret (Iterator (node_at 32)) m'
    ∧ heap m' = delete 16 (heap (IntList.mem_1234 tt)).
Proof.
  apply (PopFront_removes_first false (IntList.mem_1234 tt) (abstraction (IntList.mem_1234 tt)) 1 16 1
           [(32, 2); (48, 3); (64, 4)] (mkList (mkNode 0 (node_at 16)) 4)).
  - apply mem_1234_models.
  - vm_compute. reflexivity.
  - reflexivity.
Defined.


Lemma positions_out_of_contract_witness :
  EraseAfter true 1 (Iterator (node_at 64)) (IntList.mem_1234 tt) = UB
  ∧ InsertAfter IntList.nothrow true IntList.bump_new 1 (Iterator nullptr) 9
      (IntList.mem_1234 tt) = UB
  ∧ EraseAfter true 1 (Iterator nullptr) (IntList.mem_1234 tt) = UB.
Proof.
  apply (positions_out_of_contract IntList.nothrow true IntList.bump_new
           (IntList.mem_1234 tt) 1 [(16, 1); (32, 2); (48, 3); (64, 4)] 9).
  apply mem_1234_list1.
Defined.

Lemma Clear_empties_and_releases_witness :
  ∃ m',
    Clear false 5 1 (IntList.mem_1234 tt) = Ret tt m'
    ∧ models m' (<[1%positive := []]> (abstraction (IntList.mem_1234 tt)))
    ∧ GetSize 1 m' = Ret 0 m'
    ∧ IsEmpty 1 m' = Ret true m'
    ∧ (∀ a, heap m' !! a
            = if decide (a ∈ [(16, 1); (32, 2); (48, 3); (64, 4)].*1) then None else heap (IntList.mem_1234 tt) !! a)
    ∧ Clear false 5 1 m' = Ret tt m'.
Proof.
  apply (Clear_empties_and_releases false (IntList.mem_1234 tt) (abstraction (IntList.mem_1234 tt)) 1 [(16, 1); (32, 2); (48, 3); (64, 4)] 5).
  - apply mem_1234_models.
  - vm_compute. reflexivity.
  - simpl. lia.
Defined.

Lemma swap_exchanges_witness :
  ∃ m' m'',
    swap 1 2 (IntList.mem_1234 tt) = Ret tt m'
    ∧ swap_nonmember 1 2 (IntList.mem_1234 tt) = Ret tt m'
    ∧ heap m' = heap (IntList.mem_1234 tt)
    ∧ models m' (<[1%positive := [(80, 7); (96, 8)]]> (<[2%positive := [(16, 1); (32, 2); (48, 3); (64, 4)]]> (abstraction (IntList.mem_1234 tt))))
    ∧ is_list m' 1 [(80, 7); (96, 8)] ∧ is_list m' 2 [(16, 1); (32, 2); (48, 3); (64, 4)]
    ∧ swap 1 2 m' = Ret tt m''
    ∧ heap m'' = heap (IntList.mem_1234 tt)
    ∧ models m'' (abstraction (IntList.mem_1234 tt)).
Proof.
  apply (swap_exchanges (IntList.mem_1234 tt) (abstraction (IntList.mem_1234 tt)) 1 2 [(16, 1); (32, 2); (48, 3); (64, 4)] [(80, 7); (96, 8)]).
  - apply mem_1234_models.
  - vm_compute. reflexivity.
  - vm_compute. reflexivity.
Defined.

Lemma default_constructor_makes_empty_witness :
  ∃ m',
    SingleLinkedList_default 0 3 (IntList.mem_1234 tt) = Ret tt m'
    ∧ heap m' = heap (IntList.mem_1234 tt)
    ∧ models m' (<[3%positive := []]> (abstraction (IntList.mem_1234 tt)))
    ∧ GetSize 3 m' = Ret 0 m'
    ∧ IsEmpty 3 m' = Ret true m'
    ∧ begin 3 m' = Ret (Iterator nullptr) m'.
Proof.
  apply (default_constructor_makes_empty 0 (IntList.mem_1234 tt) (abstraction (IntList.mem_1234 tt)) 3).
  - apply mem_1234_models.
  - reflexivity.
Defined.

Lemma initializer_list_constructor_witness :
  ends_with
    (SingleLinkedList_init 0 IntList.nothrow false IntList.first_fit IntList.bump_obj 6 3 [3; 14; 15; 92; 6] (IntList.mem_1234 tt))
    (λ _ m', ∃ c, models m' (<[3%positive := c]> (abstraction (IntList.mem_1234 tt)))
                  ∧ c.*2 = [3; 14; 15; 92; 6]
                  ∧ GetSize 3 m'
                    = Ret (Z.of_nat (length [3; 14; 15; 92; 6])) m')
    (λ m', models m' (abstraction (IntList.mem_1234 tt)) ∧ objs m' !! 3%positive = None)
  ∧ ∃ m',
      SingleLinkedList_init 0 IntList.nothrow false IntList.first_fit
        IntList.bump_obj 6 3 [3; 14; 15; 92; 6] (IntList.mem_1234 tt)
      = Ret tt m'
      ∧ ∃ c, models m' (<[3%positive := c]> (abstraction (IntList.mem_1234 tt)))
             ∧ c.*2 = [3; 14; 15; 92; 6]
             ∧ GetSize 3 m'
               = Ret (Z.of_nat (length [3; 14; 15; 92; 6])) m'.
Proof.
  destruct (initializer_list_constructor 0 IntList.nothrow false
              IntList.first_fit IntList.bump_obj first_fit_fresh
              bump_obj_fresh 6 (IntList.mem_1234 tt)
              (abstraction (IntList.mem_1234 tt)) 3 [3; 14; 15; 92; 6])
    as (Hends & Hcompletes).
  - apply nothrow_faithful.
  - apply mem_1234_models.
  - reflexivity.
  - simpl. lia.
  - split; [exact Hends|].
    apply (Hcompletes 11%nat).
    + by apply first_fit_succeeds.
    + vm_compute. lia.
    + apply nothrow_succeeds.
Defined.

Lemma copy_constructor_deep_copy_witness :
  ends_with (SingleLinkedList_copy 0 IntList.nothrow false IntList.first_fit IntList.bump_obj 5 3 1 (IntList.mem_1234 tt))
    (λ _ m', ∃ c m'',
       models m' (<[3%positive := c]> (abstraction (IntList.mem_1234 tt)))
       ∧ c.*2 = [(16, 1); (32, 2); (48, 3); (64, 4)].*2
       ∧ (∀ a, a ∈ c.*1 → a ∉ [(16, 1); (32, 2); (48, 3); (64, 4)].*1)
       ∧ is_list m' 1 [(16, 1); (32, 2); (48, 3); (64, 4)]
       ∧ Clear false 5 3 m' = Ret tt m''
       ∧ is_list m'' 1 [(16, 1); (32, 2); (48, 3); (64, 4)])
    (λ m', models m' (abstraction (IntList.mem_1234 tt)) ∧ objs m' !! 3%positive = None)
  ∧ ∃ m',
      SingleLinkedList_copy 0 IntList.nothrow false IntList.first_fit
        IntList.bump_obj 5 3 1 (IntList.mem_1234 tt) = Ret tt m'
      ∧ ∃ c m'',
          models m' (<[3%positive := c]> (abstraction (IntList.mem_1234 tt)))
          ∧ c.*2 = [(16, 1); (32, 2); (48, 3); (64, 4)].*2
          ∧ (∀ a, a ∈ c.*1 → a ∉ [(16, 1); (32, 2); (48, 3); (64, 4)].*1)
          ∧ is_list m' 1 [(16, 1); (32, 2); (48, 3); (64, 4)]
          ∧ Clear false 5 3 m' = Ret tt m''
          ∧ is_list m'' 1 [(16, 1); (32, 2); (48, 3); (64, 4)].
Proof.
  destruct (copy_constructor_deep_copy 0 IntList.nothrow false
              IntList.first_fit IntList.bump_obj first_fit_fresh
              bump_obj_fresh 5 (IntList.mem_1234 tt)
              (abstraction (IntList.mem_1234 tt)) 3 1
              [(16, 1); (32, 2); (48, 3); (64, 4)])
    as (Hends & Hcompletes).
  - apply nothrow_faithful.
  - apply mem_1234_models.
  - reflexivity.
  - vm_compute. reflexivity.
  - simpl. lia.
  - split; [exact Hends|].
    apply (Hcompletes 10%nat).
    + by apply first_fit_succeeds.
    + vm_compute. lia.
    + apply nothrow_succeeds.
Defined.

Lemma destructor_releases_nodes_witness :
  ∃ m',
    SingleLinkedList_destroy false 5 1 (IntList.mem_1234 tt) = Ret tt m'
    ∧ models m' (delete 1%positive (abstraction (IntList.mem_1234 tt)))
    ∧ objs m' !! 1%positive = None
    ∧ ∀ a, heap m' !! a
           = if decide (a ∈ [(16, 1); (32, 2); (48, 3); (64, 4)].*1) then None else heap (IntList.mem_1234 tt) !! a.
Proof.
  apply (destructor_releases_nodes false (IntList.mem_1234 tt) (abstraction (IntList.mem_1234 tt)) 1 [(16, 1); (32, 2); (48, 3); (64, 4)] 5).
  - apply mem_1234_models.
  - vm_compute. reflexivity.
  - simpl. lia.
Defined.

Lemma operator_eq_compares_prefix_witness :
  (operator_eq Z.eqb 5 1 2 (IntList.mem_1234 tt) = Ret true (IntList.mem_1234 tt) ↔
     ∃ ys1 ys2, [(80, 7); (96, 8)].*2 = ys1 ++ ys2 ∧ seq_equal Z.eqb [(16, 1); (32, 2); (48, 3); (64, 4)].*2 ys1)
  ∧ (operator_eq Z.eqb 5 1 2 (IntList.mem_1234 tt) = UB ↔
       ∃ xs1 x xs2, [(16, 1); (32, 2); (48, 3); (64, 4)].*2 = xs1 ++ x :: xs2 ∧ seq_equal Z.eqb xs1 [(80, 7); (96, 8)].*2)
  ∧ (length [(16, 1); (32, 2); (48, 3); (64, 4)] = length [(80, 7); (96, 8)] →
       ∃ b, operator_eq Z.eqb 5 1 2 (IntList.mem_1234 tt) = Ret b (IntList.mem_1234 tt)
            ∧ operator_ne Z.eqb 5 1 2 (IntList.mem_1234 tt) = Ret (negb b) (IntList.mem_1234 tt)
            ∧ (b = true ↔ seq_equal Z.eqb [(16, 1); (32, 2); (48, 3); (64, 4)].*2 [(80, 7); (96, 8)].*2)).
Proof.
  apply (operator_eq_compares_prefix Z.eqb 5 (IntList.mem_1234 tt) 1 2 [(16, 1); (32, 2); (48, 3); (64, 4)] [(80, 7); (96, 8)]).
  - apply mem_1234_list1.
  - apply mem_1234_list2.
  - simpl. lia.
Defined.

Lemma operator_lt_strict_weak_order_witness :
  operator_lt Z.ltb 5 1 1 (IntList.mem_1234 tt) = Ret false (IntList.mem_1234 tt)
  ∧ operator_le Z.ltb 5 1 1 (IntList.mem_1234 tt) = Ret true (IntList.mem_1234 tt)
  ∧ operator_ge Z.ltb 5 1 1 (IntList.mem_1234 tt) = Ret true (IntList.mem_1234 tt)
  ∧ (operator_lt Z.ltb 5 1 2 (IntList.mem_1234 tt) = Ret true (IntList.mem_1234 tt) →
     operator_lt Z.ltb 5 2 1 (IntList.mem_1234 tt) = Ret false (IntList.mem_1234 tt))
  ∧ (operator_lt Z.ltb 5 1 2 (IntList.mem_1234 tt) = Ret true (IntList.mem_1234 tt) →
     operator_lt Z.ltb 5 2 1 (IntList.mem_1234 tt) = Ret true (IntList.mem_1234 tt) →
     operator_lt Z.ltb 5 1 1 (IntList.mem_1234 tt) = Ret true (IntList.mem_1234 tt)).
Proof.
  apply (operator_lt_strict_weak_order Z.ltb 5 (IntList.mem_1234 tt) 1 2 1 [(16, 1); (32, 2); (48, 3); (64, 4)] [(80, 7); (96, 8)] [(16, 1); (32, 2); (48, 3); (64, 4)]).
  - apply Zltb_asym.
  - apply Zltb_trans.
  - apply Zltb_incomparable.
  - apply mem_1234_list1.
  - apply mem_1234_list2.
  - apply mem_1234_list1.
  - simpl. lia.
  - simpl. lia.
Defined.

Lemma assignment_makes_equal_witness :
  ends_with (operator_assign 0 IntList.nothrow false IntList.bump_new IntList.bump_obj 5 1 2 (IntList.mem_1234 tt))
    (λ _ m', operator_eq Z.eqb 5 1 2 m' = Ret true m'
             ∧ operator_eq Z.eqb 5 2 1 m' = Ret true m'
             ∧ operator_ne Z.eqb 5 1 2 m' = Ret false m')
    (λ _, True).
Proof.
  apply (assignment_makes_equal 0 IntList.nothrow Z.eqb false IntList.bump_new IntList.bump_obj bump_new_fresh
           bump_obj_fresh 5 (IntList.mem_1234 tt) (abstraction (IntList.mem_1234 tt)) 1 2 [(16, 1); (32, 2); (48, 3); (64, 4)] [(80, 7); (96, 8)]).
  - apply nothrow_faithful.
  - apply Z.eqb_refl.
  - apply mem_1234_models.
  - vm_compute. reflexivity.
  - vm_compute. reflexivity.
  - discriminate.
  - simpl. lia.
  - simpl. lia.
Defined.

Lemma copy_constructed_equals_source_witness :
  ends_with (SingleLinkedList_copy 0 IntList.nothrow false IntList.bump_new IntList.bump_obj 5 3 1 (IntList.mem_1234 tt))
    (λ _ m', operator_eq Z.eqb 5 3 1 m' = Ret true m'
             ∧ operator_eq Z.eqb 5 1 3 m' = Ret true m'
             ∧ operator_ne Z.eqb 5 3 1 m' = Ret false m')
    (λ _, True).
Proof.
  apply (copy_constructed_equals_source 0 IntList.nothrow Z.eqb false IntList.bump_new IntList.bump_obj
           bump_new_fresh bump_obj_fresh 5 (IntList.mem_1234 tt) (abstraction (IntList.mem_1234 tt)) 3 1 [(16, 1); (32, 2); (48, 3); (64, 4)]).
  - apply nothrow_faithful.
  - apply Z.eqb_refl.
  - apply mem_1234_models.
  - reflexivity.
  - vm_compute. reflexivity.
  - simpl. lia.
Defined.

Lemma no_node_is_leaked_witness :
  keeps_tight (IntList.mem_1234 tt) (abstraction (IntList.mem_1234 tt)) (SingleLinkedList_default 0 3 (IntList.mem_1234 tt))
  ∧ keeps_tight (IntList.mem_1234 tt) (abstraction (IntList.mem_1234 tt))
      (SingleLinkedList_init 0 IntList.nothrow false IntList.bump_new IntList.bump_obj 6 3 [3; 14; 15; 92; 6] (IntList.mem_1234 tt))
  ∧ keeps_tight (IntList.mem_1234 tt) (abstraction (IntList.mem_1234 tt)) (SingleLinkedList_copy 0 IntList.nothrow false IntList.bump_new IntList.bump_obj 5 3 1 (IntList.mem_1234 tt))
  ∧ keeps_tight (IntList.mem_1234 tt) (abstraction (IntList.mem_1234 tt)) (SingleLinkedList_destroy false 5 1 (IntList.mem_1234 tt))
  ∧ keeps_tight (IntList.mem_1234 tt) (abstraction (IntList.mem_1234 tt)) (PushFront IntList.nothrow IntList.bump_new 1 9 (IntList.mem_1234 tt))
  ∧ keeps_tight (IntList.mem_1234 tt) (abstraction (IntList.mem_1234 tt)) (PopFront false 1 (IntList.mem_1234 tt))
  ∧ keeps_tight (IntList.mem_1234 tt) (abstraction (IntList.mem_1234 tt))
      (InsertAfter IntList.nothrow false IntList.bump_new 1 (Iterator (node_at 32)) 9 (IntList.mem_1234 tt))
  ∧ keeps_tight (IntList.mem_1234 tt) (abstraction (IntList.mem_1234 tt)) (EraseAfter false 1 (Iterator (head_of 1)) (IntList.mem_1234 tt))
  ∧ keeps_tight (IntList.mem_1234 tt) (abstraction (IntList.mem_1234 tt)) (Clear false 5 1 (IntList.mem_1234 tt))
  ∧ keeps_tight (IntList.mem_1234 tt) (abstraction (IntList.mem_1234 tt)) (swap 1 2 (IntList.mem_1234 tt))
  ∧ keeps_tight (IntList.mem_1234 tt) (abstraction (IntList.mem_1234 tt)) (operator_assign 0 IntList.nothrow false IntList.bump_new IntList.bump_obj 5 1 2 (IntList.mem_1234 tt)).
Proof.
  destruct (no_node_is_leaked 0 IntList.nothrow false IntList.bump_new IntList.bump_obj bump_new_fresh
              bump_obj_fresh (IntList.mem_1234 tt) (abstraction (IntList.mem_1234 tt)))
    as (Hdef & Hinit & Hcopy & Hdes & Hpush & Hpop & Hins & Hera & Hclr
        & Hswap & Hasg).
  { apply mem_1234_tight. }
  assert (L1 : (abstraction (IntList.mem_1234 tt)) !! 1%positive = Some [(16, 1); (32, 2); (48, 3); (64, 4)]) by (vm_compute; reflexivity).
  assert (L2 : (abstraction (IntList.mem_1234 tt)) !! 2%positive = Some [(80, 7); (96, 8)]) by (vm_compute; reflexivity).
  split_and!.
  - apply Hdef. reflexivity.
  - apply Hinit; [reflexivity | simpl; lia].
  - eapply Hcopy; [reflexivity | exact L1 | simpl; lia].
  - eapply Hdes; [exact L1 | simpl; lia].
  - eapply Hpush. exact L1.
  - eapply Hpop; [exact L1 | by left].
  - apply (Hins 1%positive [(16, 1); (32, 2)] [(48, 3); (64, 4)] 9). exact L1.
  - apply (Hera 1%positive [] 16 1 [(32, 2); (48, 3); (64, 4)]). exact L1.
  - eapply Hclr; [exact L1 | simpl; lia].
  - eapply Hswap; [exact L1 | exact L2].
  - eapply Hasg; [exact L1 | exact L2 | simpl; lia | simpl; lia].
Defined.
